(** * Numba.ipynb: the four numeric procedures of the notebook

    A shallow embedding of [monte_carlo_pi], [go_slow] / [go_fast],
    [gradient] and [logistic_regression_no_jit] / [logistic_regression]
    from [Numba/Numba.ipynb], and the properties of these functions.

    How the notebook is read:

    - float64 values are Rocq's primitive binary64 floats, so every
      arithmetic step rounds, overflows and produces NaN as IEEE 754 says;
    - Python integers are [Z]; [range n] is empty for [n <= 0];
    - a two-dimensional array is its shape, its strides and its buffer; an
      array of integers (the labels, [np.arange]) is held by the float64
      values of its entries, which is what the arithmetic of the notebook
      turns them into;
    - the arrays that the solvers receive live in a store indexed by object
      identity, because [w -= ...] writes into the caller's array; arrays
      that are views of one buffer are treated in a second, finer model
      of the solvers, in which an array is a window on a buffer;
    - [dot] in the compiled solvers accumulates each entry from [0.0] in
      index order; the [dot] of NumPy itself, which only the undecorated
      function calls, is a parameter;
    - Python exceptions are the [Raise] results of the type [result];
    - the library functions [np.tanh], [np.exp], [np.linalg.norm] and the
      generator behind [np.random.rand] are parameters of the development,
      and where a decorated and an undecorated function call the same
      library function each has a parameter of its own, since the code
      compiled for [np.tanh], [np.exp] and [np.dot] need not round as
      NumPy's does;
    - default arguments ([n_samples=1000], [step_size=0.01],
      [max_iter=1000], [iterations=1000]) are passed explicitly;
    - a function decorated with [@jit(nopython=True)] executes the
      statements of its body with machine types: an integer argument is
      an int64, a zero divisor raises [ZeroDivisionError], and a subscript
      is not checked against the shape, so that [go_fast] never raises
      [IndexError]: it reads the buffer at the position the subscript
      designates;
    - the solvers are modelled on a two-dimensional [X] and one-dimensional
      [y] and [w], the types of the calls of the notebook. *)

From stdpp Require Import gmap.
From Stdlib Require Import ZArith List Lia Bool Floats.
Import ListNotations.

Local Open Scope Z_scope.

(** ** Exceptions and results *)

Inductive exn : Set :=
  | IndexError
  | ValueError
  | TypeError
  | ZeroDivisionError.

Inductive result (A : Type) : Type :=
  | Ok (a : A)
  | Raise (e : exn).

Arguments Ok {A} a.
Arguments Raise {A} e.

Definition bind {A B : Type} (r : result A) (k : A -> result B) : result B :=
  match r with
  | Ok a => k a
  | Raise e => Raise e
  end.

Notation "'let!' x ':=' r 'in' k" := (bind r (fun x => k))
  (at level 10, x name, r at level 100, k at level 200).

(** ** Python integers and [range] *)

(** [range(n)]: the integers [0, 1, ..., n-1]; empty when [n <= 0]. *)
Definition range (n : Z) : list Z := map Z.of_nat (seq 0 (Z.to_nat n)).

(** ** float64 scalars *)

(** The conversion of an integer to float64: the float nearest to the
    integer, ties to even.  This is the machine conversion of an int64,
    and [float(z)] for every [z] that does not overflow. *)
Definition float_of_int (z : Z) : float :=
  SF2Prim (binary_normalize prec emax z 0 false).

(** Python's [x / y] on floats: a zero divisor raises. *)
Definition truediv (x y : float) : result float :=
  if (y =? 0)%float then Raise ZeroDivisionError else Ok (x / y)%float.

(** ** Rounding to binary64, in arithmetic terms *)

(** A location other than [loc_Exact]: some discarded part is not zero. *)
Definition inexact (l : location) : bool :=
  match l with loc_Exact => false | _ => true end.

(** The mantissa [m] after [k] right shifts that started from the location
    [l]: the quotient, the last bit shifted out, and whether anything
    nonzero was shifted out before it. *)
Definition shr_at (l : location) (m k : Z) : shr_record :=
  if k =? 0 then shr_record_of_loc m l
  else {| shr_m := m / 2 ^ k;
          shr_r := Z.odd (m / 2 ^ (k - 1));
          shr_s := inexact l || negb (m mod 2 ^ (k - 1) =? 0) |}.

(** Round to nearest, ties to even, after [k] right shifts. *)
Definition rnd (l : location) (m k : Z) : Z :=
  round_nearest_even (shr_m (shr_at l m k)) (loc_of_shr_record (shr_at l m k)).

(** The mantissa and the exponent of the float nearest to a positive
    integer. *)
Definition norm_pos (p : positive) : Z * Z :=
  let d := Zpos (digits2_pos p) in
  if d <=? 53 then (Zpos p * 2 ^ (53 - d), d - 53)
  else
    let q := rnd loc_Exact (Zpos p) (d - 53) in
    if q <? 2 ^ 53 then (q, d - 53) else (2 ^ 52, d - 52).

(** ** Two-dimensional float64 arrays *)

(** [a.shape = (shape0, shape1)]; the element [a[i, j]] is at position
    [i * stride0 + j * stride1] of the buffer (strides counted in
    elements).  A C-contiguous array has strides [(shape1, 1)]. *)
Record ndarray2 : Type := mk_ndarray2 {
  shape0 : nat;
  shape1 : nat;
  stride0 : nat;
  stride1 : nat;
  data : list float
}.

Definition item (a : ndarray2) (i j : nat) : float :=
  nth (i * stride0 a + j * stride1 a)%nat (data a) 0%float.

(** [a.T]: the same buffer seen with the axes exchanged. *)
Definition T (a : ndarray2) : ndarray2 :=
  mk_ndarray2 (shape1 a) (shape0 a) (stride1 a) (stride0 a) (data a).

(** NumPy's treatment of one subscript along an axis of length [n]:
    a negative subscript counts from the end; anything outside
    [-n .. n-1] is an [IndexError]. *)
Definition wrap_index (i : Z) (n : nat) : result nat :=
  let i' := if i <? 0 then i + Z.of_nat n else i in
  if (0 <=? i') && (i' <? Z.of_nat n) then Ok (Z.to_nat i') else Raise IndexError.

(** [a[i, j]] *)
Definition getitem2 (a : ndarray2) (i j : Z) : result float :=
  let! i' := wrap_index i (shape0 a) in
  let! j' := wrap_index j (shape1 a) in
  Ok (item a i' j').

(** The subscript pair [(i, j)] is within the shape of [a]. *)
Definition in_bounds (a : ndarray2) (i j : Z) : bool :=
  (- Z.of_nat (shape0 a) <=? i) && (i <? Z.of_nat (shape0 a)) &&
  (- Z.of_nat (shape1 a) <=? j) && (j <? Z.of_nat (shape1 a)).

(** [a[i, j]] in a function compiled by [@jit(nopython=True)]: a negative
    subscript counts from the end, and the position
    [i * stride0 + j * stride1] of the buffer is read without a check
    against the shape.  A position that is not in the buffer is memory
    that does not belong to the array, for which the model has no
    value. *)
Definition unchecked_getitem2 (a : ndarray2) (i j : Z) : option float :=
  let i' := if i <? 0 then i + Z.of_nat (shape0 a) else i in
  let j' := if j <? 0 then j + Z.of_nat (shape1 a) else j in
  let pos := i' * Z.of_nat (stride0 a) + j' * Z.of_nat (stride1 a) in
  if pos <? 0 then None else data a !! Z.to_nat pos.

(** The buffer holds every entry of the shape, as the buffer of an array
    does. *)
Definition covers (a : ndarray2) : Prop :=
  forall i j, (i < shape0 a)%nat -> (j < shape1 a)%nat ->
              (i * stride0 a + j * stride1 a < length (data a))%nat.

(** The 3 x 3 array [np.arange(9).reshape(3, 3)]. *)
Definition arange9 : ndarray2 :=
  mk_ndarray2 3 3 3 1 [0; 1; 2; 3; 4; 5; 6; 7; 8]%float.

(** ** One-dimensional arrays and the array operations of the solvers *)

(** [A.dot(v)] for a matrix and a vector of matching length: entry [i] is
    the sum over [j] of [A[i, j] * v[j]], accumulated from [0.0]. *)
Definition matvec (A : ndarray2) (v : list float) : list float :=
  map (fun i => fold_left (fun acc j => (acc + item A i j * nth j v 0)%float)
                          (seq 0 (shape1 A)) 0%float)
      (seq 0 (shape0 A)).

(** [np.dot(u, A)] for a vector and a matrix: entry [j] is the sum over
    [i] of [u[i] * A[i, j]]. *)
Definition vecmat (u : list float) (A : ndarray2) : list float :=
  map (fun j => fold_left (fun acc i => (acc + nth i u 0 * item A i j)%float)
                          (seq 0 (shape0 A)) 0%float)
      (seq 0 (shape1 A)).

(** The shape checks of [dot]. *)
Definition np_dot (A : ndarray2) (v : list float) : result (list float) :=
  if (shape1 A =? length v)%nat then Ok (matvec A v) else Raise ValueError.

Definition np_dot_vm (u : list float) (A : ndarray2) : result (list float) :=
  if (length u =? shape0 A)%nat then Ok (vecmat u A) else Raise ValueError.

(** An elementwise binary operation on two one-dimensional arrays, with
    NumPy's broadcasting of an array of length one. *)
Definition broadcast2 (f : float -> float -> float) (u v : list float)
  : result (list float) :=
  if (length u =? length v)%nat then Ok (zip_with f u v)
  else match u, v with
       | [x], _ => Ok (map (f x) v)
       | _, [y] => Ok (map (fun x => f x y) u)
       | _, _ => Raise ValueError
       end.

(** The value that [w op= g] writes into [w]: [g] must broadcast to the
    shape of [w]. *)
Definition inplace2 (f : float -> float -> float) (w g : list float)
  : result (list float) :=
  if (length g =? length w)%nat then Ok (zip_with f w g)
  else match g with
       | [y] => Ok (map (fun x => f x y) w)
       | _ => Raise ValueError
       end.

(** ** The store of array objects *)

Definition loc := positive.
Bind Scope positive_scope with loc.

Inductive ndarray : Type :=
  | Vec (v : list float)
  | Mat (a : ndarray2).

Abbreviation heap := (gmap loc ndarray).

(** A name bound to a one-dimensional (two-dimensional) array.  The
    model of the solvers covers a two-dimensional [X] and one-dimensional
    [y] and [w].  For arguments of other dimensions the model answers
    [TypeError]; that answer says nothing about the program, in which
    NumPy gives some of these calls a meaning and the compiler refuses
    others before the body runs. *)
Definition load_vec (h : heap) (l : loc) : result (list float) :=
  match h !! l with
  | Some (Vec v) => Ok v
  | _ => Raise TypeError
  end.

Definition load_mat (h : heap) (l : loc) : result ndarray2 :=
  match h !! l with
  | Some (Mat a) => Ok a
  | _ => Raise TypeError
  end.

(** ** Arrays as windows on shared buffers *)

(** In the store above every array owns its entries.  NumPy arrays can
    also be views: [X[0]], [w[:]] or [X[:, 0]] are new array objects on
    the buffer of [X] or [w].  In the finer model the memory is a
    collection of buffers, and an array is a window on one of them: the
    buffer, the position of the first entry, the shape and the strides
    (in elements). *)
Abbreviation memory := (gmap loc (list float)).

Record view1 : Type := mk_view1 {
  base1 : loc;
  offset1 : nat;
  size1 : nat;
  stride : nat
}.

Record view2 : Type := mk_view2 {
  base2 : loc;
  offset2 : nat;
  rows : nat;
  cols : nat;
  row_stride : nat;
  col_stride : nat
}.

(** The positions of the buffer that a window shows, in the order of the
    entries (row after row for a matrix). *)
Definition cells1 (v : view1) : list nat :=
  map (fun i => offset1 v + i * stride v)%nat (seq 0 (size1 v)).

Definition cells2 (V : view2) : list nat :=
  flat_map (fun i => map (fun j => offset2 V + i * row_stride V
                                   + j * col_stride V)%nat
                         (seq 0 (cols V)))
           (seq 0 (rows V)).

(** The content of one position of one buffer. *)
Definition peek (m : memory) (b : loc) (c : nat) : float :=
  match m !! b with
  | Some buf => default 0%float (buf !! c)
  | None => 0%float
  end.

(** The values that a window shows. *)
Definition read1 (m : memory) (v : view1) : list float :=
  map (peek m (base1 v)) (cells1 v).

Definition read2 (m : memory) (V : view2) : ndarray2 :=
  mk_ndarray2 (rows V) (cols V) (cols V) 1 (map (peek m (base2 V)) (cells2 V)).

(** Writing the values [vals], entry after entry, at the positions
    [cs]. *)
Fixpoint poke_all (cs : list nat) (vals : list float) (buf : list float)
  : list float :=
  match cs, vals with
  | c :: cs', x :: vals' => poke_all cs' vals' (<[c := x]> buf)
  | _, _ => buf
  end.

(** The in-place assignment of [vals] to the entries of a window. *)
Definition write1 (m : memory) (v : view1) (vals : list float) : memory :=
  match m !! base1 v with
  | Some buf => <[base1 v := poke_all (cells1 v) vals buf]> m
  | None => m
  end.

(** The positions [cs] exist in the buffer [b]. *)
Definition in_memory (m : memory) (b : loc) (cs : list nat) : bool :=
  match m !! b with
  | Some buf => forallb (fun c => c <? length buf)%nat cs
  | None => false
  end.

(** [np.shares_memory]: two windows have a position of one buffer in
    common. *)
Definition shares_memory (b1 : loc) (cs1 : list nat) (b2 : loc) (cs2 : list nat)
  : bool :=
  bool_decide (b1 = b2) && existsb (fun c => existsb (Nat.eqb c) cs2) cs1.

(** ** Concrete inputs *)

(** [np.arange(6).reshape(3, 2)]: more rows than columns. *)
Definition arange6_tall : ndarray2 :=
  mk_ndarray2 3 2 2 1 [0; 1; 2; 3; 4; 5]%float.

(** [np.arange(3).reshape(1, 3)]: a single row. *)
Definition arange3_row : ndarray2 :=
  mk_ndarray2 1 3 3 1 [0; 1; 2]%float.

(** A store for [gradient(X, y, w)] with [X = [[1, 0], [0, 1], [1, 1]]],
    [y = [1, 2, 3]] and [w = [0, 0]], bound to the objects 1, 2 and 3. *)
Definition heap_small : heap :=
  <[3%positive := Vec [0; 0]%float]>
    (<[2%positive := Vec [1; 2; 3]%float]>
       (<[1%positive := Mat (mk_ndarray2 3 2 2 1 [1; 0; 0; 1; 1; 1]%float)]> ∅)).

(** The same [X] with the labels [y = [1, -1, 1]] and [w = [0, 0]]. *)
Definition heap_labels : heap :=
  <[3%positive := Vec [0; 0]%float]>
    (<[2%positive := Vec [1; -1; 1]%float]>
       (<[1%positive := Mat (mk_ndarray2 3 2 2 1 [1; 0; 0; 1; 1; 1]%float)]> ∅)).

(** [X = [[2^600]]], [y = [0]], [w = [2^600]]: all entries are finite, and
    the product [X.dot(w)] overflows. *)
Definition heap_overflow : heap :=
  <[3%positive := Vec [0x1p600%float]]>
    (<[2%positive := Vec [0%float]]>
       (<[1%positive := Mat (mk_ndarray2 1 1 1 1 [0x1p600%float])]> ∅)).

(** [X = [[1]]], [y = [1]], [w = [-0.0]]. *)
Definition heap_neg_zero : heap :=
  <[3%positive := Vec [neg_zero]]>
    (<[2%positive := Vec [1%float]]>
       (<[1%positive := Mat (mk_ndarray2 1 1 1 1 [1%float])]> ∅)).

(** [X = [[2]]] and one array [[1]] that the call passes both as [y] and
    as [w]. *)
Definition heap_alias : heap :=
  <[2%positive := Vec [1%float]]>
    (<[1%positive := Mat (mk_ndarray2 1 1 1 1 [2%float])]> ∅).

(** [X] the 2 x 2 identity with [y = [1, 2]] and [w = [1, 2]]: the
    residual [X w - y] is zero. *)
Definition heap_solved : heap :=
  <[3%positive := Vec [1; 2]%float]>
    (<[2%positive := Vec [1; 2]%float]>
       (<[1%positive := Mat (mk_ndarray2 2 2 2 1 [1; 0; 0; 1]%float)]> ∅)).

(** [X = [[1000]]], [y = [1]], [w = [1]]: the margin [y * (X w)] is
    1000. *)
Definition heap_margin : heap :=
  <[3%positive := Vec [1%float]]>
    (<[2%positive := Vec [1%float]]>
       (<[1%positive := Mat (mk_ndarray2 1 1 1 1 [1000%float])]> ∅)).


(** The arrays of [heap_small] in a memory of three buffers, each array
    the window on the whole of its buffer. *)
Definition memory_small : memory :=
  <[3%positive := [0; 0]%float]>
    (<[2%positive := [1; 2; 3]%float]>
       (<[1%positive := [1; 0; 0; 1; 1; 1]%float]> ∅)).

Definition X_small : view2 := mk_view2 1 0 3 2 2 1.
Definition y_small : view1 := mk_view1 2 0 3 1.
Definition w_small : view1 := mk_view1 3 0 2 1.

(** [X = [[2]]] in one buffer, [y = [1]] in another, and [w = X[0]]: a
    second array on the buffer of [X]. *)
Definition memory_row : memory :=
  <[2%positive := [1%float]]> (<[1%positive := [2%float]]> ∅).

Definition X_row : view2 := mk_view2 1 0 1 1 1 1.
Definition y_row : view1 := mk_view1 2 0 1 1.
Definition w_row : view1 := mk_view1 1 0 1 1.

(** ** Sample library functions

    The development is parametric in [np.tanh], [np.exp],
    [np.linalg.norm] and the random generator.  To run the procedures on
    concrete inputs the parameters are instantiated with the functions
    below; they are not models of the NumPy functions, and no theorem
    depends on them. *)

Definition tanh_sample (x : float) : float := (x / (1 + abs x))%float.

(** The entries of the two products in index order. *)
Definition dot_mv_sample (A : ndarray2) (v : list float) (i : nat) : float :=
  fold_left (fun acc j => (acc + item A i j * nth j v 0)%float)
            (seq 0 (shape1 A)) 0%float.

Definition dot_vm_sample (u : list float) (A : ndarray2) (j : nat) : float :=
  fold_left (fun acc i => (acc + nth i u 0 * item A i j)%float)
            (seq 0 (shape0 A)) 0%float.

Definition exp_sample (x : float) : float := (1 + x + x * x / 2)%float.

Definition norm_sample (v : list float) : float :=
  PrimFloat.sqrt (fold_left (fun s x => (s + x * x)%float) v 0%float).

(** A linear congruential generator with 31 bits of state. *)
Definition lcg_next (g : Z) : Z := (1103515245 * g + 12345) mod 2147483648.

Fixpoint lcg_rand (d : nat) (g : Z) : list float * Z :=
  match d with
  | O => ([], g)
  | S d' =>
      let g1 := lcg_next g in
      let (v, g2) := lcg_rand d' g1 in
      ((float_of_int g1 / 2147483648)%float :: v, g2)
  end.

(** An exponential that underflows to zero below -745, as the float64
    exponential does. *)
Definition exp_underflow_sample (x : float) : float :=
  if (x <? -745)%float then 0%float else exp_sample x.

(** Integers below [high] from the same generator. *)
Fixpoint lcg_randint (high : Z) (k : nat) (g : Z) : list Z * Z :=
  match k with
  | O => ([], g)
  | S k' =>
      let g1 := lcg_next g in
      let (v, g2) := lcg_randint high k' g1 in
      ((g1 / 65536) mod high :: v, g2)
  end.

Section Numba.

(** ** Library functions taken as parameters *)

(** [np_tanh] is NumPy's [np.tanh], which [go_slow] calls, and [jit_tanh]
    what [np.tanh] is compiled to in [go_fast].  [np_exp] is what [np.exp]
    is compiled to in [logistic_regression], and [no_jit_exp] NumPy's
    [np.exp], which [logistic_regression_no_jit] calls. *)
Variable np_tanh : float -> float.
Variable jit_tanh : float -> float.
Variable np_exp : float -> float.
Variable no_jit_exp : float -> float.
Variable np_linalg_norm : list float -> float.

(** NumPy's own [dot], which [logistic_regression_no_jit] calls: the
    entry [i] of [np.dot(A, v)] and the entry [j] of [np.dot(u, A)], as
    its linear algebra library computes them. *)
Variable no_jit_dot_mv : ndarray2 -> list float -> nat -> float.
Variable no_jit_dot_vm : list float -> ndarray2 -> nat -> float.

(** The process-wide generator: [np_random_rand d g] is the array
    [np.random.rand(d)] drawn in state [g], with the state that follows. *)
Variable rng_state : Type.
Variable np_random_rand : nat -> rng_state -> list float * rng_state.

(** ** Example 2: [go_slow] and [go_fast] *)

(** The loop of [go_slow] over the remaining values of [i], with the
    current [trace]. *)
Fixpoint go_slow_loop (a : ndarray2) (idx : list Z) (trace : float) : result float :=
  match idx with
  | [] => Ok trace
  | i :: idx' =>
      let! x := getitem2 a i (i + 1) in
      go_slow_loop a idx' (trace + np_tanh x)%float
  end.

Definition go_slow (a : ndarray2) : result float :=
  go_slow_loop a (range (Z.of_nat (shape0 a) - 1)) 0%float.

(** The same loop in the decorated function: the subscript is not
    checked, and the tangent is the compiled one.  The function has no
    exception to raise; [None] is a read outside the buffer. *)
Fixpoint go_fast_loop (a : ndarray2) (idx : list Z) (trace : float) : option float :=
  match idx with
  | [] => Some trace
  | i :: idx' =>
      match unchecked_getitem2 a i (i + 1) with
      | Some x => go_fast_loop a idx' (trace + jit_tanh x)%float
      | None => None
      end
  end.

Definition go_fast (a : ndarray2) : option float :=
  go_fast_loop a (range (Z.of_nat (shape0 a) - 1)) 0%float.

(** The sum that the reduction is meant to return, accumulated from
    [0.0] in the order of the rows. *)
Definition tanh_terms (a : ndarray2) : list float :=
  map (fun i => np_tanh (item a i (S i))) (seq 0 (shape0 a - 1)).

Definition fsum (l : list float) : float :=
  fold_left (fun acc x => (acc + x)%float) l 0%float.

(** The positions of the buffer that [go_fast] reads, and the terms that
    it adds: as long as [i + 1] is a column of the array these are the
    entries [a[i, i+1]]. *)
Definition positions_read (a : ndarray2) : list nat :=
  map (fun i => i * stride0 a + S i * stride1 a)%nat (seq 0 (shape0 a - 1)).

Definition jit_tanh_terms (a : ndarray2) : list float :=
  map (fun i => jit_tanh (item a i (S i))) (seq 0 (shape0 a - 1)).

(** ** Example 1: [monte_carlo_pi] *)

(** The loop over the remaining samples, with the current [acc] and the
    state of the generator. *)
Fixpoint monte_carlo_loop (samples : list Z) (g : rng_state) (acc : Z)
  : Z * rng_state :=
  match samples with
  | [] => (acc, g)
  | _ :: samples' =>
      let (vec, g') := np_random_rand 2 g in
      monte_carlo_loop samples' g'
        (if (np_linalg_norm vec <? 1)%float then acc + 1 else acc)
  end.

Definition monte_carlo_pi (n_samples : Z) (g : rng_state)
  : result float * rng_state :=
  let (acc, g') := monte_carlo_loop (range n_samples) g 0 in
  (truediv (4 * float_of_int acc)%float (float_of_int n_samples), g').

(** The first [n] arrays that the generator hands out from state [g]. *)
Fixpoint draws (n : nat) (g : rng_state) : list (list float) :=
  match n with
  | O => []
  | S n' => let (vec, g') := np_random_rand 2 g in vec :: draws n' g'
  end.

(** The state of the generator after [n] draws. *)
Fixpoint after_draws (n : nat) (g : rng_state) : rng_state :=
  match n with
  | O => g
  | S n' => after_draws n' (snd (np_random_rand 2 g))
  end.

(** The number of points strictly inside the unit circle. *)
Definition inside_count (pts : list (list float)) : Z :=
  Z.of_nat (length (filter (fun vec => (np_linalg_norm vec <? 1)%float) pts)).

(** ** Example 3: [gradient] *)

(** The value that one execution of
    [w -= step_size * (X.T.dot(X.dot(w) - y))] writes into [w]. *)
Definition gradient_body (h : heap) (X y w : loc) (step_size : float)
  : result (list float) :=
  let! wv := load_vec h w in
  let! Xa := load_mat h X in
  let! Xw := np_dot Xa wv in
  let! yv := load_vec h y in
  let! r := broadcast2 PrimFloat.sub Xw yv in
  let! g := np_dot (T Xa) r in
  inplace2 PrimFloat.sub wv (map (PrimFloat.mul step_size) g).

Fixpoint gradient_loop (X y w : loc) (step_size : float) (ks : list Z) (h : heap)
  : result loc * heap :=
  match ks with
  | [] => (Ok w, h)
  | _ :: ks' =>
      match gradient_body h X y w step_size with
      | Ok wv' => gradient_loop X y w step_size ks' (<[w := Vec wv']> h)
      | Raise e => (Raise e, h)
      end
  end.

(** [gradient(X, y, w, step_size, max_iter)]: the arguments are the
    array objects; the result is the object returned and the store left
    behind. *)
Definition gradient (X y w : loc) (step_size : float) (max_iter : Z) (h : heap)
  : result loc * heap :=
  gradient_loop X y w step_size (range max_iter) h.

(** The gradient [X^T (X w - y)] of the least-squares objective at [w],
    on values of matching shapes. *)
Definition gradient_at (Xa : ndarray2) (yv wv : list float) : list float :=
  matvec (T Xa) (zip_with PrimFloat.sub (matvec Xa wv) yv).

(** The update [w - s * X^T (X w - y)]. *)
Definition gradient_formula (Xa : ndarray2) (yv : list float) (s : float)
  (wv : list float) : list float :=
  zip_with PrimFloat.sub wv (map (PrimFloat.mul s) (gradient_at Xa yv wv)).

(** The assignment [w <- w - s * X^T (X w - y)] on the store. *)
Definition gradient_assign (X y w : loc) (s : float) (h : heap) : heap :=
  match h !! X, h !! y, h !! w with
  | Some (Mat Xa), Some (Vec yv), Some (Vec wv) =>
      <[w := Vec (gradient_formula Xa yv s wv)]> h
  | _, _, _ => h
  end.

(** ** Example 4: [logistic_regression_no_jit] and [logistic_regression] *)

(** [np.dot] as the undecorated function calls it: the shape checks are
    those of [dot], the entries are NumPy's. *)
Definition matvec_no_jit (A : ndarray2) (v : list float) : list float :=
  map (no_jit_dot_mv A v) (seq 0 (shape0 A)).

Definition vecmat_no_jit (u : list float) (A : ndarray2) : list float :=
  map (no_jit_dot_vm u A) (seq 0 (shape1 A)).

Definition np_dot_no_jit (A : ndarray2) (v : list float) : result (list float) :=
  if (shape1 A =? length v)%nat then Ok (matvec_no_jit A v) else Raise ValueError.

Definition np_dot_vm_no_jit (u : list float) (A : ndarray2) : result (list float) :=
  if (length u =? shape0 A)%nat then Ok (vecmat_no_jit u A) else Raise ValueError.

(** The value that one execution of
    [w -= np.dot(((1.0 / (1.0 + np.exp(-y * np.dot(X, w))) - 1.0) * y), X)]
    writes into [w], with NumPy's [np.dot] and [np.exp]. *)
Definition logistic_body_no_jit (h : heap) (y X w : loc) : result (list float) :=
  let! wv := load_vec h w in
  let! yv := load_vec h y in
  let! Xa := load_mat h X in
  let! Xw := np_dot_no_jit Xa wv in
  let! m := broadcast2 PrimFloat.mul (map PrimFloat.opp yv) Xw in
  let s := map (fun t => (1 / (1 + no_jit_exp t) - 1)%float) m in
  let! u := broadcast2 PrimFloat.mul s yv in
  let! g := np_dot_vm_no_jit u Xa in
  inplace2 PrimFloat.sub wv g.

Fixpoint logistic_loop_no_jit (y X w : loc) (ks : list Z) (h : heap)
  : result loc * heap :=
  match ks with
  | [] => (Ok w, h)
  | _ :: ks' =>
      match logistic_body_no_jit h y X w with
      | Ok wv' => logistic_loop_no_jit y X w ks' (<[w := Vec wv']> h)
      | Raise e => (Raise e, h)
      end
  end.

Definition logistic_regression_no_jit (y X w : loc) (iterations : Z) (h : heap)
  : result loc * heap :=
  logistic_loop_no_jit y X w (range iterations) h.

(** The same statement in the decorated function, with the compiled
    [np.dot] and [np.exp]. *)
Definition logistic_body (h : heap) (y X w : loc) : result (list float) :=
  let! wv := load_vec h w in
  let! yv := load_vec h y in
  let! Xa := load_mat h X in
  let! Xw := np_dot Xa wv in
  let! m := broadcast2 PrimFloat.mul (map PrimFloat.opp yv) Xw in
  let s := map (fun t => (1 / (1 + np_exp t) - 1)%float) m in
  let! u := broadcast2 PrimFloat.mul s yv in
  let! g := np_dot_vm u Xa in
  inplace2 PrimFloat.sub wv g.

Fixpoint logistic_loop (y X w : loc) (ks : list Z) (h : heap)
  : result loc * heap :=
  match ks with
  | [] => (Ok w, h)
  | _ :: ks' =>
      match logistic_body h y X w with
      | Ok wv' => logistic_loop y X w ks' (<[w := Vec wv']> h)
      | Raise e => (Raise e, h)
      end
  end.

Definition logistic_regression (y X w : loc) (iterations : Z) (h : heap)
  : result loc * heap :=
  logistic_loop y X w (range iterations) h.

(** The update [w - (((1 / (1 + exp(-y * (X w)))) - 1) * y)^T X] on values
    of matching shapes ([*] between vectors is elementwise). *)
Definition logistic_formula (Xa : ndarray2) (yv wv : list float) : list float :=
  zip_with PrimFloat.sub wv
    (vecmat
       (zip_with PrimFloat.mul
          (map (fun t => (1 / (1 + np_exp t) - 1)%float)
             (zip_with PrimFloat.mul (map PrimFloat.opp yv) (matvec Xa wv)))
          yv)
       Xa).

Definition logistic_assign (y X w : loc) (h : heap) : heap :=
  match h !! X, h !! y, h !! w with
  | Some (Mat Xa), Some (Vec yv), Some (Vec wv) =>
      <[w := Vec (logistic_formula Xa yv wv)]> h
  | _, _, _ => h
  end.

(** The same update as the undecorated function computes it. *)
Definition logistic_formula_no_jit (Xa : ndarray2) (yv wv : list float)
  : list float :=
  zip_with PrimFloat.sub wv
    (vecmat_no_jit
       (zip_with PrimFloat.mul
          (map (fun t => (1 / (1 + no_jit_exp t) - 1)%float)
             (zip_with PrimFloat.mul (map PrimFloat.opp yv)
                (matvec_no_jit Xa wv)))
          yv)
       Xa).

Definition logistic_assign_no_jit (y X w : loc) (h : heap) : heap :=
  match h !! X, h !! y, h !! w with
  | Some (Mat Xa), Some (Vec yv), Some (Vec wv) =>
      <[w := Vec (logistic_formula_no_jit Xa yv wv)]> h
  | _, _, _ => h
  end.


(** ** Stores on which the solvers run without a shape error *)

(** [X] is an n x p matrix, [y] has length n and [w] has length p. *)
Definition shapes_fit (h : heap) (X y w : loc) : Prop :=
  exists Xa yv wv,
    h !! X = Some (Mat Xa) /\ h !! y = Some (Vec yv) /\ h !! w = Some (Vec wv) /\
    shape1 Xa = length wv /\ shape0 Xa = length yv.

(** ** The solvers on arrays that may share memory *)

(** The right-hand sides of the two in-place statements, on the values
    that the arrays show when the statement is executed. *)
Definition gradient_update (Xa : ndarray2) (yv wv : list float)
  (step_size : float) : result (list float) :=
  let! Xw := np_dot Xa wv in
  let! r := broadcast2 PrimFloat.sub Xw yv in
  let! g := np_dot (T Xa) r in
  inplace2 PrimFloat.sub wv (map (PrimFloat.mul step_size) g).

Definition logistic_update (Xa : ndarray2) (yv wv : list float)
  : result (list float) :=
  let! Xw := np_dot Xa wv in
  let! m := broadcast2 PrimFloat.mul (map PrimFloat.opp yv) Xw in
  let s := map (fun t => (1 / (1 + np_exp t) - 1)%float) m in
  let! u := broadcast2 PrimFloat.mul s yv in
  let! g := np_dot_vm u Xa in
  inplace2 PrimFloat.sub wv g.

(** The loop [for .. in range(..): w -= rhs] followed by [return w]:
    each round computes the right-hand side from what [X], [y] and [w]
    show, as a new array, and then writes it through [w] into the buffer
    of [w], where every window on that buffer sees it. *)
Fixpoint views_loop (rhs : ndarray2 -> list float -> list float -> result (list float))
  (X : view2) (y w : view1) (ks : list Z) (m : memory) : result view1 * memory :=
  match ks with
  | [] => (Ok w, m)
  | _ :: ks' =>
      match rhs (read2 m X) (read1 m y) (read1 m w) with
      | Ok wv' => views_loop rhs X y w ks' (write1 m w wv')
      | Raise e => (Raise e, m)
      end
  end.

Definition gradient_views (X : view2) (y w : view1) (step_size : float)
  (max_iter : Z) (m : memory) : result view1 * memory :=
  views_loop (fun Xa yv wv => gradient_update Xa yv wv step_size)
    X y w (range max_iter) m.

Definition logistic_regression_views (y : view1) (X : view2) (w : view1)
  (iterations : Z) (m : memory) : result view1 * memory :=
  views_loop logistic_update X y w (range iterations) m.

(** ** The arrays of the benchmark of example 2 *)

(** [np.arange(n_samples ** 2).reshape(n_samples, n_samples)]: the
    integers [0 .. n_samples^2 - 1], row after row. *)
Definition arange_square (n_samples : nat) : ndarray2 :=
  mk_ndarray2 n_samples n_samples n_samples 1
    (map (fun k => float_of_int (Z.of_nat k)) (seq 0 (n_samples * n_samples))).

(** One round of the benchmark loop: [go_fast(x)] twice, then
    [go_slow(x)], without the stopwatch. *)
Definition reduction_benchmark (n_samples : nat)
  : option float * option float * result float :=
  let x := arange_square n_samples in
  (go_fast x, go_fast x, go_slow x).

(** ** Shapes that the solvers accept *)

(** [X.dot(w)] needs as many columns as [w] has entries, and the vector
    of length n that it gives combines with a [y] of length n, or with a
    [y] of length 1, which NumPy broadcasts. *)
Definition shapes_run (Xa : ndarray2) (yv wv : list float) : bool :=
  (shape1 Xa =? length wv)%nat
  && ((shape0 Xa =? length yv)%nat || (length yv =? 1)%nat).

(** A store on which a solver runs: [X] is a matrix, [y] and [w] are
    vectors, and their shapes are accepted. *)
Definition runs (h : heap) (X y w : loc) : Prop :=
  exists Xa yv wv,
    h !! X = Some (Mat Xa) /\ h !! y = Some (Vec yv) /\ h !! w = Some (Vec wv) /\
    shapes_run Xa yv wv = true.

(** The entries of [X], in the sense of the shape, are finite. *)
Definition finite_entries (Xa : ndarray2) : Prop :=
  forall i j, (i < shape0 Xa)%nat -> (j < shape1 Xa)%nat ->
              is_finite (item Xa i j) = true.

(** ** The cells that prepare and run the solvers *)

(** [np_random_randn k g]: [k] draws of [np.random.randn], in the order
    in which they fill an array, with the state that follows. *)
Variable np_random_randn : nat -> rng_state -> list float * rng_state.

(** [np_random_randint high k g]: the [k] integers of
    [np.random.randint(high, size=k)]. *)
Variable np_random_randint : Z -> nat -> rng_state -> list Z * rng_state.

(** [v[start:] = c]: the entries from [start] on become [c].  As for any
    slice, a negative [start] counts from the end and a [start] beyond
    either end is clipped. *)
Definition setitem_from (v : list float) (start : Z) (c : float) : list float :=
  let n := Z.of_nat (length v) in
  let k := Z.to_nat (if start <? 0 then Z.max (start + n) 0 else Z.min start n) in
  firstn k v ++ repeat c (length v - k).

(** [np.zeros(n)] *)
Definition np_zeros (n : nat) : list float := repeat 0%float n.

(** The objects that the notebook binds to [X], [y] and [w] for the
    regression, and to [y] and [w] again for the classification. *)
Definition X_obj : loc := 1.
Definition y_obj : loc := 2.
Definition w_obj : loc := 3.
Definition labels_obj : loc := 4.
Definition w_logistic_obj : loc := 5.

(** The cell that draws [X] and [y], clears the second half of [y] and
    sets [w] to zeros. *)
Definition setup_regression (n_samples n_features : nat) (g : rng_state)
  : heap * rng_state :=
  let (Xd, g1) := np_random_randn (n_samples * n_features) g in
  let (yd, g2) := np_random_randn n_samples g1 in
  (<[w_obj := Vec (np_zeros n_features)]>
     (<[y_obj := Vec (setitem_from yd (Z.of_nat n_samples / 2) 0)]>
        (<[X_obj := Mat (mk_ndarray2 n_samples n_features n_features 1 Xd)]> ∅)),
   g2).

(** The default arguments of [gradient]: [step_size=0.01] (the float64
    nearest to 0.01) and [max_iter=1000]. *)
Definition default_step_size : float := 0x1.47ae147ae147bp-7%float.
Definition default_max_iter : Z := 1000.

(** The cell that calls [gradient(X, y, w)] twice, without the
    stopwatch. *)
Definition run_gradient (h : heap) : result loc * heap :=
  match gradient X_obj y_obj w_obj default_step_size default_max_iter h with
  | (Ok _, h1) =>
      gradient X_obj y_obj w_obj default_step_size default_max_iter h1
  | (Raise e, h1) => (Raise e, h1)
  end.

(** The cell that binds [y] to the labels
    [np.random.randint(2, size=n_samples) * 2 - 1] and [w] to a new array
    of zeros. *)
Definition setup_classification (n_samples n_features : nat) (h : heap)
  (g : rng_state) : heap * rng_state :=
  let (bits, g1) := np_random_randint 2 n_samples g in
  (<[w_logistic_obj := Vec (np_zeros n_features)]>
     (<[labels_obj := Vec (map (fun b => float_of_int (b * 2 - 1)) bits)]> h),
   g1).

(** The cells that call [logistic_regression_no_jit] once and
    [logistic_regression] twice on the same arrays. *)
Definition run_logistic (n_iterations : Z) (h : heap) : result loc * heap :=
  match logistic_regression_no_jit labels_obj X_obj w_logistic_obj n_iterations h with
  | (Ok _, h1) =>
      match logistic_regression labels_obj X_obj w_logistic_obj n_iterations h1 with
      | (Ok _, h2) =>
          logistic_regression labels_obj X_obj w_logistic_obj n_iterations h2
      | (Raise e, h2) => (Raise e, h2)
      end
  | (Raise e, h1) => (Raise e, h1)
  end.

(** * Properties *)

(** ** Binary digits and right shifts *)

Ltac hide_pow :=
  repeat match goal with
         | |- context [Z.pow ?a ?b] =>
             let x := fresh "pw" in set (x := Z.pow a b) in *; clearbody x
         | H : context [Z.pow ?a ?b] |- _ =>
             let x := fresh "pw" in set (x := Z.pow a b) in *; clearbody x
         end.

Lemma digits2_pos_bounds (p : positive) :
  2 ^ (Zpos (digits2_pos p) - 1) <= Zpos p < 2 ^ Zpos (digits2_pos p).
Proof.
  induction p as [p IH | p IH |]; cbn [digits2_pos].
  - rewrite Pos2Z.inj_succ.
    replace (Z.succ (Zpos (digits2_pos p)) - 1) with (Z.succ (Zpos (digits2_pos p) - 1)) by lia.
    rewrite !Z.pow_succ_r by lia. hide_pow. lia.
  - rewrite Pos2Z.inj_succ.
    replace (Z.succ (Zpos (digits2_pos p)) - 1) with (Z.succ (Zpos (digits2_pos p) - 1)) by lia.
    rewrite !Z.pow_succ_r by lia. hide_pow. lia.
  - cbn. lia.
Qed.

Lemma digits2_pos_unique (p : positive) (d : Z) :
  2 ^ (d - 1) <= Zpos p < 2 ^ d -> Zpos (digits2_pos p) = d.
Proof.
  intros [Hlo Hhi]. pose proof (digits2_pos_bounds p) as [Blo Bhi].
  set (d' := Zpos (digits2_pos p)) in *.
  assert (0 < d).
  { destruct (Z.le_gt_cases d 0) as [Hd|]; [|assumption].
    destruct (Z.eq_dec d 0) as [->|]. { cbn in Hhi. lia. }
    rewrite Z.pow_neg_r in Hhi by lia. lia. }
  destruct (Z.lt_trichotomy d' d) as [Hlt | [Heq | Hgt]]; [| assumption |].
  - assert (2 ^ d' <= 2 ^ (d - 1)) by (apply Z.pow_le_mono_r; lia). lia.
  - assert (2 ^ d <= 2 ^ (d' - 1)) by (apply Z.pow_le_mono_r; lia). lia.
Qed.

Lemma shr_1_nonneg (q : Z) (r s : bool) :
  0 <= q ->
  shr_1 {| shr_m := q; shr_r := r; shr_s := s |}
  = {| shr_m := q / 2; shr_r := Z.odd q; shr_s := r || s |}.
Proof.
  intros Hq. rewrite <- Z.div2_div.
  destruct q as [| [p | p |] |]; try reflexivity. lia.
Qed.

Lemma mod_pow2_succ (m k : Z) :
  0 <= k ->
  (m mod 2 ^ (k + 1) =? 0) = negb (Z.odd (m / 2 ^ k)) && (m mod 2 ^ k =? 0).
Proof.
  intros Hk. rewrite Z.pow_add_r, Z.pow_1_r by lia.
  rewrite Z.rem_mul_r by lia.
  assert (0 < 2 ^ k) by (apply Z.pow_pos_nonneg; lia).
  pose proof (Z.mod_pos_bound m (2 ^ k) ltac:(lia)).
  rewrite <- Z.negb_even. rewrite Bool.negb_involutive.
  rewrite Zeven_mod.
  pose proof (Z.mod_pos_bound (m / 2 ^ k) 2 ltac:(lia)).
  destruct (Z.eqb_spec (m mod 2 ^ k) 0), (Z.eqb_spec ((m / 2 ^ k) mod 2) 0);
    cbn; destruct (Z.eqb_spec (m mod 2 ^ k + 2 ^ k * ((m / 2 ^ k) mod 2)) 0); try reflexivity; nia.
Qed.

Lemma shr_1_at (l : location) (m k : Z) :
  0 <= m -> 0 <= k -> shr_1 (shr_at l m k) = shr_at l m (k + 1).
Proof.
  intros Hm Hk. unfold shr_at.
  destruct (Z.eqb_spec k 0) as [-> | Hk0].
  - cbn [Z.add Z.eqb Z.sub Z.pow]. change (2 ^ 1) with 2. change (1 - 1) with 0.
    rewrite Z.pow_0_r, Z.div_1_r, Z.mod_1_r. cbn [Z.eqb negb]. rewrite orb_false_r.
    destruct l as [| [ | | ]]; cbn [shr_record_of_loc]; rewrite shr_1_nonneg by assumption;
      reflexivity.
  - destruct (Z.eqb_spec (k + 1) 0) as [|_]; [lia|].
    assert (0 < 2 ^ k) by (apply Z.pow_pos_nonneg; lia).
    rewrite shr_1_nonneg by (apply Z.div_pos; lia).
    replace (k + 1 - 1) with k by lia.
    rewrite Z.div_div by lia.
    replace (2 ^ k * 2) with (2 ^ (k + 1)) by (rewrite Z.pow_add_r; lia).
    f_equal.
    replace k with ((k - 1) + 1) at 3 by lia.
    rewrite mod_pow2_succ by lia.
    destruct (Z.odd (m / 2 ^ (k - 1))), (inexact l), (m mod 2 ^ (k - 1) =? 0); reflexivity.
Qed.

Lemma iter_pos_shr_at (l : location) (m : Z) (p : positive) (k : Z) :
  0 <= m -> 0 <= k ->
  iter_pos shr_1 p (shr_at l m k) = shr_at l m (k + Zpos p).
Proof.
  intros Hm. revert k. induction p as [p IH | p IH |]; intros k Hk; cbn [iter_pos].
  - rewrite shr_1_at, !IH by lia. f_equal. lia.
  - rewrite !IH by lia. f_equal. lia.
  - now apply shr_1_at.
Qed.

Lemma shr_shr_at (l : location) (m e n : Z) :
  0 <= m ->
  shr (shr_record_of_loc m l) e n = (shr_at l m (Z.max n 0), e + Z.max n 0).
Proof.
  intros Hm. destruct n as [| p | p]; cbn [shr].
  - now rewrite Z.add_0_r.
  - replace (Z.max (Zpos p) 0) with (Zpos p) by lia.
    change (shr_record_of_loc m l) with (shr_at l m 0).
    now rewrite iter_pos_shr_at by lia.
  - replace (Z.max (Zneg p) 0) with 0 by lia. now rewrite Z.add_0_r.
Qed.

(** ** Rounding *)

Lemma rnd_range (l : location) (m k : Z) :
  m / 2 ^ k <= rnd l m k <= m / 2 ^ k + 1.
Proof.
  unfold rnd, shr_at. destruct (Z.eqb_spec k 0) as [-> | Hk].
  - rewrite Z.pow_0_r, Z.div_1_r.
    destruct l as [| [ | | ]]; cbn; try destruct (Z.even m); lia.
  - cbn [shr_m].
    destruct (Z.odd (m / 2 ^ (k - 1))), (inexact l || negb (m mod 2 ^ (k - 1) =? 0));
      cbn; try destruct (Z.even (m / 2 ^ k)); lia.
Qed.

(** Rounding goes up only when the first discarded bit is set. *)
Lemma rnd_up (l : location) (m k : Z) :
  1 <= k -> rnd l m k <> m / 2 ^ k -> Z.odd (m / 2 ^ (k - 1)) = true.
Proof.
  intros Hk. unfold rnd, shr_at. destruct (Z.eqb_spec k 0) as [-> | _]; [lia |].
  cbn [shr_m].
  destruct (Z.odd (m / 2 ^ (k - 1))); [reflexivity |].
  destruct (inexact l || negb (m mod 2 ^ (k - 1) =? 0)); cbn; congruence.
Qed.

Lemma rnd_up_0 (l : location) (m : Z) :
  rnd l m 0 <> m -> inexact l = true.
Proof.
  unfold rnd, shr_at. cbn [Z.eqb].
  destruct l as [| [ | | ]]; cbn; congruence.
Qed.

(** Nothing is lost when the discarded bits are all zero. *)
Lemma rnd_exact (m k : Z) :
  0 <= k -> m mod 2 ^ k = 0 -> rnd loc_Exact m k = m / 2 ^ k.
Proof.
  intros Hk Hm. unfold rnd, shr_at. destruct (Z.eqb_spec k 0) as [-> | Hk0].
  - cbn. now rewrite Z.div_1_r.
  - cbn [shr_m inexact orb].
    replace k with ((k - 1) + 1) in Hm by lia.
    apply Z.eqb_eq in Hm. rewrite mod_pow2_succ in Hm by lia.
    apply andb_prop in Hm as [Ho Hz]. apply negb_true_iff in Ho.
    rewrite Ho, Hz. reflexivity.
Qed.

Lemma pow2_pos (k : Z) : 0 <= k -> 0 < 2 ^ k.
Proof. intros. apply Z.pow_pos_nonneg; lia. Qed.

Lemma div_pow2_digits (p : positive) (k : Z) :
  0 <= k -> Zpos (digits2_pos p) = k + 53 ->
  2 ^ 52 <= Zpos p / 2 ^ k < 2 ^ 53.
Proof.
  intros Hk Hd. pose proof (digits2_pos_bounds p) as [Hlo Hhi].
  rewrite Hd in Hlo, Hhi. pose proof (pow2_pos k Hk).
  replace (k + 53 - 1) with (52 + k) in Hlo by lia.
  replace (k + 53) with (53 + k) in Hhi by lia.
  rewrite Z.pow_add_r in Hlo, Hhi by lia.
  split.
  - apply Z.div_le_lower_bound; lia.
  - apply Z.div_lt_upper_bound; lia.
Qed.

Lemma binary_round_aux_normal (sx : bool) (p : positive) (ex : Z) (lx : location) :
  53 <= Zpos (digits2_pos p) ->
  -1074 <= Zpos (digits2_pos p) + ex - 53 ->
  let k := Zpos (digits2_pos p) - 53 in
  let q := rnd lx (Zpos p) k in
  binary_round_aux prec emax sx (Zpos p) ex lx
  = if q <? 2 ^ 53
    then (if ex + k <=? 971 then S754_finite sx (Z.to_pos q) (ex + k)
          else S754_infinity sx)
    else (if ex + k + 1 <=? 971 then S754_finite sx (Z.to_pos (2 ^ 52)) (ex + k + 1)
          else S754_infinity sx).
Proof.
  intros Hd He k q.
  assert (Hk : 0 <= k) by (unfold k; lia).
  pose proof (div_pow2_digits p k Hk ltac:(unfold k; lia)) as Hq0.
  pose proof (rnd_range lx (Zpos p) k) as Hq. fold q in Hq.
  unfold binary_round_aux, shr_fexp. cbn [Zdigits2].
  replace (fexp prec emax (Zpos (digits2_pos p) + ex) - ex) with k
    by (unfold fexp, SpecFloat.emin, prec, emax, k; lia).
  rewrite shr_shr_at by lia.
  replace (Z.max k 0) with k by lia.
  fold (rnd lx (Zpos p) k). fold q.
  destruct (Z.ltb_spec q (2 ^ 53)) as [Hlt | Hge].
  - destruct q as [| qp | qp] eqn:Eq; try lia.
    cbn [Zdigits2]. rewrite (digits2_pos_unique qp 53) by (cbn [Z.sub]; lia).
    replace (fexp prec emax (53 + (ex + k)) - (ex + k)) with 0
      by (unfold fexp, SpecFloat.emin, prec, emax, k; lia).
    cbn [shr shr_record_of_loc shr_m Z.to_pos].
    reflexivity.
  - assert (Eq : q = 2 ^ 53) by lia. rewrite Eq.
    change (Zdigits2 (2 ^ 53)) with 54.
    replace (fexp prec emax (54 + (ex + k)) - (ex + k)) with 1
      by (unfold fexp, SpecFloat.emin, prec, emax, k; lia).
    cbn [shr iter_pos]. 
    change (shr_1 (shr_record_of_loc (2 ^ 53) loc_Exact))
      with {| shr_m := 2 ^ 52; shr_r := false; shr_s := false |}.
    cbn [shr_m]. reflexivity.
Qed.

(** ** Conversion of integers *)

Lemma Pos_iter_xO (p n : positive) :
  Zpos (Pos.iter xO p n) = Zpos p * 2 ^ Zpos n.
Proof.
  induction n as [| n IH] using Pos.peano_ind.
  - cbn [Pos.iter]. rewrite Z.pow_1_r. lia.
  - rewrite Pos.iter_succ, Pos2Z.inj_succ, Z.pow_succ_r by lia.
    rewrite Pos2Z.inj_xO, IH. lia.
Qed.

Lemma digits2_pos_mono (p1 p2 : positive) :
  Zpos p1 <= Zpos p2 -> Zpos (digits2_pos p1) <= Zpos (digits2_pos p2).
Proof.
  intros Hle.
  pose proof (digits2_pos_bounds p1) as [Hlo1 _].
  pose proof (digits2_pos_bounds p2) as [_ Hhi2].
  destruct (Z.le_gt_cases (Zpos (digits2_pos p1)) (Zpos (digits2_pos p2)));
    [assumption |].
  assert (2 ^ Zpos (digits2_pos p2) <= 2 ^ (Zpos (digits2_pos p1) - 1))
    by (apply Z.pow_le_mono_r; lia).
  lia.
Qed.

Lemma norm_pos_range (p : positive) :
  let d := Zpos (digits2_pos p) in
  2 ^ 52 <= fst (norm_pos p) < 2 ^ 53 /\
  d - 53 <= snd (norm_pos p) <= d - 52 /\
  (snd (norm_pos p) = d - 52 -> fst (norm_pos p) = 2 ^ 52).
Proof.
  intros d. unfold norm_pos. fold d.
  pose proof (digits2_pos_bounds p) as [Hlo Hhi]. fold d in Hlo, Hhi.
  destruct (Z.leb_spec d 53) as [Hd | Hd]; cbn [fst snd].
  - assert (H52 : 2 ^ 52 = 2 ^ (d - 1) * 2 ^ (53 - d))
      by (rewrite <- Z.pow_add_r by lia; f_equal; lia).
    assert (H53 : 2 ^ 53 = 2 ^ d * 2 ^ (53 - d))
      by (rewrite <- Z.pow_add_r by lia; f_equal; lia).
    pose proof (pow2_pos (53 - d) ltac:(lia)).
    rewrite H52, H53. repeat split; try lia; nia.
  - pose proof (div_pow2_digits p (d - 53) ltac:(lia) ltac:(fold d; lia)) as Hq.
    pose proof (rnd_range loc_Exact (Zpos p) (d - 53)) as Hr.
    destruct (Z.ltb_spec (rnd loc_Exact (Zpos p) (d - 53)) (2 ^ 53));
      cbn [fst snd]; repeat split; lia.
Qed.

Lemma binary_round_norm_pos (sx : bool) (p : positive) :
  Zpos (digits2_pos p) <= 1023 ->
  binary_round prec emax sx p 0
  = S754_finite sx (Z.to_pos (fst (norm_pos p))) (snd (norm_pos p)).
Proof.
  intros Hd. unfold binary_round, shl_align, norm_pos.
  set (d := Zpos (digits2_pos p)) in *.
  replace (fexp prec emax (d + 0) - 0) with (d - 53)
    by (unfold fexp, SpecFloat.emin, prec, emax; lia).
  replace (fexp prec emax (d + 0)) with (d - 53)
    by (unfold fexp, SpecFloat.emin, prec, emax; lia).
  destruct (Z.leb_spec d 53) as [Hle | Hgt]; cbn [fst snd].
  - destruct (d - 53) as [| n | n] eqn:En; try lia.
    + (* exactly 53 digits *)
      rewrite binary_round_aux_normal by (fold d; lia). fold d.
      rewrite En. replace (53 - d) with 0 by lia.
      rewrite Z.pow_0_r, Z.mul_1_r. unfold rnd. cbn [shr_at Z.eqb].
      cbn [shr_record_of_loc shr_m loc_of_shr_record round_nearest_even].
      rewrite Z.add_0_r.
      pose proof (digits2_pos_bounds p) as [_ Hhi]. fold d in Hhi.
      replace d with 53 in Hhi by lia.
      destruct (Z.ltb_spec (Zpos p) (2 ^ 53)); [reflexivity | lia].
    + (* fewer digits: the mantissa is shifted left *)
      assert (Hs : Zpos (Pos.iter xO p n) = Zpos p * 2 ^ (53 - d))
        by (rewrite Pos_iter_xO; do 2 f_equal; lia).
      assert (Hdig : Zpos (digits2_pos (Pos.iter xO p n)) = 53).
      { apply digits2_pos_unique. rewrite Hs.
        pose proof (digits2_pos_bounds p) as [Hlo Hhi]. fold d in Hlo, Hhi.
        assert (H52 : 2 ^ (53 - 1) = 2 ^ (d - 1) * 2 ^ (53 - d))
          by (rewrite <- Z.pow_add_r by lia; f_equal; lia).
        assert (H53 : 2 ^ 53 = 2 ^ d * 2 ^ (53 - d))
          by (rewrite <- Z.pow_add_r by lia; f_equal; lia).
        pose proof (pow2_pos (53 - d) ltac:(lia)).
        rewrite H52, H53. nia. }
      rewrite binary_round_aux_normal by (rewrite Hdig; lia).
      rewrite Hdig. change (53 - 53) with 0. unfold rnd. cbn [shr_at Z.eqb].
      cbn [shr_record_of_loc shr_m loc_of_shr_record round_nearest_even].
      pose proof (digits2_pos_bounds (Pos.iter xO p n)) as [_ Hhi].
      rewrite Hdig in Hhi.
      destruct (Z.ltb_spec (Zpos (Pos.iter xO p n)) (2 ^ 53)); [| lia].
      rewrite Z.add_0_r.
      destruct (Z.leb_spec (Zneg n) 971); [| lia].
      rewrite <- Hs. reflexivity.
  - destruct (d - 53) as [| n | n] eqn:En; try lia.
    rewrite binary_round_aux_normal by (fold d; lia). fold d. rewrite En.
    rewrite !Z.add_0_l.
    destruct (Z.ltb_spec (rnd loc_Exact (Zpos p) (Zpos n)) (2 ^ 53)); cbn [fst snd].
    + destruct (Z.leb_spec (Zpos n) 971); [reflexivity | lia].
    + replace (d - 52) with (Zpos n + 1) by lia.
      destruct (Z.leb_spec (Zpos n + 1) 971); [reflexivity | lia].
Qed.

Lemma rnd_mono (m1 m2 k : Z) :
  0 <= k -> 0 <= m1 <= m2 -> rnd loc_Exact m1 k <= rnd loc_Exact m2 k.
Proof.
  intros Hk Hm. unfold rnd, shr_at. destruct (Z.eqb_spec k 0) as [-> | Hk0].
  - cbn. lia.
  - cbn [shr_m inexact orb].
    pose proof (pow2_pos (k - 1) ltac:(lia)) as HH.
    assert (Hq : forall m, m / 2 ^ k = m / 2 ^ (k - 1) / 2).
    { intros m. rewrite Z.div_div by lia. f_equal.
      replace k with (Z.succ (k - 1)) at 1 by lia.
      rewrite Z.pow_succ_r by lia. lia. }
    rewrite !Hq.
    pose proof (Z.div_mod m1 (2 ^ (k - 1)) ltac:(lia)) as E1.
    pose proof (Z.div_mod m2 (2 ^ (k - 1)) ltac:(lia)) as E2.
    pose proof (Z.mod_pos_bound m1 (2 ^ (k - 1)) HH) as B1.
    pose proof (Z.mod_pos_bound m2 (2 ^ (k - 1)) HH) as B2.
    assert (Ha : m1 / 2 ^ (k - 1) <= m2 / 2 ^ (k - 1))
      by (apply Z.div_le_mono; lia).
    set (a1 := m1 / 2 ^ (k - 1)) in *. set (a2 := m2 / 2 ^ (k - 1)) in *.
    set (t1 := m1 mod 2 ^ (k - 1)) in *. set (t2 := m2 mod 2 ^ (k - 1)) in *.
    assert (Ht : a1 < a2 \/ (a1 = a2 /\ t1 <= t2)) by nia.
    pose proof (Z.div2_odd a1) as O1. pose proof (Z.div2_odd a2) as O2.
    rewrite Z.div2_div in O1, O2.
    destruct (Z.eq_dec (a1 / 2) (a2 / 2)) as [Heq | Hne].
    + rewrite <- Heq in *.
      destruct (Z.odd a1), (Z.odd a2); cbn [Z.b2z] in O1, O2;
        destruct (Z.eqb_spec t1 0), (Z.eqb_spec t2 0);
        cbn [negb loc_of_shr_record round_nearest_even];
        destruct (Z.even (a1 / 2)); lia.
    + assert (a1 / 2 < a2 / 2)
        by (pose proof (Z.div_le_mono a1 a2 2 ltac:(lia) Ha); lia).
      destruct (Z.odd a1), (Z.odd a2);
        destruct (negb (t1 =? 0)), (negb (t2 =? 0));
        cbn [loc_of_shr_record round_nearest_even];
        destruct (Z.even (a1 / 2)), (Z.even (a2 / 2)); lia.
Qed.

(** The nearest float grows with the integer: exponents first, then
    mantissas. *)
Lemma norm_pos_mono (p1 p2 : positive) :
  Zpos p1 <= Zpos p2 ->
  snd (norm_pos p1) < snd (norm_pos p2) \/
  (snd (norm_pos p1) = snd (norm_pos p2) /\ fst (norm_pos p1) <= fst (norm_pos p2)).
Proof.
  intros Hle. pose proof (digits2_pos_mono p1 p2 Hle) as Hd.
  pose proof (norm_pos_range p1) as R1. pose proof (norm_pos_range p2) as R2.
  cbv zeta in R1, R2.
  destruct (Z.eq_dec (Zpos (digits2_pos p1)) (Zpos (digits2_pos p2))) as [Heq | Hne];
    [| lia].
  clear R1. unfold norm_pos in *. rewrite Heq in *.
  set (d := Zpos (digits2_pos p2)) in *.
  destruct (Z.leb_spec d 53) as [Hs | Hl]; cbn [fst snd] in *.
  - right. split; [reflexivity |].
    pose proof (pow2_pos (53 - d) ltac:(lia)). nia.
  - pose proof (rnd_mono (Zpos p1) (Zpos p2) (d - 53) ltac:(lia) ltac:(lia)) as Hm.
    destruct (Z.ltb_spec (rnd loc_Exact (Zpos p1) (d - 53)) (2 ^ 53)),
             (Z.ltb_spec (rnd loc_Exact (Zpos p2) (d - 53)) (2 ^ 53));
      cbn [fst snd] in *; lia.
Qed.

(** ** Multiplication by four and the quotient of the estimator *)

Lemma SFmul_4 (s : bool) (M : positive) (E : Z) :
  2 ^ 52 <= Zpos M < 2 ^ 53 -> -1076 <= E <= 969 ->
  SF64mul (S754_finite false 4503599627370496 (-50)) (S754_finite s M E)
  = S754_finite s M (E + 2).
Proof.
  intros HM HE. unfold SF64mul, SFmul. cbn [xorb].
  assert (Hdig : Zpos (digits2_pos (4503599627370496 * M)) = 105).
  { apply digits2_pos_unique. rewrite Pos2Z.inj_mul.
    change (Zpos 4503599627370496) with (2 ^ 52).
    change (2 ^ (105 - 1)) with (2 ^ 52 * 2 ^ 52).
    change (2 ^ 105) with (2 ^ 52 * 2 ^ 53). lia. }
  rewrite binary_round_aux_normal by (rewrite Hdig; lia).
  rewrite Hdig. change (105 - 53) with 52.
  rewrite rnd_exact; [| lia |].
  - rewrite Pos2Z.inj_mul. change (Zpos 4503599627370496) with (2 ^ 52).
    rewrite (Z.mul_comm (2 ^ 52)), Z.div_mul by lia.
    destruct (Z.ltb_spec (Zpos M) (2 ^ 53)); [| lia].
    replace (-50 + E + 52) with (E + 2) by lia.
    destruct (Z.leb_spec (E + 2) 971); [reflexivity | lia].
  - rewrite Pos2Z.inj_mul. change (Zpos 4503599627370496) with (2 ^ 52).
    rewrite (Z.mul_comm (2 ^ 52)). apply Z.mod_mul. lia.
Qed.

Lemma new_location_0 (n : Z) : new_location n 0 = loc_Exact.
Proof.
  unfold new_location, new_location_even, new_location_odd.
  now destruct (Z.even n).
Qed.

(** The quotient of four times a float by a float that is at least as
    large does not exceed four. *)
Lemma SFdiv_le_4 (MA MN : positive) (EA EN : Z) :
  2 ^ 52 <= Zpos MA < 2 ^ 53 -> 2 ^ 52 <= Zpos MN < 2 ^ 53 ->
  EA < EN \/ (EA = EN /\ Zpos MA <= Zpos MN) ->
  -1000 <= EA - EN ->
  exists M E,
    SF64div (S754_finite false MA (EA + 2)) (S754_finite false MN EN)
    = S754_finite false M E /\
    (E < -50 \/ (E = -50 /\ M = 4503599627370496%positive)).
Proof.
  intros HA HN Hle Hrange.
  unfold SF64div, SFdiv, SFdiv_core_binary. cbn [xorb Zdigits2].
  rewrite (digits2_pos_unique MA 53), (digits2_pos_unique MN 53)
    by (change (53 - 1) with 52; lia).
  replace (Z.min (fexp prec emax (53 + (EA + 2) - (53 + EN))) (EA + 2 - EN))
    with (EA - EN - 51)
    by (unfold fexp, SpecFloat.emin, prec, emax; lia).
  replace (EA + 2 - EN - (EA - EN - 51)) with 53 by lia.
  rewrite Z.shiftl_mul_pow2 by lia.
  pose proof (Z_div_mod (Zpos MA * 2 ^ 53) (Zpos MN) ltac:(lia)) as Hdm.
  destruct (Z.div_eucl (Zpos MA * 2 ^ 53) (Zpos MN)) as [q0 r0].
  destruct Hdm as [Hdm Hr0].
  change (2 ^ 52) with 4503599627370496 in *.
  change (2 ^ 53) with 9007199254740992 in *.
  assert (Hq0 : 4503599627370496 <= q0 < 18014398509481984) by nia.
  destruct q0 as [| qp | qp]; try lia.
  assert (Hcase : Zpos (digits2_pos qp) = 53 \/ Zpos (digits2_pos qp) = 54).
  { destruct (Z.lt_ge_cases (Zpos qp) 9007199254740992).
    - left. apply digits2_pos_unique.
      change (2 ^ (53 - 1)) with 4503599627370496.
      change (2 ^ 53) with 9007199254740992. lia.
    - right. apply digits2_pos_unique.
      change (2 ^ (54 - 1)) with 9007199254740992.
      change (2 ^ 54) with 18014398509481984. lia. }
  set (l := new_location (Zpos MN) r0).
  destruct Hcase as [Hd | Hd].
  - rewrite binary_round_aux_normal by (rewrite Hd; lia).
    rewrite Hd. change (53 - 53) with 0. rewrite !Z.add_0_r.
    pose proof (rnd_range l (Zpos qp) 0) as Hr.
    rewrite Z.pow_0_r, Z.div_1_r in Hr.
    pose proof (digits2_pos_bounds qp) as [_ Hqhi]. rewrite Hd in Hqhi.
    change (2 ^ 53) with 9007199254740992 in *.
    destruct (Z.ltb_spec (rnd l (Zpos qp) 0) 9007199254740992).
    + destruct (Z.leb_spec (EA - EN - 51) 971); [| lia].
      eexists _, _. split; [reflexivity |]. left. lia.
    + destruct (Z.leb_spec (EA - EN - 51 + 1) 971); [| lia].
      eexists _, _. split; [reflexivity |].
      change (2 ^ 52) with 4503599627370496. cbn [Z.to_pos]. lia.
  - rewrite binary_round_aux_normal by (rewrite Hd; lia).
    rewrite Hd. change (54 - 53) with 1.
    pose proof (rnd_range l (Zpos qp) 1) as Hr.
    pose proof (rnd_up l (Zpos qp) 1 ltac:(lia)) as Hup.
    change (1 - 1) with 0 in Hup. rewrite Z.pow_0_r, Z.div_1_r in Hup.
    rewrite Z.pow_1_r in Hr, Hup.
    pose proof (digits2_pos_bounds qp) as [Hqlo _]. rewrite Hd in Hqlo.
    change (2 ^ (54 - 1)) with 9007199254740992 in Hqlo.
    change (2 ^ 53) with 9007199254740992 in *.
    change (2 ^ 52) with 4503599627370496 in *.
    assert (Hhalf : Zpos qp / 2 < 9007199254740992)
      by (apply Z.div_lt_upper_bound; lia).
    destruct (Z.ltb_spec (rnd l (Zpos qp) 1) 9007199254740992).
    + destruct (Z.leb_spec (EA - EN - 51 + 1) 971); [| lia].
      eexists _, _. split; [reflexivity |].
      destruct Hle as [Hlt | [Heq Hmle]]; [left; lia |].
      right. split; [lia |].
      assert (Hqp : Zpos qp = 9007199254740992) by nia.
      assert (Hrq : rnd l (Zpos qp) 1 = Zpos qp / 2).
      { destruct (Z.eq_dec (rnd l (Zpos qp) 1) (Zpos qp / 2)) as [|Hne];
          [assumption |].
        apply Hup in Hne. rewrite Hqp in Hne. discriminate. }
      rewrite Hrq, Hqp. reflexivity.
    + destruct (Z.leb_spec (EA - EN - 51 + 1 + 1) 971); [| lia].
      eexists _, _. split; [reflexivity |].
      cbn [Z.to_pos].
      destruct Hle as [Hlt | [Heq Hmle]]; [lia |].
      exfalso.
      assert (Hqp : Zpos qp = 9007199254740992) by nia.
      assert (Hrq : rnd l (Zpos qp) 1 = Zpos qp / 2).
      { destruct (Z.eq_dec (rnd l (Zpos qp) 1) (Zpos qp / 2)) as [|Hne];
          [assumption |].
        apply Hup in Hne. rewrite Hqp in Hne. discriminate. }
      lia.
Qed.

(** ** Primitive floats through their specification *)

Lemma Prim2SF_zero : Prim2SF 0%float = S754_zero false.
Proof. reflexivity. Qed.

Lemma Prim2SF_neg_zero : Prim2SF neg_zero = S754_zero true.
Proof. reflexivity. Qed.

Lemma Prim2SF_four : Prim2SF 4%float = S754_finite false 4503599627370496 (-50).
Proof. reflexivity. Qed.

(** Two floats that the bitwise comparison tells apart are different. *)
Lemma float_neq (x y : float) : PrimFloat.Leibniz.eqb x y = false -> x <> y.
Proof.
  intros H E. apply FloatAxioms.Leibniz.eqb_spec in E. congruence.
Qed.

Lemma SF_neg_zero (x : float) : Prim2SF x = S754_zero true -> x = neg_zero.
Proof. intros H. apply Prim2SF_inj. now rewrite H. Qed.

Lemma is_finite_SF (x : float) :
  is_finite x = true ->
  (exists s, Prim2SF x = S754_zero s) \/
  (exists s m e, Prim2SF x = S754_finite s m e).
Proof.
  unfold is_finite, is_nan, is_infinity.
  rewrite !FloatAxioms.eqb_spec, abs_spec.
  replace (Prim2SF infinity) with (S754_infinity false) by reflexivity.
  destruct (Prim2SF x) as [s | s | | s m e]; cbn; try discriminate; eauto.
  destruct s; discriminate.
Qed.

(** [0.0 + x] is [x], except that [0.0 + -0.0] is [0.0]. *)
Lemma float_add_zero_l (x : float) : x <> neg_zero -> (0 + x)%float = x.
Proof.
  intros Hx. apply Prim2SF_inj. rewrite FloatAxioms.add_spec, Prim2SF_zero.
  destruct (Prim2SF x) as [[|] | s | | s m e] eqn:E; try reflexivity.
  now apply SF_neg_zero in E.
Qed.

(** [w - 0.0 * g] is [w] when [g] is finite, except for [w = -0.0]. *)
Lemma float_sub_zero_mul (w g : float) :
  is_finite g = true -> w <> neg_zero -> (w - 0 * g)%float = w.
Proof.
  intros Hg Hw. apply Prim2SF_inj.
  rewrite FloatAxioms.sub_spec, FloatAxioms.mul_spec, Prim2SF_zero.
  assert (Hz : exists s, SF64mul (S754_zero false) (Prim2SF g) = S754_zero s).
  { destruct (is_finite_SF g Hg) as [[s ->] | (s & m & e & ->)]; cbn; eauto. }
  destruct Hz as [s ->].
  destruct (Prim2SF w) as [[|] | sw | | sw mw ew] eqn:E; try reflexivity.
  - now apply SF_neg_zero in E.
  - now destruct s.
Qed.

Lemma valid_normal (s : bool) (M : positive) (E : Z) :
  2 ^ 52 <= Zpos M < 2 ^ 53 -> -1074 <= E <= 971 ->
  valid_binary (S754_finite s M E) = true.
Proof.
  intros HM HE. cbn [SpecFloat.valid_binary]. unfold bounded, canonical_mantissa.
  rewrite (digits2_pos_unique M 53) by (change (53 - 1) with 52; lia).
  apply andb_true_intro. split.
  - apply Z.eqb_eq. unfold fexp, SpecFloat.emin, prec, emax. lia.
  - apply Z.leb_le. unfold prec, emax. lia.
Qed.

Lemma digits_int64 (p : positive) :
  Zpos p <= 2 ^ 63 -> Zpos (digits2_pos p) <= 64.
Proof.
  intros Hp.
  apply (digits2_pos_mono p 9223372036854775808).
  change (2 ^ 63) with 9223372036854775808 in Hp. exact Hp.
Qed.

(** The float of a nonzero machine integer: a normal number with the
    sign of the integer. *)
Lemma Prim2SF_float_of_int_pos (p : positive) :
  Zpos p <= 2 ^ 63 ->
  Prim2SF (float_of_int (Zpos p))
  = S754_finite false (Z.to_pos (fst (norm_pos p))) (snd (norm_pos p)).
Proof.
  intros Hp. pose proof (digits_int64 p Hp) as Hd.
  pose proof (norm_pos_range p) as (HM & HE & _). cbv zeta in HE.
  pose proof (digits2_pos_bounds p) as _.
  unfold float_of_int, binary_normalize.
  rewrite binary_round_norm_pos by lia.
  apply Prim2SF_SF2Prim, valid_normal.
  - rewrite Z2Pos.id; lia.
  - assert (0 < Zpos (digits2_pos p)) by lia. lia.
Qed.

Lemma Prim2SF_float_of_int_neg (p : positive) :
  Zpos p <= 2 ^ 63 ->
  Prim2SF (float_of_int (Zneg p))
  = S754_finite true (Z.to_pos (fst (norm_pos p))) (snd (norm_pos p)).
Proof.
  intros Hp. pose proof (digits_int64 p Hp) as Hd.
  pose proof (norm_pos_range p) as (HM & HE & _). cbv zeta in HE.
  unfold float_of_int, binary_normalize.
  rewrite binary_round_norm_pos by lia.
  apply Prim2SF_SF2Prim, valid_normal.
  - rewrite Z2Pos.id; lia.
  - assert (0 < Zpos (digits2_pos p)) by lia. lia.
Qed.

Lemma float_of_int_0 : float_of_int 0 = 0%float.
Proof. reflexivity. Qed.

Lemma float_of_int_nonzero (z : Z) :
  - 2 ^ 63 <= z < 2 ^ 63 -> z <> 0 -> (float_of_int z =? 0)%float = false.
Proof.
  intros Hz Hnz. rewrite FloatAxioms.eqb_spec, Prim2SF_zero.
  destruct z as [| p | p]; [congruence | |].
  - rewrite Prim2SF_float_of_int_pos by lia. reflexivity.
  - rewrite Prim2SF_float_of_int_neg by lia. reflexivity.
Qed.

(** Python's [4.0 * 0 / n] for a negative [n] is [-0.0]. *)
Lemma estimate_of_nothing_neg (n : Z) :
  - 2 ^ 63 <= n < 0 -> (4 * float_of_int 0 / float_of_int n)%float = neg_zero.
Proof.
  intros Hn. rewrite float_of_int_0.
  change (4 * 0)%float with 0%float.
  apply SF_neg_zero. rewrite FloatAxioms.div_spec, Prim2SF_zero.
  destruct n as [| p | p]; try lia.
  rewrite Prim2SF_float_of_int_neg by lia. reflexivity.
Qed.

(** The estimate [4.0 * c / n] of a count [0 <= c <= n] lies between
    zero and four. *)
Lemma estimate_bounds (c n : Z) :
  0 <= c <= n -> 1 <= n < 2 ^ 63 ->
  let r := (4 * float_of_int c / float_of_int n)%float in
  (0 <=? r)%float = true /\ (r <=? 4)%float = true.
Proof.
  intros Hc Hn r. unfold r. clear r.
  rewrite !FloatAxioms.leb_spec, FloatAxioms.div_spec, FloatAxioms.mul_spec.
  rewrite Prim2SF_zero, Prim2SF_four.
  destruct n as [| pn | pn]; try lia.
  rewrite Prim2SF_float_of_int_pos by lia.
  pose proof (norm_pos_range pn) as (HMn & HEn & _). cbv zeta in HEn.
  pose proof (digits_int64 pn ltac:(lia)) as Hdn.
  destruct c as [| pc | pc]; try lia.
  - rewrite float_of_int_0, Prim2SF_zero. split; reflexivity.
  - rewrite Prim2SF_float_of_int_pos by lia.
    pose proof (norm_pos_range pc) as (HMc & HEc & _). cbv zeta in HEc.
    pose proof (digits_int64 pc ltac:(lia)) as Hdc.
    pose proof (norm_pos_mono pc pn ltac:(lia)) as Hmono.
    assert (0 < Zpos (digits2_pos pc)) by lia.
    assert (0 < Zpos (digits2_pos pn)) by lia.
    rewrite SFmul_4 by (try rewrite Z2Pos.id; lia).
    destruct (SFdiv_le_4 (Z.to_pos (fst (norm_pos pc))) (Z.to_pos (fst (norm_pos pn)))
                (snd (norm_pos pc)) (snd (norm_pos pn)))
      as (M & E & -> & HME); try (rewrite !Z2Pos.id by lia); try lia.
    split; [reflexivity |].
    unfold SFleb, SFcompare.
    destruct HME as [Hlt | [-> ->]].
    + now rewrite (proj2 (Z.compare_lt_iff E (-50)) Hlt).
    + reflexivity.
Qed.


(** ** Subscripts *)

Lemma wrap_index_in (i n : nat) :
  (i < n)%nat -> wrap_index (Z.of_nat i) n = Ok i.
Proof.
  intros Hi. unfold wrap_index.
  destruct (Z.ltb_spec (Z.of_nat i) 0) as [Hneg | _]; [lia |].
  destruct (Z.leb_spec 0 (Z.of_nat i)) as [_ | Hneg]; [| lia].
  destruct (Z.ltb_spec (Z.of_nat i) (Z.of_nat n)) as [_ | Hge]; [| lia].
  simpl. now rewrite Nat2Z.id.
Qed.

Lemma wrap_index_out (i n : nat) :
  (n <= i)%nat -> wrap_index (Z.of_nat i) n = Raise IndexError.
Proof.
  intros Hi. unfold wrap_index.
  destruct (Z.ltb_spec (Z.of_nat i) 0) as [Hneg | _]; [lia |].
  destruct (Z.ltb_spec (Z.of_nat i) (Z.of_nat n)) as [Hlt | _]; [lia |].
  now rewrite andb_false_r.
Qed.

Lemma wrap_index_exn (i : Z) (n : nat) (e : exn) :
  wrap_index i n = Raise e -> e = IndexError.
Proof.
  unfold wrap_index. destruct (_ && _); congruence.
Qed.

Lemma wrap_index_ok (i : Z) (n : nat) :
  (exists k, wrap_index i n = Ok k)
  <-> (- Z.of_nat n <=? i) && (i <? Z.of_nat n) = true.
Proof.
  unfold wrap_index. rewrite andb_true_iff, Z.leb_le, Z.ltb_lt.
  destruct (Z.ltb_spec i 0) as [Hneg | Hpos].
  - destruct (Z.leb_spec 0 (i + Z.of_nat n)) as [H0 | H0];
      destruct (Z.ltb_spec (i + Z.of_nat n) (Z.of_nat n)) as [Hn | Hn];
      cbn [andb]; split; intros H;
      try (destruct H as [k Hk]; discriminate); try lia; eauto.
  - destruct (Z.leb_spec 0 i) as [H0 | H0];
      destruct (Z.ltb_spec i (Z.of_nat n)) as [Hn | Hn];
      cbn [andb]; split; intros H;
      try (destruct H as [k Hk]; discriminate); try lia; eauto.
Qed.

(** [a[i, j]] yields an element exactly when [(i, j)] is within the shape
    of [a]; otherwise it raises [IndexError]. *)
Lemma getitem2_in_bounds (a : ndarray2) (i j : Z) :
  (exists x, getitem2 a i j = Ok x) <-> in_bounds a i j = true.
Proof.
  unfold getitem2, in_bounds. rewrite <- andb_assoc, andb_true_iff.
  rewrite <- !wrap_index_ok.
  destruct (wrap_index i (shape0 a)) as [i' | e]; cbn [bind];
    destruct (wrap_index j (shape1 a)) as [j' | e']; cbn [bind];
    split; try (intros [x Hx]; discriminate);
    try (intros [[k Hk] [k' Hk']]; discriminate); eauto.
Qed.

Lemma getitem2_in (a : ndarray2) (i : nat) :
  (i < shape0 a)%nat -> (S i < shape1 a)%nat ->
  getitem2 a (Z.of_nat i) (Z.of_nat i + 1) = Ok (item a i (S i)).
Proof.
  intros Hi Hj. unfold getitem2.
  replace (Z.of_nat i + 1) with (Z.of_nat (S i)) by lia.
  now rewrite !wrap_index_in.
Qed.

Lemma getitem2_out (a : ndarray2) (i : nat) :
  (shape1 a <= S i)%nat ->
  getitem2 a (Z.of_nat i) (Z.of_nat i + 1) = Raise IndexError.
Proof.
  intros Hj. unfold getitem2.
  replace (Z.of_nat i + 1) with (Z.of_nat (S i)) by lia.
  rewrite (wrap_index_out (S i)) by assumption.
  destruct (wrap_index (Z.of_nat i) (shape0 a)) as [i' | e] eqn:Hi;
    [reflexivity |].
  apply wrap_index_exn in Hi. now subst e.
Qed.

Lemma range_seq (n : nat) : range (Z.of_nat n) = map Z.of_nat (seq 0 n).
Proof. unfold range. now rewrite Nat2Z.id. Qed.

Lemma range_rows (a : ndarray2) :
  range (Z.of_nat (shape0 a) - 1) = map Z.of_nat (seq 0 (shape0 a - 1)).
Proof.
  unfold range. f_equal. f_equal. lia.
Qed.

Lemma range_nonpos (n : Z) : n <= 0 -> range n = [].
Proof.
  intros Hn. unfold range. now replace (Z.to_nat n) with 0%nat by lia.
Qed.

Lemma length_range (n : Z) : length (range n) = Z.to_nat n.
Proof. unfold range. now rewrite length_map, length_seq. Qed.

(** ** The reduction of example 2 *)

(** While the subscripts stay inside the array the loop adds one
    hyperbolic tangent per row. *)
Lemma go_slow_loop_in (a : ndarray2) (len s : nat) (t : float) :
  (s + len <= shape0 a)%nat -> (s + len < shape1 a \/ len = 0)%nat ->
  go_slow_loop a (map Z.of_nat (seq s len)) t
  = Ok (fold_left (fun acc x => (acc + x)%float)
          (map (fun i => np_tanh (item a i (S i))) (seq s len)) t).
Proof.
  revert s t. induction len as [| len IH]; intros s t Hr Hc; [reflexivity |].
  cbn [seq map go_slow_loop fold_left].
  rewrite getitem2_in by lia. cbn [bind].
  apply IH; lia.
Qed.

(** A loop that has to go past the last column stops with [IndexError]. *)
Lemma go_slow_loop_out (a : ndarray2) (len s : nat) (t : float) :
  (0 < len)%nat -> (shape1 a <= s + len)%nat -> (s + len <= shape0 a)%nat ->
  go_slow_loop a (map Z.of_nat (seq s len)) t = Raise IndexError.
Proof.
  revert s t. induction len as [| len IH]; intros s t Hlen Hc Hr; [lia |].
  cbn [seq map go_slow_loop].
  destruct (Nat.le_gt_cases (shape1 a) (S s)) as [Hout | Hin].
  - rewrite getitem2_out by assumption. reflexivity.
  - rewrite getitem2_in by lia. cbn [bind]. apply IH; lia.
Qed.

(** The compiled subscript of the row [i] reads the position
    [i * stride0 + (i + 1) * stride1] of the buffer. *)
Lemma unchecked_getitem2_nat (a : ndarray2) (i : nat) :
  unchecked_getitem2 a (Z.of_nat i) (Z.of_nat i + 1)
  = data a !! (i * stride0 a + S i * stride1 a)%nat.
Proof.
  unfold unchecked_getitem2.
  destruct (Z.ltb_spec (Z.of_nat i) 0) as [H | _]; [lia |].
  destruct (Z.ltb_spec (Z.of_nat i + 1) 0) as [H | _]; [lia |].
  replace (Z.of_nat i + 1) with (Z.of_nat (S i)) by lia.
  rewrite <- !Nat2Z.inj_mul, <- Nat2Z.inj_add.
  destruct (Z.ltb_spec (Z.of_nat (i * stride0 a + S i * stride1 a)) 0)
    as [H | _]; [lia |].
  now rewrite Nat2Z.id.
Qed.

(** While the positions stay inside the buffer the compiled loop adds one
    hyperbolic tangent per row, with or without a column [i + 1]. *)
Lemma go_fast_loop_in (a : ndarray2) (rs : list nat) (t : float) :
  Forall (fun i => (i * stride0 a + S i * stride1 a < length (data a))%nat) rs ->
  go_fast_loop a (map Z.of_nat rs) t
  = Some (fold_left (fun acc x => (acc + x)%float)
            (map (fun i => jit_tanh (item a i (S i))) rs) t).
Proof.
  intros H. revert t. induction H as [| i rs Hi _ IH]; intros t; [reflexivity |].
  cbn [map go_fast_loop fold_left]. rewrite unchecked_getitem2_nat.
  destruct (lookup_lt_is_Some_2 _ _ Hi) as [x Hx]. rewrite Hx.
  replace (item a i (S i)) with x
    by (unfold item; now rewrite nth_lookup, Hx).
  apply IH.
Qed.

Lemma go_fast_loop_out (a : ndarray2) (rs : list nat) (t : float) :
  Exists (fun i => (length (data a) <= i * stride0 a + S i * stride1 a)%nat) rs ->
  go_fast_loop a (map Z.of_nat rs) t = None.
Proof.
  revert t. induction rs as [| i rs IH]; intros t H; [inversion H |].
  cbn [map go_fast_loop]. rewrite unchecked_getitem2_nat.
  destruct (data a !! (i * stride0 a + S i * stride1 a)%nat) as [x |] eqn:Hx;
    [| reflexivity].
  apply IH. inversion H as [? ? Hi | ? ? Hrs]; subst; [| exact Hrs].
  apply lookup_lt_Some in Hx. lia.
Qed.

Lemma go_fast_in_buffer (a : ndarray2) :
  Forall (fun c => (c < length (data a))%nat) (positions_read a) ->
  go_fast a = Some (fsum (jit_tanh_terms a)).
Proof.
  intros H. unfold go_fast, fsum, jit_tanh_terms. rewrite range_rows.
  apply go_fast_loop_in. unfold positions_read in H.
  now rewrite Forall_map in H.
Qed.

Lemma go_fast_outside (a : ndarray2) :
  Exists (fun c => (length (data a) <= c)%nat) (positions_read a) ->
  go_fast a = None.
Proof.
  intros H. unfold go_fast. rewrite range_rows.
  apply go_fast_loop_out. unfold positions_read in H.
  now rewrite Exists_map in H.
Qed.

Lemma positions_read_covered (a : ndarray2) :
  (shape0 a <= shape1 a)%nat -> covers a ->
  Forall (fun c => (c < length (data a))%nat) (positions_read a).
Proof.
  intros Hc Hcov. unfold positions_read. rewrite Forall_map.
  apply Forall_forall. intros i Hi. apply in_seq in Hi.
  apply Hcov; lia.
Qed.

Lemma go_fast_wide (a : ndarray2) :
  (shape0 a <= shape1 a)%nat -> covers a ->
  go_fast a = Some (fsum (jit_tanh_terms a)).
Proof.
  intros Hc Hcov. now apply go_fast_in_buffer, positions_read_covered.
Qed.

Lemma go_fast_few_rows (a : ndarray2) :
  (shape0 a < 2)%nat -> go_fast a = Some 0%float.
Proof.
  intros Hr. unfold go_fast. now rewrite range_nonpos by lia.
Qed.

Lemma go_slow_wide (a : ndarray2) :
  (shape0 a <= shape1 a)%nat -> go_slow a = Ok (fsum (tanh_terms a)).
Proof.
  intros Hc. unfold go_slow, fsum, tanh_terms. rewrite range_rows.
  apply go_slow_loop_in; lia.
Qed.

Lemma go_slow_tall (a : ndarray2) :
  (2 <= shape0 a)%nat -> (shape1 a < shape0 a)%nat ->
  go_slow a = Raise IndexError.
Proof.
  intros Hr Hc. unfold go_slow. rewrite range_rows.
  apply go_slow_loop_out; lia.
Qed.

Lemma go_slow_few_rows (a : ndarray2) :
  (shape0 a < 2)%nat -> go_slow a = Ok 0%float.
Proof.
  intros Hr. unfold go_slow. now rewrite range_nonpos by lia.
Qed.

(** ** Shapes of the array operations *)

Lemma length_matvec (A : ndarray2) (v : list float) :
  length (matvec A v) = shape0 A.
Proof. unfold matvec. now rewrite length_map, length_seq. Qed.

Lemma length_matvec_no_jit (A : ndarray2) (v : list float) :
  length (matvec_no_jit A v) = shape0 A.
Proof. unfold matvec_no_jit. now rewrite length_map, length_seq. Qed.

Lemma length_vecmat (u : list float) (A : ndarray2) :
  length (vecmat u A) = shape1 A.
Proof. unfold vecmat. now rewrite length_map, length_seq. Qed.

Lemma length_vecmat_no_jit (u : list float) (A : ndarray2) :
  length (vecmat_no_jit u A) = shape1 A.
Proof. unfold vecmat_no_jit. now rewrite length_map, length_seq. Qed.

Lemma np_dot_fits (A : ndarray2) (v : list float) :
  shape1 A = length v -> np_dot A v = Ok (matvec A v).
Proof. intros H. unfold np_dot. now rewrite H, Nat.eqb_refl. Qed.

Lemma np_dot_fits_no_jit (A : ndarray2) (v : list float) :
  shape1 A = length v -> np_dot_no_jit A v = Ok (matvec_no_jit A v).
Proof. intros H. unfold np_dot_no_jit. now rewrite H, Nat.eqb_refl. Qed.

Lemma np_dot_vm_fits (u : list float) (A : ndarray2) :
  length u = shape0 A -> np_dot_vm u A = Ok (vecmat u A).
Proof. intros H. unfold np_dot_vm. now rewrite H, Nat.eqb_refl. Qed.

Lemma np_dot_vm_fits_no_jit (u : list float) (A : ndarray2) :
  length u = shape0 A -> np_dot_vm_no_jit u A = Ok (vecmat_no_jit u A).
Proof. intros H. unfold np_dot_vm_no_jit. now rewrite H, Nat.eqb_refl. Qed.

Lemma broadcast2_fits (f : float -> float -> float) (u v : list float) :
  length u = length v -> broadcast2 f u v = Ok (zip_with f u v).
Proof. intros H. unfold broadcast2. now rewrite H, Nat.eqb_refl. Qed.

Lemma inplace2_fits (f : float -> float -> float) (w g : list float) :
  length g = length w -> inplace2 f w g = Ok (zip_with f w g).
Proof. intros H. unfold inplace2. now rewrite H, Nat.eqb_refl. Qed.

Lemma length_gradient_formula (Xa : ndarray2) (yv wv : list float) (s : float) :
  shape1 Xa = length wv ->
  length (gradient_formula Xa yv s wv) = length wv.
Proof.
  intros Hw. unfold gradient_formula, gradient_at.
  rewrite length_zip_with_l_eq; [reflexivity |].
  now rewrite length_map, length_matvec.
Qed.

Lemma length_logistic_formula (Xa : ndarray2) (yv wv : list float) :
  shape1 Xa = length wv ->
  length (logistic_formula Xa yv wv) = length wv.
Proof.
  intros Hw. unfold logistic_formula.
  rewrite length_zip_with_l_eq; [reflexivity |].
  now rewrite length_vecmat.
Qed.

Lemma length_logistic_formula_no_jit (Xa : ndarray2) (yv wv : list float) :
  shape1 Xa = length wv ->
  length (logistic_formula_no_jit Xa yv wv) = length wv.
Proof.
  intros Hw. unfold logistic_formula_no_jit.
  rewrite length_zip_with_l_eq; [reflexivity |].
  now rewrite length_vecmat_no_jit.
Qed.

(** ** The solvers on a store whose arrays have matching shapes *)

Lemma gradient_body_fits (h : heap) (X y w : loc) (s : float)
  (Xa : ndarray2) (yv wv : list float) :
  h !! X = Some (Mat Xa) -> h !! y = Some (Vec yv) -> h !! w = Some (Vec wv) ->
  shape1 Xa = length wv -> shape0 Xa = length yv ->
  gradient_body h X y w s = Ok (gradient_formula Xa yv s wv).
Proof.
  intros HX Hy Hw Hp Hn. unfold gradient_body, load_vec, load_mat.
  rewrite Hw, HX, Hy. cbn [bind].
  rewrite np_dot_fits by assumption. cbn [bind].
  rewrite broadcast2_fits by (now rewrite length_matvec). cbn [bind].
  rewrite np_dot_fits
    by (cbn [T shape1]; rewrite length_zip_with_l_eq;
        rewrite length_matvec; congruence).
  cbn [bind].
  rewrite inplace2_fits; [reflexivity |].
  rewrite length_map, length_matvec. cbn [T shape0]. assumption.
Qed.

Lemma logistic_body_fits (h : heap) (y X w : loc)
  (Xa : ndarray2) (yv wv : list float) :
  h !! X = Some (Mat Xa) -> h !! y = Some (Vec yv) -> h !! w = Some (Vec wv) ->
  shape1 Xa = length wv -> shape0 Xa = length yv ->
  logistic_body h y X w = Ok (logistic_formula Xa yv wv).
Proof.
  intros HX Hy Hw Hp Hn. unfold logistic_body, load_vec, load_mat.
  rewrite Hw, HX, Hy. cbn [bind].
  rewrite np_dot_fits by assumption. cbn [bind].
  rewrite broadcast2_fits by (rewrite length_map, length_matvec; congruence).
  cbn [bind].
  assert (Hm : length (zip_with PrimFloat.mul (map PrimFloat.opp yv) (matvec Xa wv))
               = length yv).
  { rewrite length_zip_with_l_eq; rewrite length_map;
      [reflexivity | rewrite length_matvec; congruence]. }
  rewrite broadcast2_fits by (rewrite length_map; exact Hm). cbn [bind].
  rewrite np_dot_vm_fits
    by (rewrite length_zip_with_l_eq; rewrite length_map, Hm; congruence).
  cbn [bind].
  rewrite inplace2_fits; [reflexivity |].
  now rewrite length_vecmat.
Qed.

Lemma logistic_body_fits_no_jit (h : heap) (y X w : loc)
  (Xa : ndarray2) (yv wv : list float) :
  h !! X = Some (Mat Xa) -> h !! y = Some (Vec yv) -> h !! w = Some (Vec wv) ->
  shape1 Xa = length wv -> shape0 Xa = length yv ->
  logistic_body_no_jit h y X w = Ok (logistic_formula_no_jit Xa yv wv).
Proof.
  intros HX Hy Hw Hp Hn. unfold logistic_body_no_jit, load_vec, load_mat.
  rewrite Hw, HX, Hy. cbn [bind].
  rewrite np_dot_fits_no_jit by assumption. cbn [bind].
  rewrite broadcast2_fits by (rewrite length_map, length_matvec_no_jit; congruence).
  cbn [bind].
  assert (Hm : length (zip_with PrimFloat.mul (map PrimFloat.opp yv) (matvec_no_jit Xa wv))
               = length yv).
  { rewrite length_zip_with_l_eq; rewrite length_map;
      [reflexivity | rewrite length_matvec_no_jit; congruence]. }
  rewrite broadcast2_fits by (rewrite length_map; exact Hm). cbn [bind].
  rewrite np_dot_vm_fits_no_jit
    by (rewrite length_zip_with_l_eq; rewrite length_map, Hm; congruence).
  cbn [bind].
  rewrite inplace2_fits; [reflexivity |].
  now rewrite length_vecmat_no_jit.
Qed.

Lemma gradient_assign_fits (h : heap) (X y w : loc) (s : float) :
  shapes_fit h X y w -> shapes_fit (gradient_assign X y w s h) X y w.
Proof.
  intros (Xa & yv & wv & HX & Hy & Hw & Hp & Hn).
  unfold gradient_assign. rewrite HX, Hy, Hw.
  assert (HXw : w <> X) by congruence.
  destruct (decide (y = w)) as [-> | Hyw].
  - assert (yv = wv) by congruence. subst yv.
    exists Xa, (gradient_formula Xa wv s wv), (gradient_formula Xa wv s wv).
    rewrite lookup_insert_ne by assumption. rewrite lookup_insert_eq.
    rewrite length_gradient_formula by assumption. auto.
  - exists Xa, yv, (gradient_formula Xa yv s wv).
    rewrite !lookup_insert_ne by congruence. rewrite lookup_insert_eq.
    rewrite length_gradient_formula by assumption. auto.
Qed.

Lemma logistic_assign_fits (h : heap) (y X w : loc) :
  shapes_fit h X y w -> shapes_fit (logistic_assign y X w h) X y w.
Proof.
  intros (Xa & yv & wv & HX & Hy & Hw & Hp & Hn).
  unfold logistic_assign. rewrite HX, Hy, Hw.
  assert (HXw : w <> X) by congruence.
  destruct (decide (y = w)) as [-> | Hyw].
  - assert (yv = wv) by congruence. subst yv.
    exists Xa, (logistic_formula Xa wv wv), (logistic_formula Xa wv wv).
    rewrite lookup_insert_ne by assumption. rewrite lookup_insert_eq.
    rewrite length_logistic_formula by assumption. auto.
  - exists Xa, yv, (logistic_formula Xa yv wv).
    rewrite !lookup_insert_ne by congruence. rewrite lookup_insert_eq.
    rewrite length_logistic_formula by assumption. auto.
Qed.

Lemma logistic_assign_fits_no_jit (h : heap) (y X w : loc) :
  shapes_fit h X y w -> shapes_fit (logistic_assign_no_jit y X w h) X y w.
Proof.
  intros (Xa & yv & wv & HX & Hy & Hw & Hp & Hn).
  unfold logistic_assign_no_jit. rewrite HX, Hy, Hw.
  assert (HXw : w <> X) by congruence.
  destruct (decide (y = w)) as [-> | Hyw].
  - assert (yv = wv) by congruence. subst yv.
    exists Xa, (logistic_formula_no_jit Xa wv wv), (logistic_formula_no_jit Xa wv wv).
    rewrite lookup_insert_ne by assumption. rewrite lookup_insert_eq.
    rewrite length_logistic_formula_no_jit by assumption. auto.
  - exists Xa, yv, (logistic_formula_no_jit Xa yv wv).
    rewrite !lookup_insert_ne by congruence. rewrite lookup_insert_eq.
    rewrite length_logistic_formula_no_jit by assumption. auto.
Qed.

(** The loop executes the assignment once for every element of its range
    and never leaves early. *)
Lemma gradient_loop_fits (X y w : loc) (s : float) (ks : list Z) (h : heap) :
  shapes_fit h X y w ->
  gradient_loop X y w s ks h
  = (Ok w, Nat.iter (length ks) (gradient_assign X y w s) h).
Proof.
  revert h. induction ks as [| k ks IH]; intros h Hfit; [reflexivity |].
  cbn [gradient_loop length]. rewrite Nat.iter_succ_r.
  pose proof (gradient_assign_fits h X y w s Hfit) as Hfit'.
  destruct Hfit as (Xa & yv & wv & HX & Hy & Hw & Hp & Hn).
  rewrite (gradient_body_fits h X y w s Xa yv wv) by assumption.
  rewrite IH.
  - unfold gradient_assign at 3. now rewrite HX, Hy, Hw.
  - unfold gradient_assign in Hfit'. now rewrite HX, Hy, Hw in Hfit'.
Qed.

Lemma logistic_loop_fits (y X w : loc) (ks : list Z) (h : heap) :
  shapes_fit h X y w ->
  logistic_loop y X w ks h
  = (Ok w, Nat.iter (length ks) (logistic_assign y X w) h).
Proof.
  revert h. induction ks as [| k ks IH]; intros h Hfit; [reflexivity |].
  cbn [logistic_loop length]. rewrite Nat.iter_succ_r.
  pose proof (logistic_assign_fits h y X w Hfit) as Hfit'.
  destruct Hfit as (Xa & yv & wv & HX & Hy & Hw & Hp & Hn).
  rewrite (logistic_body_fits h y X w Xa yv wv) by assumption.
  rewrite IH.
  - unfold logistic_assign at 3. now rewrite HX, Hy, Hw.
  - unfold logistic_assign in Hfit'. now rewrite HX, Hy, Hw in Hfit'.
Qed.

Lemma logistic_loop_fits_no_jit (y X w : loc) (ks : list Z) (h : heap) :
  shapes_fit h X y w ->
  logistic_loop_no_jit y X w ks h
  = (Ok w, Nat.iter (length ks) (logistic_assign_no_jit y X w) h).
Proof.
  revert h. induction ks as [| k ks IH]; intros h Hfit; [reflexivity |].
  cbn [logistic_loop_no_jit length]. rewrite Nat.iter_succ_r.
  pose proof (logistic_assign_fits_no_jit h y X w Hfit) as Hfit'.
  destruct Hfit as (Xa & yv & wv & HX & Hy & Hw & Hp & Hn).
  rewrite (logistic_body_fits_no_jit h y X w Xa yv wv) by assumption.
  rewrite IH.
  - unfold logistic_assign_no_jit at 3. now rewrite HX, Hy, Hw.
  - unfold logistic_assign_no_jit in Hfit'. now rewrite HX, Hy, Hw in Hfit'.
Qed.

(** When [y] and [w] are different objects only the cell of [w] moves,
    through the successive values of the update formula. *)
Lemma gradient_assign_iter (h : heap) (X y w : loc) (s : float)
  (Xa : ndarray2) (yv wv : list float) (n : nat) :
  h !! X = Some (Mat Xa) -> h !! y = Some (Vec yv) -> h !! w = Some (Vec wv) ->
  y <> w ->
  Nat.iter n (gradient_assign X y w s) h
  = <[w := Vec (Nat.iter n (gradient_formula Xa yv s) wv)]> h.
Proof.
  intros HX Hy Hw Hyw. assert (HXw : w <> X) by congruence.
  induction n as [| n IH]; cbn [Nat.iter nat_rect].
  - symmetry. now apply insert_id.
  - unfold Nat.iter in IH. rewrite IH. unfold gradient_assign.
    rewrite !lookup_insert_ne by congruence. rewrite lookup_insert_eq, HX, Hy.
    apply insert_insert_eq.
Qed.

Lemma logistic_assign_iter (h : heap) (y X w : loc)
  (Xa : ndarray2) (yv wv : list float) (n : nat) :
  h !! X = Some (Mat Xa) -> h !! y = Some (Vec yv) -> h !! w = Some (Vec wv) ->
  y <> w ->
  Nat.iter n (logistic_assign y X w) h
  = <[w := Vec (Nat.iter n (logistic_formula Xa yv) wv)]> h.
Proof.
  intros HX Hy Hw Hyw. assert (HXw : w <> X) by congruence.
  induction n as [| n IH]; cbn [Nat.iter nat_rect].
  - symmetry. now apply insert_id.
  - unfold Nat.iter in IH. rewrite IH. unfold logistic_assign.
    rewrite !lookup_insert_ne by congruence. rewrite lookup_insert_eq, HX, Hy.
    apply insert_insert_eq.
Qed.

Lemma logistic_assign_iter_no_jit (h : heap) (y X w : loc)
  (Xa : ndarray2) (yv wv : list float) (n : nat) :
  h !! X = Some (Mat Xa) -> h !! y = Some (Vec yv) -> h !! w = Some (Vec wv) ->
  y <> w ->
  Nat.iter n (logistic_assign_no_jit y X w) h
  = <[w := Vec (Nat.iter n (logistic_formula_no_jit Xa yv) wv)]> h.
Proof.
  intros HX Hy Hw Hyw. assert (HXw : w <> X) by congruence.
  induction n as [| n IH]; cbn [Nat.iter nat_rect].
  - symmetry. now apply insert_id.
  - unfold Nat.iter in IH. rewrite IH. unfold logistic_assign_no_jit.
    rewrite !lookup_insert_ne by congruence. rewrite lookup_insert_eq, HX, Hy.
    apply insert_insert_eq.
Qed.

Lemma gradient_loop_frame (X y w : loc) (s : float) (ks : list Z) (h : heap)
  (l : loc) :
  l <> w -> snd (gradient_loop X y w s ks h) !! l = h !! l.
Proof.
  intros Hl. revert h. induction ks as [| k ks IH]; intros h; [reflexivity |].
  cbn [gradient_loop]. destruct (gradient_body h X y w s); [| reflexivity].
  rewrite IH. now apply lookup_insert_ne.
Qed.

Lemma gradient_loop_value (X y w : loc) (s : float) (ks : list Z) (h : heap)
  (v : loc) :
  fst (gradient_loop X y w s ks h) = Ok v -> v = w.
Proof.
  revert h. induction ks as [| k ks IH]; intros h; cbn [gradient_loop].
  - cbn. congruence.
  - destruct (gradient_body h X y w s); [apply IH | discriminate].
Qed.

Lemma logistic_loop_frame (y X w : loc) (ks : list Z) (h : heap) (l : loc) :
  l <> w -> snd (logistic_loop y X w ks h) !! l = h !! l.
Proof.
  intros Hl. revert h. induction ks as [| k ks IH]; intros h; [reflexivity |].
  cbn [logistic_loop]. destruct (logistic_body h y X w); [| reflexivity].
  rewrite IH. now apply lookup_insert_ne.
Qed.

Lemma logistic_loop_value (y X w : loc) (ks : list Z) (h : heap) (v : loc) :
  fst (logistic_loop y X w ks h) = Ok v -> v = w.
Proof.
  revert h. induction ks as [| k ks IH]; intros h; cbn [logistic_loop].
  - cbn. congruence.
  - destruct (logistic_body h y X w); [apply IH | discriminate].
Qed.

(** ** The Monte Carlo loop *)

Lemma length_draws (n : nat) (g : rng_state) : length (draws n g) = n.
Proof.
  revert g. induction n as [| n IH]; intros g; [reflexivity |].
  cbn [draws]. destruct (np_random_rand 2 g) as [vec g']. cbn [length].
  now rewrite IH.
Qed.

Lemma inside_count_range (pts : list (list float)) :
  0 <= inside_count pts <= Z.of_nat (length pts).
Proof.
  unfold inside_count.
  pose proof (filter_length_le
                (fun vec => (np_linalg_norm vec <? 1)%float) pts).
  lia.
Qed.

(** The loop adds to [acc] the number of drawn points inside the circle
    and leaves the generator after one draw per sample. *)
Lemma monte_carlo_loop_count (samples : list Z) (g : rng_state) (acc : Z) :
  monte_carlo_loop samples g acc
  = (acc + inside_count (draws (length samples) g),
     after_draws (length samples) g).
Proof.
  revert g acc. induction samples as [| x samples IH]; intros g acc.
  - cbn. now rewrite Z.add_0_r.
  - cbn [monte_carlo_loop length draws after_draws].
    destruct (np_random_rand 2 g) as [vec g'] eqn:Eg. cbn [snd].
    rewrite IH. unfold inside_count. cbn [filter].
    destruct (np_linalg_norm vec <? 1)%float; cbn [length]; f_equal; lia.
Qed.

(** ** The two variants of the logistic solver *)



(** ** The solvers on shared buffers *)

Lemma length_poke_all (cs : list nat) (vals buf : list float) :
  length (poke_all cs vals buf) = length buf.
Proof.
  revert vals buf.
  induction cs as [| c cs IH]; intros [| x vals] buf; try reflexivity.
  cbn [poke_all]. rewrite IH. apply length_insert.
Qed.

Lemma poke_all_other (cs : list nat) (vals buf : list float) (c : nat) :
  ~ In c cs -> poke_all cs vals buf !! c = buf !! c.
Proof.
  revert vals buf.
  induction cs as [| c' cs IH]; intros [| x vals] buf Hc; try reflexivity.
  cbn [poke_all]. rewrite IH by (intros H; apply Hc; now right).
  apply list_lookup_insert_ne. intros ->. apply Hc. now left.
Qed.

Lemma poke_all_read (cs : list nat) (vals buf : list float) :
  NoDup cs -> length vals = length cs ->
  Forall (fun c => (c < length buf)%nat) cs ->
  map (fun c => default 0%float (poke_all cs vals buf !! c)) cs = vals.
Proof.
  revert vals buf.
  induction cs as [| c cs IH]; intros [| x vals] buf Hnd Hlen Hin;
    try discriminate; [reflexivity |].
  inversion Hnd as [| ? ? Hc Hnd']; subst.
  inversion Hin as [| ? ? Hlt Hin']; subst.
  cbn [poke_all map]. f_equal.
  - rewrite poke_all_other by assumption.
    now rewrite list_lookup_insert_eq by assumption.
  - apply IH; [assumption | now injection Hlen |].
    eapply Forall_impl; [| exact Hin']. cbv beta. intros c'.
    now rewrite length_insert.
Qed.

Lemma length_cells1 (v : view1) : length (cells1 v) = size1 v.
Proof. unfold cells1. now rewrite length_map, length_seq. Qed.

Lemma length_read1 (m : memory) (v : view1) : length (read1 m v) = size1 v.
Proof. unfold read1. now rewrite length_map, length_cells1. Qed.

Lemma NoDup_cells1 (v : view1) : (1 <= stride v)%nat -> NoDup (cells1 v).
Proof.
  intros Hs. unfold cells1.
  apply Finite.Injective_map_NoDup_in.
  - intros i j _ _ Hij. nia.
  - apply seq_NoDup.
Qed.

Lemma peek_write1_other (m : memory) (w : view1) (vals : list float)
  (b : loc) (c : nat) :
  ~ (b = base1 w /\ In c (cells1 w)) ->
  peek (write1 m w vals) b c = peek m b c.
Proof.
  intros H. unfold write1.
  destruct (m !! base1 w) as [buf |] eqn:Hb; [| reflexivity].
  unfold peek. destruct (decide (b = base1 w)) as [-> | Hne].
  - rewrite lookup_insert_eq, Hb.
    rewrite poke_all_other; [reflexivity |]. intros Hc. apply H. auto.
  - now rewrite lookup_insert_ne by congruence.
Qed.

Lemma in_memory_write1 (m : memory) (w : view1) (vals : list float) :
  in_memory (write1 m w vals) (base1 w) (cells1 w)
  = in_memory m (base1 w) (cells1 w).
Proof.
  unfold write1, in_memory.
  destruct (m !! base1 w) as [buf |] eqn:Hb; [| now rewrite Hb].
  rewrite lookup_insert_eq. now rewrite length_poke_all.
Qed.

Lemma read1_write1 (m : memory) (w : view1) (vals : list float) :
  in_memory m (base1 w) (cells1 w) = true -> (1 <= stride w)%nat ->
  length vals = size1 w ->
  read1 (write1 m w vals) w = vals.
Proof.
  unfold in_memory, read1, write1. intros Hin Hs Hlen.
  destruct (m !! base1 w) as [buf |] eqn:Hb; [| discriminate].
  rewrite <- (poke_all_read (cells1 w) vals buf) at 2.
  - apply map_ext. intros c. unfold peek. now rewrite lookup_insert_eq.
  - now apply NoDup_cells1.
  - now rewrite length_cells1.
  - apply Forall_forall. intros c Hc.
    rewrite forallb_forall in Hin. now apply Nat.ltb_lt, Hin.
Qed.

Lemma shares_memory_false (b1 : loc) (cs1 : list nat) (b2 : loc) (cs2 : list nat) :
  shares_memory b1 cs1 b2 cs2 = false ->
  forall c, In c cs2 -> ~ (b2 = b1 /\ In c cs1).
Proof.
  unfold shares_memory. intros H c Hc2 [-> Hc1].
  rewrite bool_decide_eq_true_2 in H by reflexivity. cbn [andb] in H.
  assert (Ht : existsb (fun c => existsb (Nat.eqb c) cs2) cs1 = true).
  { apply existsb_exists. exists c. split; [exact Hc1 |].
    apply existsb_exists. exists c. split; [exact Hc2 | apply Nat.eqb_refl]. }
  congruence.
Qed.

Lemma read1_write1_other (m : memory) (w y : view1) (vals : list float) :
  shares_memory (base1 w) (cells1 w) (base1 y) (cells1 y) = false ->
  read1 (write1 m w vals) y = read1 m y.
Proof.
  intros H. unfold read1. apply map_ext_in. intros c Hc.
  apply peek_write1_other. now apply (shares_memory_false _ _ _ _ H).
Qed.

Lemma read2_write1_other (m : memory) (w : view1) (X : view2) (vals : list float) :
  shares_memory (base1 w) (cells1 w) (base2 X) (cells2 X) = false ->
  read2 (write1 m w vals) X = read2 m X.
Proof.
  intros H. unfold read2. f_equal. apply map_ext_in. intros c Hc.
  apply peek_write1_other. now apply (shares_memory_false _ _ _ _ H).
Qed.

Section ViewsLoop.

Variable rhs : ndarray2 -> list float -> list float -> result (list float).
Variable X : view2.
Variables y w : view1.

(** The loop writes through [w] only. *)
Lemma views_loop_frame (ks : list Z) (m : memory) (b : loc) (c : nat) :
  ~ (b = base1 w /\ In c (cells1 w)) ->
  peek (snd (views_loop rhs X y w ks m)) b c = peek m b c.
Proof.
  intros H. revert m. induction ks as [| k ks IH]; intros m; [reflexivity |].
  cbn [views_loop].
  destruct (rhs (read2 m X) (read1 m y) (read1 m w)) as [vals | e];
    [| reflexivity].
  rewrite IH. now apply peek_write1_other.
Qed.

Lemma views_loop_value (ks : list Z) (m : memory) (v : view1) :
  fst (views_loop rhs X y w ks m) = Ok v -> v = w.
Proof.
  revert m. induction ks as [| k ks IH]; intros m; cbn [views_loop].
  - now intros [= <-].
  - destruct (rhs (read2 m X) (read1 m y) (read1 m w)) as [vals | e];
      [apply IH | discriminate].
Qed.

Lemma views_loop_keeps_X (ks : list Z) (m : memory) :
  shares_memory (base1 w) (cells1 w) (base2 X) (cells2 X) = false ->
  read2 (snd (views_loop rhs X y w ks m)) X = read2 m X.
Proof.
  intros H. unfold read2. f_equal. apply map_ext_in. intros c Hc.
  apply views_loop_frame. now apply (shares_memory_false _ _ _ _ H).
Qed.

Lemma views_loop_keeps_y (ks : list Z) (m : memory) :
  shares_memory (base1 w) (cells1 w) (base1 y) (cells1 y) = false ->
  read1 (snd (views_loop rhs X y w ks m)) y = read1 m y.
Proof.
  intros H. unfold read1. apply map_ext_in. intros c Hc.
  apply views_loop_frame. now apply (shares_memory_false _ _ _ _ H).
Qed.

Variable formula : ndarray2 -> list float -> list float -> list float.

Hypothesis rhs_fits : forall Xa yv wv,
  shape1 Xa = length wv -> shape0 Xa = length yv ->
  rhs Xa yv wv = Ok (formula Xa yv wv).

Hypothesis length_formula : forall Xa yv wv,
  shape1 Xa = length wv -> length (formula Xa yv wv) = length wv.

(** On matching shapes, when [w] shares no memory with [X] and [y], every
    round applies the formula to what [w] shows. *)
Lemma views_loop_fits (ks : list Z) (m : memory) :
  shares_memory (base1 w) (cells1 w) (base2 X) (cells2 X) = false ->
  shares_memory (base1 w) (cells1 w) (base1 y) (cells1 y) = false ->
  in_memory m (base1 w) (cells1 w) = true -> (1 <= stride w)%nat ->
  cols X = size1 w -> rows X = size1 y ->
  fst (views_loop rhs X y w ks m) = Ok w /\
  read1 (snd (views_loop rhs X y w ks m)) w
  = Nat.iter (length ks) (formula (read2 m X) (read1 m y)) (read1 m w).
Proof.
  intros HX Hy Hin Hs Hp Hn. revert m Hin.
  induction ks as [| k ks IH]; intros m Hin; [split; reflexivity |].
  cbn [views_loop length]. rewrite Nat.iter_succ_r.
  assert (Hpw : shape1 (read2 m X) = length (read1 m w))
    by (now rewrite length_read1).
  assert (Hny : shape0 (read2 m X) = length (read1 m y))
    by (now rewrite length_read1).
  rewrite rhs_fits by assumption.
  set (vals := formula (read2 m X) (read1 m y) (read1 m w)).
  assert (Hlen : length vals = size1 w).
  { unfold vals. rewrite length_formula by assumption. apply length_read1. }
  destruct (IH (write1 m w vals)) as [IH1 IH2];
    [now rewrite in_memory_write1 |].
  split; [exact IH1 |]. rewrite IH2.
  rewrite read2_write1_other, read1_write1_other by assumption.
  now rewrite read1_write1 by assumption.
Qed.

End ViewsLoop.

(** The right-hand sides on values are those of the statements on the
    store. *)
Lemma gradient_body_update (h : heap) (X y w : loc) (s : float)
  (Xa : ndarray2) (yv wv : list float) :
  h !! X = Some (Mat Xa) -> h !! y = Some (Vec yv) -> h !! w = Some (Vec wv) ->
  gradient_body h X y w s = gradient_update Xa yv wv s.
Proof.
  intros HX Hy Hw. unfold gradient_body, gradient_update, load_vec, load_mat.
  rewrite Hw, HX, Hy. reflexivity.
Qed.

Lemma logistic_body_update (h : heap) (y X w : loc)
  (Xa : ndarray2) (yv wv : list float) :
  h !! X = Some (Mat Xa) -> h !! y = Some (Vec yv) -> h !! w = Some (Vec wv) ->
  logistic_body h y X w = logistic_update Xa yv wv.
Proof.
  intros HX Hy Hw. unfold logistic_body, logistic_update, load_vec, load_mat.
  rewrite Hw, Hy, HX. reflexivity.
Qed.

Lemma gradient_update_fits (Xa : ndarray2) (yv wv : list float) (s : float) :
  shape1 Xa = length wv -> shape0 Xa = length yv ->
  gradient_update Xa yv wv s = Ok (gradient_formula Xa yv s wv).
Proof.
  intros Hp Hn.
  rewrite <- (gradient_body_update
                (<[3%positive := Vec wv]>
                   (<[2%positive := Vec yv]> (<[1%positive := Mat Xa]> ∅)))
                1 2 3 s Xa yv wv) by reflexivity.
  now apply gradient_body_fits.
Qed.

Lemma logistic_update_fits (Xa : ndarray2) (yv wv : list float) :
  shape1 Xa = length wv -> shape0 Xa = length yv ->
  logistic_update Xa yv wv = Ok (logistic_formula Xa yv wv).
Proof.
  intros Hp Hn.
  rewrite <- (logistic_body_update
                (<[3%positive := Vec wv]>
                   (<[2%positive := Vec yv]> (<[1%positive := Mat Xa]> ∅)))
                2 1 3 Xa yv wv) by reflexivity.
  now apply logistic_body_fits.
Qed.

(** * The claims *)

(** C1.  On an n x p matrix [X], a vector [y] of length n and a vector [w]
    of length p, [gradient] returns the object [w] after executing the
    assignment [w <- w - step_size * X^T (X w - y)] once for each of the
    [max_iter] iterations: it never raises and never leaves the loop
    early.  When [y] and [w] are different arrays the store at the end is
    the store at the start with the cell of [w] holding the [max_iter]-th
    iterate of the update formula. *)
Theorem gradient_runs_every_update (h : heap) (X y w : loc) (Xa : ndarray2)
  (yv wv : list float) (step_size : float) (max_iter : Z) :
  h !! X = Some (Mat Xa) -> h !! y = Some (Vec yv) -> h !! w = Some (Vec wv) ->
  shape1 Xa = length wv -> shape0 Xa = length yv ->
  gradient X y w step_size max_iter h
  = (Ok w, Nat.iter (Z.to_nat max_iter) (gradient_assign X y w step_size) h)
  /\ (y <> w ->
      Nat.iter (Z.to_nat max_iter) (gradient_assign X y w step_size) h
      = <[w := Vec (Nat.iter (Z.to_nat max_iter)
                      (gradient_formula Xa yv step_size) wv)]> h).
Proof.
  intros HX Hy Hw Hp Hn. split.
  - unfold gradient. rewrite gradient_loop_fits, length_range; [reflexivity |].
    exists Xa, yv, wv. auto.
  - intros Hyw. now apply gradient_assign_iter.
Qed.

(** C2.  On an n x p matrix [X], a vector [y] of length n (the labels) and
    a vector [w] of length p, [logistic_regression] returns the object [w]
    after executing the assignment
    [w <- w - (((1 / (1 + exp(-y * (X w)))) - 1) * y)^T X] once for each of
    the [iterations] iterations.  When [y] and [w] are different arrays
    the store at the end is the store at the start with the cell of [w]
    holding the [iterations]-th iterate of the update formula. *)
Theorem logistic_regression_runs_every_update (h : heap) (y X w : loc)
  (Xa : ndarray2) (yv wv : list float) (iterations : Z) :
  h !! X = Some (Mat Xa) -> h !! y = Some (Vec yv) -> h !! w = Some (Vec wv) ->
  shape1 Xa = length wv -> shape0 Xa = length yv ->
  logistic_regression y X w iterations h
  = (Ok w, Nat.iter (Z.to_nat iterations) (logistic_assign y X w) h)
  /\ (y <> w ->
      Nat.iter (Z.to_nat iterations) (logistic_assign y X w) h
      = <[w := Vec (Nat.iter (Z.to_nat iterations)
                      (logistic_formula Xa yv) wv)]> h).
Proof.
  intros HX Hy Hw Hp Hn. split.
  - unfold logistic_regression.
    rewrite logistic_loop_fits, length_range; [reflexivity |].
    exists Xa, yv, wv. auto.
  - intros Hyw. now apply logistic_assign_iter.
Qed.

(** C3, amended.  For every two-dimensional array with at least 2 rows and
    at least as many columns as rows, [go_slow] and [go_fast] return the
    sum, accumulated from [0.0] in the order of the rows, of
    [tanh(a[i, i+1])] for [i] from 0 to rows-2, each with the tangent it
    calls ([go_fast] reads the buffer, which has to hold the entries of
    the shape).  On the 3 x 3 array with entries 0..8 they return
    [0.0 + tanh(1) + tanh(5)], which is [tanh(1) + tanh(5)] unless
    [tanh(1)] is [-0.0]. *)
Theorem go_slow_sums_tanh_above_diagonal (a : ndarray2) :
  (2 <= shape0 a)%nat -> (shape0 a <= shape1 a)%nat ->
  (go_slow a = Ok (fsum (tanh_terms a)) /\
   (covers a -> go_fast a = Some (fsum (jit_tanh_terms a)))) /\
  (go_slow arange9 = Ok (0 + np_tanh 1 + np_tanh 5)%float /\
   go_fast arange9 = Some (0 + jit_tanh 1 + jit_tanh 5)%float) /\
  (np_tanh 1 <> neg_zero ->
   go_slow arange9 = Ok (np_tanh 1 + np_tanh 5)%float) /\
  (jit_tanh 1 <> neg_zero ->
   go_fast arange9 = Some (jit_tanh 1 + jit_tanh 5)%float).
Proof.
  intros Hr Hc.
  assert (H9 : go_slow arange9 = Ok (0 + np_tanh 1 + np_tanh 5)%float)
    by (rewrite go_slow_wide by (cbn; lia); reflexivity).
  assert (F9 : go_fast arange9 = Some (0 + jit_tanh 1 + jit_tanh 5)%float)
    by reflexivity.
  split; [split | split; [split | split]].
  - now apply go_slow_wide.
  - now apply go_fast_wide.
  - exact H9.
  - exact F9.
  - intros Ht. rewrite H9. now rewrite float_add_zero_l.
  - intros Ht. rewrite F9. now rewrite float_add_zero_l.
Qed.

(** C4.  For every sample count [1 <= n_samples] (an int64),
    [monte_carlo_pi] draws [n_samples] arrays [np.random.rand(2)] from the
    generator, one after the other, counts the draws whose norm is
    strictly below 1, and returns [4.0 * count / n_samples]; the count
    lies between 0 and [n_samples] and the value returned between 0 and
    4. *)
Theorem monte_carlo_pi_estimate (n_samples : Z) (g : rng_state) :
  1 <= n_samples < 2 ^ 63 ->
  let pts := draws (Z.to_nat n_samples) g in
  let count := inside_count pts in
  let estimate := (4 * float_of_int count / float_of_int n_samples)%float in
  monte_carlo_pi n_samples g
  = (Ok estimate, after_draws (Z.to_nat n_samples) g) /\
  length pts = Z.to_nat n_samples /\
  0 <= count <= n_samples /\
  (0 <=? estimate)%float = true /\ (estimate <=? 4)%float = true.
Proof.
  intros Hn pts count estimate.
  assert (Hlen : length pts = Z.to_nat n_samples) by apply length_draws.
  assert (Hcount : 0 <= count <= n_samples).
  { pose proof (inside_count_range pts) as H. rewrite Hlen in H.
    fold count in H. lia. }
  repeat split; try lia; try apply (estimate_bounds count n_samples); try lia.
  unfold monte_carlo_pi. rewrite monte_carlo_loop_count, length_range.
  rewrite Z.add_0_l. fold pts. fold count.
  unfold truediv. rewrite float_of_int_nonzero by lia. reflexivity.
Qed.

(** C5, amended.  For every two-dimensional array with fewer than 2 rows
    the loop of [go_slow] and [go_fast] has nothing to run over: no
    element is read, nothing fails, and the value returned is 0. *)
Theorem go_slow_few_rows_returns_zero (a : ndarray2) :
  (shape0 a < 2)%nat -> go_slow a = Ok 0%float /\ go_fast a = Some 0%float.
Proof.
  intros Hr. split; [now apply go_slow_few_rows | now apply go_fast_few_rows].
Qed.

(** C6, amended.  On an int64 sample count, [monte_carlo_pi] raises
    [ZeroDivisionError] exactly when [n_samples] is 0; it has no other
    error.  For a negative [n_samples] the loop does not run and the
    value returned is [4.0 * 0 / n_samples], that is [-0.0]. *)
Theorem monte_carlo_pi_errors (n_samples : Z) (g : rng_state) :
  - 2 ^ 63 <= n_samples < 2 ^ 63 ->
  (fst (monte_carlo_pi n_samples g) = Raise ZeroDivisionError <-> n_samples = 0) /\
  (n_samples <> 0 -> exists v, fst (monte_carlo_pi n_samples g) = Ok v) /\
  (n_samples < 0 -> monte_carlo_pi n_samples g = (Ok neg_zero, g)).
Proof.
  intros Hn.
  assert (Hnz : n_samples <> 0 ->
                exists v, fst (monte_carlo_pi n_samples g) = Ok v).
  { intros H0. unfold monte_carlo_pi. rewrite monte_carlo_loop_count.
    cbn [fst]. unfold truediv. rewrite float_of_int_nonzero by lia. eauto. }
  repeat split.
  - intros Herr. destruct (Z.eq_dec n_samples 0) as [| H0]; [assumption |].
    destruct (Hnz H0) as [v Hv]. congruence.
  - intros ->. reflexivity.
  - exact Hnz.
  - intros Hneg. unfold monte_carlo_pi. rewrite range_nonpos by lia.
    cbn [monte_carlo_loop]. unfold truediv.
    rewrite float_of_int_nonzero by lia.
    now rewrite estimate_of_nothing_neg by lia.
Qed.

Lemma zip_with_sub_zero_mul (wv g : list float) :
  length g = length wv ->
  Forall (fun x => is_finite x = true) g ->
  Forall (fun x => x <> neg_zero) wv ->
  zip_with PrimFloat.sub wv (map (PrimFloat.mul 0) g) = wv.
Proof.
  revert g. induction wv as [| x wv IH]; intros g Hlen Hg Hw; [reflexivity |].
  destruct g as [| z g]; [discriminate |].
  inversion Hg as [| ? ? Hz Hg']; subst. inversion Hw as [| ? ? Hx Hw']; subst.
  cbn [map zip_with]. rewrite float_sub_zero_mul by assumption.
  f_equal. apply IH; auto.
Qed.

(** C7, amended.  With [step_size = 0.0], on arrays of matching shapes,
    [gradient] returns [w] and leaves the store as it was, for every
    number of iterations, provided the gradient [X^T (X w - y)] at [w]
    has only finite entries (no overflow, no NaN) and no entry of [w] is
    [-0.0]. *)
Theorem gradient_zero_step_keeps_w (h : heap) (X y w : loc) (Xa : ndarray2)
  (yv wv : list float) (max_iter : Z) :
  h !! X = Some (Mat Xa) -> h !! y = Some (Vec yv) -> h !! w = Some (Vec wv) ->
  shape1 Xa = length wv -> shape0 Xa = length yv ->
  Forall (fun x => is_finite x = true) (gradient_at Xa yv wv) ->
  Forall (fun x => x <> neg_zero) wv ->
  gradient X y w 0 max_iter h = (Ok w, h).
Proof.
  intros HX Hy Hw Hp Hn Hfin Hnz.
  unfold gradient.
  rewrite gradient_loop_fits, length_range by (exists Xa, yv, wv; auto).
  f_equal.
  assert (Hstep : gradient_assign X y w 0 h = h).
  { unfold gradient_assign. rewrite HX, Hy, Hw.
    unfold gradient_formula.
    rewrite zip_with_sub_zero_mul; try assumption.
    - now apply insert_id.
    - unfold gradient_at. rewrite length_matvec. exact Hp. }
  induction (Z.to_nat max_iter) as [| n IH]; [reflexivity |].
  cbn [Nat.iter nat_rect]. unfold Nat.iter in IH. now rewrite IH.
Qed.

(** C8, amended.  For every call of [gradient] or [logistic_regression]
    in which [w] shares no memory with [X] and none with [y], [X] and [y]
    show at the end what they showed at the start, every position of
    memory outside [w] is untouched, and a call that returns hands back
    the object [w]; on arrays that lie in their buffers and have matching
    shapes the call does return [w], which then shows the value written
    by the last iteration. *)
Theorem solvers_write_only_w (m : memory) (X : view2) (y w : view1)
  (step_size : float) (k : Z) :
  shares_memory (base1 w) (cells1 w) (base2 X) (cells2 X) = false ->
  shares_memory (base1 w) (cells1 w) (base1 y) (cells1 y) = false ->
  let g := gradient_views X y w step_size k m in
  let r := logistic_regression_views y X w k m in
  (read2 (snd g) X = read2 m X /\ read1 (snd g) y = read1 m y /\
   (forall b c, ~ (b = base1 w /\ In c (cells1 w)) ->
                peek (snd g) b c = peek m b c) /\
   (forall v, fst g = Ok v -> v = w) /\
   (in_memory m (base2 X) (cells2 X) = true ->
    in_memory m (base1 y) (cells1 y) = true ->
    in_memory m (base1 w) (cells1 w) = true -> (1 <= stride w)%nat ->
    cols X = size1 w -> rows X = size1 y ->
    fst g = Ok w /\
    read1 (snd g) w
    = Nat.iter (Z.to_nat k)
        (gradient_formula (read2 m X) (read1 m y) step_size) (read1 m w)))
  /\
  (read2 (snd r) X = read2 m X /\ read1 (snd r) y = read1 m y /\
   (forall b c, ~ (b = base1 w /\ In c (cells1 w)) ->
                peek (snd r) b c = peek m b c) /\
   (forall v, fst r = Ok v -> v = w) /\
   (in_memory m (base2 X) (cells2 X) = true ->
    in_memory m (base1 y) (cells1 y) = true ->
    in_memory m (base1 w) (cells1 w) = true -> (1 <= stride w)%nat ->
    cols X = size1 w -> rows X = size1 y ->
    fst r = Ok w /\
    read1 (snd r) w
    = Nat.iter (Z.to_nat k)
        (logistic_formula (read2 m X) (read1 m y)) (read1 m w))).
Proof.
  intros HX Hy g r. split.
  - subst g. unfold gradient_views.
    split; [now apply views_loop_keeps_X |].
    split; [now apply views_loop_keeps_y |].
    split; [intros b c Hbc; now apply views_loop_frame |].
    split; [apply views_loop_value |].
    intros _ _ Hin Hs Hp Hn. rewrite <- (length_range k).
    apply (views_loop_fits _ X y w
             (fun Xa yv wv => gradient_formula Xa yv step_size wv));
      try assumption.
    + intros Xa yv wv. apply gradient_update_fits.
    + intros Xa yv wv. apply length_gradient_formula.
  - subst r. unfold logistic_regression_views.
    split; [now apply views_loop_keeps_X |].
    split; [now apply views_loop_keeps_y |].
    split; [intros b c Hbc; now apply views_loop_frame |].
    split; [apply views_loop_value |].
    intros _ _ Hin Hs Hp Hn. rewrite <- (length_range k).
    apply (views_loop_fits _ X y w logistic_formula); try assumption.
    + apply logistic_update_fits.
    + apply length_logistic_formula.
Qed.


(** C10.  For every two-dimensional array with at least 2 rows, all the
    subscripts [(i, i+1)] that the loop of [go_slow] / [go_fast] runs
    over are within the shape of the array if and only if the array has
    at least as many columns as rows, and that is also when [go_slow]
    returns a value; with more rows than columns the computation reaches
    a column subscript outside the array.  There [go_slow] stops with
    [IndexError], while [go_fast], whose subscripts are not checked, goes
    on with the positions of the buffer that the subscripts designate:
    it returns the sum of their tangents if they are all in the buffer,
    and reads memory that is not the array's otherwise. *)
Theorem go_slow_in_bounds_iff_wide (a : ndarray2) :
  (2 <= shape0 a)%nat ->
  ((forall i, In i (range (Z.of_nat (shape0 a) - 1)) ->
              in_bounds a i (i + 1) = true)
   <-> (shape0 a <= shape1 a)%nat) /\
  ((exists v, go_slow a = Ok v) <-> (shape0 a <= shape1 a)%nat) /\
  ((shape1 a < shape0 a)%nat ->
   (exists i, In i (range (Z.of_nat (shape0 a) - 1)) /\
              in_bounds a i (i + 1) = false) /\
   go_slow a = Raise IndexError /\
   (Forall (fun c => (c < length (data a))%nat) (positions_read a) ->
    go_fast a = Some (fsum (jit_tanh_terms a))) /\
   (Exists (fun c => (length (data a) <= c)%nat) (positions_read a) ->
    go_fast a = None)).
Proof.
  intros Hr.
  assert (Hlast : In (Z.of_nat (shape0 a) - 2) (range (Z.of_nat (shape0 a) - 1))).
  { rewrite range_rows. apply in_map_iff. exists (shape0 a - 2)%nat.
    split; [lia |]. apply in_seq. lia. }
  assert (Hall : (shape0 a <= shape1 a)%nat ->
                 forall i, In i (range (Z.of_nat (shape0 a) - 1)) ->
                           in_bounds a i (i + 1) = true).
  { intros Hc i Hi. rewrite range_rows in Hi.
    apply in_map_iff in Hi as (j & <- & Hj). apply in_seq in Hj.
    unfold in_bounds. rewrite !andb_true_iff, !Z.leb_le, !Z.ltb_lt. lia. }
  assert (Hbad : (shape1 a < shape0 a)%nat ->
                 in_bounds a (Z.of_nat (shape0 a) - 2)
                   (Z.of_nat (shape0 a) - 2 + 1) = false).
  { intros Hc. unfold in_bounds.
    destruct (Z.ltb_spec (Z.of_nat (shape0 a) - 2 + 1) (Z.of_nat (shape1 a)));
      [lia |]. apply andb_false_r. }
  split; [split | split; [split |]].
  - intros Hin. destruct (Nat.le_gt_cases (shape0 a) (shape1 a)) as [| Hc];
      [assumption |].
    specialize (Hin _ Hlast). rewrite Hbad in Hin by assumption. discriminate.
  - exact Hall.
  - intros [v Hv]. destruct (Nat.le_gt_cases (shape0 a) (shape1 a)) as [| Hc];
      [assumption |].
    rewrite go_slow_tall in Hv by assumption. discriminate.
  - intros Hc. eexists. now apply go_slow_wide.
  - intros Hc.
    split; [exists (Z.of_nat (shape0 a) - 2);
            split; [exact Hlast | now apply Hbad] |].
    split; [now apply go_slow_tall |].
    split; [apply go_fast_in_buffer | apply go_fast_outside].
Qed.

(** * Further properties of the notebook *)

(** ** The reduction *)

(** X1.  [go_slow] raises [IndexError] exactly on the arrays with at
    least 2 rows and fewer columns than rows; it raises nothing else, and
    on every other array it returns the sum of the hyperbolic tangents
    above the diagonal. *)
Theorem go_slow_outcome (a : ndarray2) :
  (go_slow a = Raise IndexError
   <-> (2 <= shape0 a)%nat /\ (shape1 a < shape0 a)%nat) /\
  (forall e, go_slow a = Raise e -> e = IndexError) /\
  (~ ((2 <= shape0 a)%nat /\ (shape1 a < shape0 a)%nat) ->
   go_slow a = Ok (fsum (tanh_terms a))).
Proof.
  assert (Hok : ~ ((2 <= shape0 a)%nat /\ (shape1 a < shape0 a)%nat) ->
                go_slow a = Ok (fsum (tanh_terms a))).
  { intros Hn. unfold go_slow, fsum, tanh_terms. rewrite range_rows.
    apply go_slow_loop_in; lia. }
  split; [| split; [| exact Hok]].
  - split.
    + intros Herr. destruct (le_lt_dec 2 (shape0 a)) as [Hr | Hr];
        [destruct (le_lt_dec (shape0 a) (shape1 a)) as [Hc | Hc] |];
        try lia; rewrite Hok in Herr by lia; discriminate.
    + intros [Hr Hc]. now apply go_slow_tall.
  - intros e He. destruct (le_lt_dec 2 (shape0 a)) as [Hr | Hr];
      [destruct (le_lt_dec (shape0 a) (shape1 a)) as [Hc | Hc] |].
    + rewrite Hok in He by lia. discriminate.
    + rewrite go_slow_tall in He by lia. congruence.
    + rewrite Hok in He by lia. discriminate.
Qed.

(** X2.  [go_slow] looks at the shape and at the entries just above the
    diagonal, and at nothing else: on two arrays of the same shape with
    the same entries [a[i, i+1]] it has the same outcome. *)
Theorem go_slow_reads_superdiagonal (a b : ndarray2) :
  shape0 a = shape0 b -> shape1 a = shape1 b ->
  (forall i, (S i < shape0 a)%nat -> (S i < shape1 a)%nat ->
             item a i (S i) = item b i (S i)) ->
  go_slow a = go_slow b.
Proof.
  intros H0 H1 Hd.
  destruct (le_lt_dec 2 (shape0 a)) as [Hr | Hr];
    [destruct (le_lt_dec (shape0 a) (shape1 a)) as [Hc | Hc] |].
  - rewrite !go_slow_wide by lia. do 2 f_equal. unfold tanh_terms.
    rewrite <- H0. apply map_ext_in. intros i Hi. apply in_seq in Hi.
    f_equal. apply Hd; lia.
  - rewrite !go_slow_tall by lia. reflexivity.
  - rewrite !go_slow_few_rows by lia. reflexivity.
Qed.



Lemma item_T (a : ndarray2) (i j : nat) : item (T a) i j = item a j i.
Proof. unfold item, T. cbn. f_equal. lia. Qed.

(** X3.  On the transposed view of an array with at least as many rows
    as columns the reduction returns the sum of the hyperbolic tangents
    just below the diagonal, [tanh(a[i+1, i])]. *)
Theorem go_slow_transposed (a : ndarray2) :
  (shape1 a <= shape0 a)%nat ->
  go_slow (T a)
  = Ok (fsum (map (fun i => np_tanh (item a (S i) i)) (seq 0 (shape1 a - 1)))).
Proof.
  intros Hc. rewrite go_slow_wide by (cbn; lia). do 2 f_equal.
  unfold tanh_terms. cbn [T shape0]. apply map_ext. intros i.
  now rewrite item_T.
Qed.

Lemma item_arange_square (n i j : nat) :
  (i < n)%nat -> (j < n)%nat ->
  item (arange_square n) i j = float_of_int (Z.of_nat i * Z.of_nat n + Z.of_nat j).
Proof.
  intros Hi Hj. unfold item, arange_square. cbn [stride0 stride1 data].
  assert (Hlt : (i * n + j * 1 < n * n)%nat) by nia.
  rewrite (nth_indep _ 0%float (float_of_int (Z.of_nat 0)))
    by (now rewrite length_map, length_seq).
  rewrite (map_nth (fun k => float_of_int (Z.of_nat k))).
  rewrite seq_nth by exact Hlt. f_equal. lia.
Qed.

Lemma covers_arange_square (n : nat) : covers (arange_square n).
Proof.
  intros i j Hi Hj. unfold arange_square in *.
  cbn [shape0 shape1 stride0 stride1 data] in *.
  rewrite length_map, length_seq. nia.
Qed.

(** X4.  On the arrays of the benchmark, [np.arange(n ** 2).reshape(n, n)]
    for any size [n], the three calls of a round never fail, and each
    returns the sum over [i] from 0 to n-2 of [tanh(i * (n + 1) + 1)],
    the two calls of [go_fast] with the compiled tangent and the call of
    [go_slow] with NumPy's. *)
Theorem reduction_benchmark_value (n_samples : nat) :
  let terms (tanh : float -> float) :=
    map (fun i => tanh (float_of_int
                          (Z.of_nat i * (Z.of_nat n_samples + 1) + 1)))
        (seq 0 (n_samples - 1)) in
  reduction_benchmark n_samples
  = (Some (fsum (terms jit_tanh)), Some (fsum (terms jit_tanh)),
     Ok (fsum (terms np_tanh))).
Proof.
  intros terms. unfold reduction_benchmark.
  assert (Hentry : forall i, In i (seq 0 (n_samples - 1)) ->
            item (arange_square n_samples) i (S i)
            = float_of_int (Z.of_nat i * (Z.of_nat n_samples + 1) + 1)).
  { intros i Hi. apply in_seq in Hi.
    rewrite item_arange_square by lia. f_equal. lia. }
  assert (Hs : go_slow (arange_square n_samples) = Ok (fsum (terms np_tanh))).
  { rewrite go_slow_wide by (cbn; lia). do 2 f_equal.
    unfold tanh_terms. cbn [arange_square shape0].
    apply map_ext_in. intros i Hi. f_equal. now apply Hentry. }
  assert (Hf : go_fast (arange_square n_samples) = Some (fsum (terms jit_tanh))).
  { rewrite go_fast_wide by (cbn; try lia; apply covers_arange_square).
    do 2 f_equal. unfold jit_tanh_terms. cbn [arange_square shape0].
    apply map_ext_in. intros i Hi. f_equal. now apply Hentry. }
  now rewrite Hs, Hf.
Qed.

(** ** The Monte Carlo estimator *)

Lemma draws_add (n1 n2 : nat) (g : rng_state) :
  draws (n1 + n2) g = draws n1 g ++ draws n2 (after_draws n1 g).
Proof.
  revert g. induction n1 as [| n1 IH]; intros g; [reflexivity |].
  cbn [Nat.add draws after_draws].
  destruct (np_random_rand 2 g) as [vec g']. cbn [snd app].
  now rewrite IH.
Qed.

Lemma after_draws_add (n1 n2 : nat) (g : rng_state) :
  after_draws (n1 + n2) g = after_draws n2 (after_draws n1 g).
Proof.
  revert g. induction n1 as [| n1 IH]; intros g; [reflexivity |].
  cbn [Nat.add after_draws]. apply IH.
Qed.

Lemma inside_count_app (p1 p2 : list (list float)) :
  inside_count (p1 ++ p2) = inside_count p1 + inside_count p2.
Proof.
  unfold inside_count. rewrite filter_app, length_app. lia.
Qed.

Lemma monte_carlo_pi_generator (n_samples : Z) (g : rng_state) :
  snd (monte_carlo_pi n_samples g) = after_draws (Z.to_nat n_samples) g.
Proof.
  unfold monte_carlo_pi. rewrite monte_carlo_loop_count, length_range.
  reflexivity.
Qed.

(** X5.  Whatever the sample count and whether or not the call raises,
    [monte_carlo_pi] leaves the generator exactly [max(n_samples, 0)]
    draws further; for [n_samples <= 0] the generator is untouched. *)
Theorem monte_carlo_pi_advances_generator (n_samples : Z) (g : rng_state) :
  snd (monte_carlo_pi n_samples g)
  = after_draws (Z.to_nat (Z.max n_samples 0)) g /\
  (n_samples <= 0 -> snd (monte_carlo_pi n_samples g) = g).
Proof.
  rewrite monte_carlo_pi_generator. split.
  - f_equal. lia.
  - intros Hn. now replace (Z.to_nat n_samples) with 0%nat by lia.
Qed.

(** X6.  Two calls in a row share the generator: the second call counts
    among the draws that follow those of the first, so that the two
    counts add up to the count of one call over [n1 + n2] samples, and
    the generator ends where that single call would leave it. *)
Theorem monte_carlo_pi_successive_calls (n1 n2 : Z) (g : rng_state) :
  0 <= n1 -> 0 <= n2 ->
  let g1 := snd (monte_carlo_pi n1 g) in
  snd (monte_carlo_pi n2 g1) = snd (monte_carlo_pi (n1 + n2) g) /\
  draws (Z.to_nat (n1 + n2)) g
  = draws (Z.to_nat n1) g ++ draws (Z.to_nat n2) g1 /\
  inside_count (draws (Z.to_nat (n1 + n2)) g)
  = inside_count (draws (Z.to_nat n1) g) + inside_count (draws (Z.to_nat n2) g1).
Proof.
  intros H1 H2 g1. subst g1. rewrite !monte_carlo_pi_generator.
  rewrite Z2Nat.inj_add by assumption.
  rewrite after_draws_add, draws_add, inside_count_app. auto.
Qed.

(** The quotient of four times a normal float by that float is four. *)
Lemma SFdiv_4_self (M : positive) (E : Z) :
  2 ^ 52 <= Zpos M < 2 ^ 53 ->
  SF64div (S754_finite false M (E + 2)) (S754_finite false M E)
  = S754_finite false 4503599627370496 (-50).
Proof.
  intros HM. unfold SF64div, SFdiv, SFdiv_core_binary. cbn [xorb Zdigits2].
  rewrite (digits2_pos_unique M 53) by (change (53 - 1) with 52; lia).
  replace (Z.min (fexp prec emax (53 + (E + 2) - (53 + E))) (E + 2 - E))
    with (-51)
    by (unfold fexp, SpecFloat.emin, prec, emax; lia).
  replace (E + 2 - E - -51) with 53 by lia.
  rewrite Z.shiftl_mul_pow2 by lia.
  pose proof (Z_div_mod (Zpos M * 2 ^ 53) (Zpos M) ltac:(lia)) as Hdm.
  destruct (Z.div_eucl (Zpos M * 2 ^ 53) (Zpos M)) as [q0 r0].
  destruct Hdm as [Hdm Hr0].
  change (2 ^ 53) with 9007199254740992 in *.
  assert (Hq : q0 = 9007199254740992) by nia.
  assert (Hr : r0 = 0) by nia.
  subst q0 r0. rewrite new_location_0.
  rewrite binary_round_aux_normal by (cbn; lia).
  reflexivity.
Qed.

Lemma float_of_int_all_inside (n : Z) :
  1 <= n < 2 ^ 63 -> (4 * float_of_int n / float_of_int n)%float = 4%float.
Proof.
  intros Hn. apply Prim2SF_inj.
  rewrite FloatAxioms.div_spec, FloatAxioms.mul_spec, Prim2SF_four.
  destruct n as [| p | p]; try lia.
  rewrite Prim2SF_float_of_int_pos by lia.
  pose proof (norm_pos_range p) as (HM & HE & _). cbv zeta in HE.
  pose proof (digits_int64 p ltac:(lia)) as Hd.
  assert (0 < Zpos (digits2_pos p)) by lia.
  rewrite SFmul_4 by (try rewrite Z2Pos.id; lia).
  apply SFdiv_4_self. rewrite Z2Pos.id; lia.
Qed.

Lemma float_of_int_none_inside (n : Z) :
  1 <= n < 2 ^ 63 -> (4 * float_of_int 0 / float_of_int n)%float = 0%float.
Proof.
  intros Hn. apply Prim2SF_inj. rewrite float_of_int_0.
  change (4 * 0)%float with 0%float.
  rewrite FloatAxioms.div_spec, Prim2SF_zero.
  destruct n as [| p | p]; try lia.
  rewrite Prim2SF_float_of_int_pos by lia. reflexivity.
Qed.

Lemma inside_count_all (pts : list (list float)) :
  Forall (fun vec => (np_linalg_norm vec <? 1)%float = true) pts ->
  inside_count pts = Z.of_nat (length pts).
Proof.
  intros H. unfold inside_count. f_equal.
  induction H as [| vec pts Hv _ IH]; [reflexivity |].
  cbn [filter]. rewrite Hv. cbn [length]. now rewrite IH.
Qed.

Lemma inside_count_none (pts : list (list float)) :
  Forall (fun vec => (np_linalg_norm vec <? 1)%float = false) pts ->
  inside_count pts = 0.
Proof.
  intros H. unfold inside_count.
  induction H as [| vec pts Hv _ IH]; [reflexivity |].
  cbn [filter]. now rewrite Hv.
Qed.

(** X7.  The two extreme estimates are exact: on an int64 sample count
    [n_samples >= 1], when every drawn point has norm below 1 the value
    returned is exactly [4.0], and when none has it is exactly [0.0]. *)
Theorem monte_carlo_pi_extremes (n_samples : Z) (g : rng_state) :
  1 <= n_samples < 2 ^ 63 ->
  (Forall (fun vec => (np_linalg_norm vec <? 1)%float = true)
          (draws (Z.to_nat n_samples) g) ->
   fst (monte_carlo_pi n_samples g) = Ok 4%float) /\
  (Forall (fun vec => (np_linalg_norm vec <? 1)%float = false)
          (draws (Z.to_nat n_samples) g) ->
   fst (monte_carlo_pi n_samples g) = Ok 0%float).
Proof.
  intros Hn.
  assert (Hmc : fst (monte_carlo_pi n_samples g)
                = Ok (4 * float_of_int
                            (inside_count (draws (Z.to_nat n_samples) g))
                      / float_of_int n_samples)%float).
  { unfold monte_carlo_pi. rewrite monte_carlo_loop_count, length_range.
    cbn [fst]. rewrite Z.add_0_l. unfold truediv.
    now rewrite float_of_int_nonzero by lia. }
  rewrite Hmc. split; intros H.
  - rewrite inside_count_all, length_draws, Z2Nat.id by (assumption || lia).
    now rewrite float_of_int_all_inside.
  - rewrite inside_count_none by assumption.
    now rewrite float_of_int_none_inside.
Qed.

(** ** The loops of the solvers *)

Lemma gradient_loop_app (X y w : loc) (s : float) (ks1 ks2 : list Z) (h : heap) :
  gradient_loop X y w s (ks1 ++ ks2) h
  = match gradient_loop X y w s ks1 h with
    | (Ok _, h1) => gradient_loop X y w s ks2 h1
    | (Raise e, h1) => (Raise e, h1)
    end.
Proof.
  revert h. induction ks1 as [| k ks1 IH]; intros h; [reflexivity |].
  cbn [app gradient_loop].
  destruct (gradient_body h X y w s); [apply IH | reflexivity].
Qed.

Lemma gradient_loop_length (X y w : loc) (s : float) (ks ks' : list Z) (h : heap) :
  length ks = length ks' ->
  gradient_loop X y w s ks h = gradient_loop X y w s ks' h.
Proof.
  revert ks' h. induction ks as [| k ks IH]; intros [| k' ks'] h Hlen;
    try discriminate; [reflexivity |].
  cbn [gradient_loop]. destruct (gradient_body h X y w s); [| reflexivity].
  apply IH. now injection Hlen.
Qed.

Lemma logistic_loop_app (y X w : loc) (ks1 ks2 : list Z) (h : heap) :
  logistic_loop y X w (ks1 ++ ks2) h
  = match logistic_loop y X w ks1 h with
    | (Ok _, h1) => logistic_loop y X w ks2 h1
    | (Raise e, h1) => (Raise e, h1)
    end.
Proof.
  revert h. induction ks1 as [| k ks1 IH]; intros h; [reflexivity |].
  cbn [app logistic_loop].
  destruct (logistic_body h y X w); [apply IH | reflexivity].
Qed.

Lemma logistic_loop_app_no_jit (y X w : loc) (ks1 ks2 : list Z) (h : heap) :
  logistic_loop_no_jit y X w (ks1 ++ ks2) h
  = match logistic_loop_no_jit y X w ks1 h with
    | (Ok _, h1) => logistic_loop_no_jit y X w ks2 h1
    | (Raise e, h1) => (Raise e, h1)
    end.
Proof.
  revert h. induction ks1 as [| k ks1 IH]; intros h; [reflexivity |].
  cbn [app logistic_loop_no_jit].
  destruct (logistic_body_no_jit h y X w); [apply IH | reflexivity].
Qed.

Lemma logistic_loop_length (y X w : loc) (ks ks' : list Z) (h : heap) :
  length ks = length ks' ->
  logistic_loop y X w ks h = logistic_loop y X w ks' h.
Proof.
  revert ks' h. induction ks as [| k ks IH]; intros [| k' ks'] h Hlen;
    try discriminate; [reflexivity |].
  cbn [logistic_loop]. destruct (logistic_body h y X w); [| reflexivity].
  apply IH. now injection Hlen.
Qed.

Lemma logistic_loop_length_no_jit (y X w : loc) (ks ks' : list Z) (h : heap) :
  length ks = length ks' ->
  logistic_loop_no_jit y X w ks h = logistic_loop_no_jit y X w ks' h.
Proof.
  revert ks' h. induction ks as [| k ks IH]; intros [| k' ks'] h Hlen;
    try discriminate; [reflexivity |].
  cbn [logistic_loop_no_jit]. destruct (logistic_body_no_jit h y X w); [| reflexivity].
  apply IH. now injection Hlen.
Qed.

(** X8.  With an iteration count that is zero or negative the solvers
    return [w] at once: nothing is read, no shape is checked and nothing
    is written.  This holds for the undecorated function whatever its
    arguments are, and for the two compiled functions on the argument
    types for which the notebook calls them, a two-dimensional [X] and
    one-dimensional [y] and [w], of any shapes. *)
Theorem solvers_without_iterations (X y w : loc) (step_size : float) (k : Z)
  (h : heap) :
  k <= 0 ->
  logistic_regression_no_jit y X w k h = (Ok w, h) /\
  (forall (Xa : ndarray2) (yv wv : list float),
      h !! X = Some (Mat Xa) -> h !! y = Some (Vec yv) ->
      h !! w = Some (Vec wv) ->
      gradient X y w step_size k h = (Ok w, h) /\
      logistic_regression y X w k h = (Ok w, h)).
Proof.
  intros Hk.
  unfold gradient, logistic_regression_no_jit, logistic_regression.
  rewrite range_nonpos by assumption. auto.
Qed.

(** X9.  A call of [gradient] takes up where the previous one stopped:
    [k1] iterations followed, if they returned, by [k2] iterations on the
    store they left are [k1 + k2] iterations in one call, and an
    exception of the first call is the exception of the long one. *)
Theorem gradient_resumes (X y w : loc) (step_size : float) (k1 k2 : Z)
  (h : heap) :
  0 <= k1 -> 0 <= k2 ->
  gradient X y w step_size (k1 + k2) h
  = match gradient X y w step_size k1 h with
    | (Ok _, h1) => gradient X y w step_size k2 h1
    | (Raise e, h1) => (Raise e, h1)
    end.
Proof.
  intros H1 H2. unfold gradient. rewrite <- gradient_loop_app.
  apply gradient_loop_length.
  rewrite length_app, !length_range. lia.
Qed.

(** X10.  The same for the logistic solver: each of the two functions
    takes up the [w] that its own previous call left. *)
Theorem logistic_regression_resumes (y X w : loc) (k1 k2 : Z) (h : heap) :
  0 <= k1 -> 0 <= k2 ->
  logistic_regression y X w (k1 + k2) h
  = match logistic_regression y X w k1 h with
    | (Ok _, h1) => logistic_regression y X w k2 h1
    | (Raise e, h1) => (Raise e, h1)
    end /\
  logistic_regression_no_jit y X w (k1 + k2) h
  = match logistic_regression_no_jit y X w k1 h with
    | (Ok _, h1) => logistic_regression_no_jit y X w k2 h1
    | (Raise e, h1) => (Raise e, h1)
    end.
Proof.
  intros H1 H2. split.
  - unfold logistic_regression. rewrite <- logistic_loop_app.
    apply logistic_loop_length.
    rewrite length_app, !length_range. lia.
  - unfold logistic_regression_no_jit. rewrite <- logistic_loop_app_no_jit.
    apply logistic_loop_length_no_jit.
    rewrite length_app, !length_range. lia.
Qed.

(** ** Shapes *)

Lemma broadcast2_ok_l (f : float -> float -> float) (u v : list float) :
  length u = length v \/ length v = 1%nat ->
  exists r, broadcast2 f u v = Ok r /\ length r = length u.
Proof.
  intros H. unfold broadcast2.
  destruct (Nat.eqb_spec (length u) (length v)) as [E | E].
  - eexists. split; [reflexivity |]. now rewrite length_zip_with_l_eq.
  - destruct H as [H | H]; [contradiction |].
    destruct v as [| c [| c' v]]; try discriminate.
    destruct u as [| x [| x' u]]; cbn in E; try contradiction;
      eexists; (split; [reflexivity |]); rewrite ?length_map; reflexivity.
Qed.

Lemma broadcast2_ok_r (f : float -> float -> float) (u v : list float) :
  length u = length v \/ length u = 1%nat ->
  exists r, broadcast2 f u v = Ok r /\ length r = length v.
Proof.
  intros H. unfold broadcast2.
  destruct (Nat.eqb_spec (length u) (length v)) as [E | E].
  - eexists. split; [reflexivity |]. rewrite length_zip_with_l_eq; auto.
  - destruct H as [H | H]; [contradiction |].
    destruct u as [| x [| x' u]]; try discriminate.
    eexists. split; [reflexivity |]. now rewrite length_map.
Qed.

(** What [broadcast2] returns has the length of one operand, and an
    operand of another length has length 1; it fails with [ValueError]
    only. *)
Lemma broadcast2_inv (f : float -> float -> float) (u v r : list float) :
  broadcast2 f u v = Ok r ->
  (length r = length u /\ (length u = length v \/ length v = 1%nat)) \/
  (length u = 1%nat /\ length r = length v).
Proof.
  unfold broadcast2.
  destruct (Nat.eqb_spec (length u) (length v)) as [E | E].
  - intros [= <-]. left. rewrite length_zip_with_l_eq; auto.
  - destruct u as [| x [| x' u]].
    + destruct v as [| c [| c' v]]; try discriminate.
      intros [= <-]. left. cbn. auto.
    + intros [= <-]. right. cbn. now rewrite ?length_map.
    + destruct v as [| c [| c' v]]; try discriminate.
      intros [= <-]. left. cbn. rewrite ?length_map. auto.
Qed.

Lemma broadcast2_exn (f : float -> float -> float) (u v : list float) (e : exn) :
  broadcast2 f u v = Raise e -> e = ValueError.
Proof.
  unfold broadcast2. destruct (length u =? length v)%nat; [discriminate |].
  destruct u as [| x [| x' u]]; destruct v as [| c [| c' v]];
    try discriminate; congruence.
Qed.

Lemma np_dot_misfit (A : ndarray2) (v : list float) :
  shape1 A <> length v -> np_dot A v = Raise ValueError.
Proof.
  intros H. unfold np_dot.
  now destruct (Nat.eqb_spec (shape1 A) (length v)).
Qed.

Lemma np_dot_misfit_no_jit (A : ndarray2) (v : list float) :
  shape1 A <> length v -> np_dot_no_jit A v = Raise ValueError.
Proof.
  intros H. unfold np_dot_no_jit.
  now destruct (Nat.eqb_spec (shape1 A) (length v)).
Qed.

Lemma np_dot_vm_misfit (u : list float) (A : ndarray2) :
  length u <> shape0 A -> np_dot_vm u A = Raise ValueError.
Proof.
  intros H. unfold np_dot_vm.
  now destruct (Nat.eqb_spec (length u) (shape0 A)).
Qed.

Lemma np_dot_vm_misfit_no_jit (u : list float) (A : ndarray2) :
  length u <> shape0 A -> np_dot_vm_no_jit u A = Raise ValueError.
Proof.
  intros H. unfold np_dot_vm_no_jit.
  now destruct (Nat.eqb_spec (length u) (shape0 A)).
Qed.

Lemma shapes_run_spec (Xa : ndarray2) (yv wv : list float) :
  shapes_run Xa yv wv = true
  <-> shape1 Xa = length wv /\
      (shape0 Xa = length yv \/ length yv = 1%nat).
Proof.
  unfold shapes_run.
  rewrite andb_true_iff, orb_true_iff, !Nat.eqb_eq. reflexivity.
Qed.

Lemma gradient_body_run (h : heap) (X y w : loc) (s : float)
  (Xa : ndarray2) (yv wv : list float) :
  h !! X = Some (Mat Xa) -> h !! y = Some (Vec yv) -> h !! w = Some (Vec wv) ->
  shapes_run Xa yv wv = true ->
  exists wv', gradient_body h X y w s = Ok wv' /\ length wv' = length wv.
Proof.
  intros HX Hy Hw Hrun. apply shapes_run_spec in Hrun as [Hp Hn].
  unfold gradient_body, load_vec, load_mat. rewrite Hw, HX, Hy. cbn [bind].
  rewrite np_dot_fits by assumption. cbn [bind].
  destruct (broadcast2_ok_l PrimFloat.sub (matvec Xa wv) yv) as (r & -> & Hr);
    [rewrite length_matvec; exact Hn |].
  rewrite length_matvec in Hr. cbn [bind].
  rewrite np_dot_fits by (cbn [T shape1]; congruence). cbn [bind].
  rewrite inplace2_fits
    by (rewrite length_map, length_matvec; cbn [T shape0]; assumption).
  eexists. split; [reflexivity |].
  rewrite length_zip_with_l_eq; [reflexivity |].
  rewrite length_map, length_matvec. cbn [T shape0]. congruence.
Qed.

Lemma gradient_body_misfit (h : heap) (X y w : loc) (s : float)
  (Xa : ndarray2) (yv wv : list float) :
  h !! X = Some (Mat Xa) -> h !! y = Some (Vec yv) -> h !! w = Some (Vec wv) ->
  shapes_run Xa yv wv = false ->
  gradient_body h X y w s = Raise ValueError.
Proof.
  intros HX Hy Hw Hrun.
  assert (Hno : ~ (shape1 Xa = length wv /\
                   (shape0 Xa = length yv \/ length yv = 1%nat)))
    by (rewrite <- shapes_run_spec; congruence).
  unfold gradient_body, load_vec, load_mat. rewrite Hw, HX, Hy. cbn [bind].
  destruct (Nat.eq_dec (shape1 Xa) (length wv)) as [Hp | Hp];
    [| now rewrite np_dot_misfit].
  rewrite np_dot_fits by assumption. cbn [bind].
  destruct (broadcast2 PrimFloat.sub (matvec Xa wv) yv) as [r | e] eqn:Hb;
    cbn [bind].
  - apply broadcast2_inv in Hb. rewrite length_matvec in Hb.
    rewrite np_dot_misfit; [reflexivity |]. cbn [T shape1]. lia.
  - apply broadcast2_exn in Hb. now subst e.
Qed.

Lemma logistic_body_run (h : heap) (y X w : loc)
  (Xa : ndarray2) (yv wv : list float) :
  h !! X = Some (Mat Xa) -> h !! y = Some (Vec yv) -> h !! w = Some (Vec wv) ->
  shapes_run Xa yv wv = true ->
  exists wv', logistic_body h y X w = Ok wv' /\ length wv' = length wv.
Proof.
  intros HX Hy Hw Hrun. apply shapes_run_spec in Hrun as [Hp Hn].
  unfold logistic_body, load_vec, load_mat. rewrite Hw, HX, Hy. cbn [bind].
  rewrite np_dot_fits by assumption. cbn [bind].
  destruct (broadcast2_ok_r PrimFloat.mul (map PrimFloat.opp yv) (matvec Xa wv))
    as (r1 & -> & Hr1);
    [rewrite length_map, length_matvec; lia |].
  rewrite length_matvec in Hr1. cbn [bind].
  destruct (broadcast2_ok_l PrimFloat.mul
              (map (fun t => (1 / (1 + np_exp t) - 1)%float) r1) yv)
    as (r2 & -> & Hr2);
    [rewrite length_map; lia |].
  rewrite length_map in Hr2. cbn [bind].
  rewrite np_dot_vm_fits by congruence. cbn [bind].
  rewrite inplace2_fits by (now rewrite length_vecmat).
  eexists. split; [reflexivity |].
  rewrite length_zip_with_l_eq; [reflexivity |].
  now rewrite length_vecmat.
Qed.

Lemma logistic_body_run_no_jit (h : heap) (y X w : loc)
  (Xa : ndarray2) (yv wv : list float) :
  h !! X = Some (Mat Xa) -> h !! y = Some (Vec yv) -> h !! w = Some (Vec wv) ->
  shapes_run Xa yv wv = true ->
  exists wv', logistic_body_no_jit h y X w = Ok wv' /\ length wv' = length wv.
Proof.
  intros HX Hy Hw Hrun. apply shapes_run_spec in Hrun as [Hp Hn].
  unfold logistic_body_no_jit, load_vec, load_mat. rewrite Hw, HX, Hy. cbn [bind].
  rewrite np_dot_fits_no_jit by assumption. cbn [bind].
  destruct (broadcast2_ok_r PrimFloat.mul (map PrimFloat.opp yv) (matvec_no_jit Xa wv))
    as (r1 & -> & Hr1);
    [rewrite length_map, length_matvec_no_jit; lia |].
  rewrite length_matvec_no_jit in Hr1. cbn [bind].
  destruct (broadcast2_ok_l PrimFloat.mul
              (map (fun t => (1 / (1 + no_jit_exp t) - 1)%float) r1) yv)
    as (r2 & -> & Hr2);
    [rewrite length_map; lia |].
  rewrite length_map in Hr2. cbn [bind].
  rewrite np_dot_vm_fits_no_jit by congruence. cbn [bind].
  rewrite inplace2_fits by (now rewrite length_vecmat_no_jit).
  eexists. split; [reflexivity |].
  rewrite length_zip_with_l_eq; [reflexivity |].
  now rewrite length_vecmat_no_jit.
Qed.

Lemma logistic_body_misfit (h : heap) (y X w : loc)
  (Xa : ndarray2) (yv wv : list float) :
  h !! X = Some (Mat Xa) -> h !! y = Some (Vec yv) -> h !! w = Some (Vec wv) ->
  shapes_run Xa yv wv = false ->
  logistic_body h y X w = Raise ValueError.
Proof.
  intros HX Hy Hw Hrun.
  assert (Hno : ~ (shape1 Xa = length wv /\
                   (shape0 Xa = length yv \/ length yv = 1%nat)))
    by (rewrite <- shapes_run_spec; congruence).
  unfold logistic_body, load_vec, load_mat. rewrite Hw, HX, Hy. cbn [bind].
  destruct (Nat.eq_dec (shape1 Xa) (length wv)) as [Hp | Hp];
    [| now rewrite np_dot_misfit].
  rewrite np_dot_fits by assumption. cbn [bind].
  destruct (broadcast2 PrimFloat.mul (map PrimFloat.opp yv) (matvec Xa wv))
    as [r1 | e] eqn:Hb1; cbn [bind];
    [| apply broadcast2_exn in Hb1; now subst e].
  apply broadcast2_inv in Hb1. rewrite length_map, length_matvec in Hb1.
  destruct (broadcast2 PrimFloat.mul
              (map (fun t => (1 / (1 + np_exp t) - 1)%float) r1) yv)
    as [r2 | e] eqn:Hb2; cbn [bind];
    [| apply broadcast2_exn in Hb2; now subst e].
  apply broadcast2_inv in Hb2. rewrite length_map in Hb2.
  rewrite np_dot_vm_misfit; [reflexivity |]. lia.
Qed.

Lemma logistic_body_misfit_no_jit (h : heap) (y X w : loc)
  (Xa : ndarray2) (yv wv : list float) :
  h !! X = Some (Mat Xa) -> h !! y = Some (Vec yv) -> h !! w = Some (Vec wv) ->
  shapes_run Xa yv wv = false ->
  logistic_body_no_jit h y X w = Raise ValueError.
Proof.
  intros HX Hy Hw Hrun.
  assert (Hno : ~ (shape1 Xa = length wv /\
                   (shape0 Xa = length yv \/ length yv = 1%nat)))
    by (rewrite <- shapes_run_spec; congruence).
  unfold logistic_body_no_jit, load_vec, load_mat. rewrite Hw, HX, Hy. cbn [bind].
  destruct (Nat.eq_dec (shape1 Xa) (length wv)) as [Hp | Hp];
    [| now rewrite np_dot_misfit_no_jit].
  rewrite np_dot_fits_no_jit by assumption. cbn [bind].
  destruct (broadcast2 PrimFloat.mul (map PrimFloat.opp yv) (matvec_no_jit Xa wv))
    as [r1 | e] eqn:Hb1; cbn [bind];
    [| apply broadcast2_exn in Hb1; now subst e].
  apply broadcast2_inv in Hb1. rewrite length_map, length_matvec_no_jit in Hb1.
  destruct (broadcast2 PrimFloat.mul
              (map (fun t => (1 / (1 + no_jit_exp t) - 1)%float) r1) yv)
    as [r2 | e] eqn:Hb2; cbn [bind];
    [| apply broadcast2_exn in Hb2; now subst e].
  apply broadcast2_inv in Hb2. rewrite length_map in Hb2.
  rewrite np_dot_vm_misfit_no_jit; [reflexivity |]. lia.
Qed.

Lemma runs_insert (h : heap) (X y w : loc) (wv wv' : list float) :
  runs h X y w -> h !! w = Some (Vec wv) -> length wv' = length wv ->
  runs (<[w := Vec wv']> h) X y w.
Proof.
  intros (Xa & yv & wv0 & HX & Hy & Hw & Hrun) Hw' Hlen.
  assert (wv0 = wv) by congruence. subst wv0.
  assert (HXw : w <> X) by congruence.
  destruct (decide (y = w)) as [-> | Hyw].
  - assert (yv = wv) by congruence. subst yv.
    exists Xa, wv', wv'. rewrite lookup_insert_ne by assumption.
    rewrite lookup_insert_eq. repeat split; auto.
    unfold shapes_run in *. now rewrite Hlen.
  - exists Xa, yv, wv'. rewrite !lookup_insert_ne by congruence.
    rewrite lookup_insert_eq. repeat split; auto.
    unfold shapes_run in *. now rewrite Hlen.
Qed.

Lemma gradient_loop_runs (X y w : loc) (s : float) (ks : list Z) (h : heap) :
  runs h X y w -> fst (gradient_loop X y w s ks h) = Ok w.
Proof.
  revert h. induction ks as [| k ks IH]; intros h Hrun; [reflexivity |].
  cbn [gradient_loop].
  pose proof Hrun as (Xa & yv & wv & HX & Hy & Hw & Hs).
  destruct (gradient_body_run h X y w s Xa yv wv) as (wv' & -> & Hlen);
    try assumption.
  apply IH. now apply (runs_insert h X y w wv wv').
Qed.

Lemma logistic_loop_runs (y X w : loc) (ks : list Z) (h : heap) :
  runs h X y w -> fst (logistic_loop y X w ks h) = Ok w.
Proof.
  revert h. induction ks as [| k ks IH]; intros h Hrun; [reflexivity |].
  cbn [logistic_loop].
  pose proof Hrun as (Xa & yv & wv & HX & Hy & Hw & Hs).
  destruct (logistic_body_run h y X w Xa yv wv) as (wv' & -> & Hlen);
    try assumption.
  apply IH. now apply (runs_insert h X y w wv wv').
Qed.

Lemma logistic_loop_runs_no_jit (y X w : loc) (ks : list Z) (h : heap) :
  runs h X y w -> fst (logistic_loop_no_jit y X w ks h) = Ok w.
Proof.
  revert h. induction ks as [| k ks IH]; intros h Hrun; [reflexivity |].
  cbn [logistic_loop_no_jit].
  pose proof Hrun as (Xa & yv & wv & HX & Hy & Hw & Hs).
  destruct (logistic_body_run_no_jit h y X w Xa yv wv) as (wv' & -> & Hlen);
    try assumption.
  apply IH. now apply (runs_insert h X y w wv wv').
Qed.

(** X11.  On a matrix [X] and vectors [y] and [w], a call of [gradient]
    with at least one iteration returns [w] when [X] has as many columns
    as [w] has entries and [y] has as many entries as [X] has rows, or
    one entry; with any other shapes it raises [ValueError] in the first
    iteration and leaves the store as it was. *)
Theorem gradient_shape_errors (h : heap) (X y w : loc) (Xa : ndarray2)
  (yv wv : list float) (step_size : float) (max_iter : Z) :
  h !! X = Some (Mat Xa) -> h !! y = Some (Vec yv) -> h !! w = Some (Vec wv) ->
  1 <= max_iter ->
  (shapes_run Xa yv wv = true ->
   fst (gradient X y w step_size max_iter h) = Ok w) /\
  (shapes_run Xa yv wv = false ->
   gradient X y w step_size max_iter h = (Raise ValueError, h)).
Proof.
  intros HX Hy Hw Hk. split; intros Hs.
  - apply gradient_loop_runs. exists Xa, yv, wv. auto.
  - unfold gradient, range.
    destruct (Z.to_nat max_iter) as [| n] eqn:En; [lia |].
    cbn [seq map gradient_loop].
    now rewrite (gradient_body_misfit h X y w step_size Xa yv wv).
Qed.

(** X12.  The same for [logistic_regression] and
    [logistic_regression_no_jit]. *)
Theorem logistic_regression_shape_errors (h : heap) (y X w : loc)
  (Xa : ndarray2) (yv wv : list float) (iterations : Z) :
  h !! X = Some (Mat Xa) -> h !! y = Some (Vec yv) -> h !! w = Some (Vec wv) ->
  1 <= iterations ->
  (shapes_run Xa yv wv = true ->
   fst (logistic_regression y X w iterations h) = Ok w /\
   fst (logistic_regression_no_jit y X w iterations h) = Ok w) /\
  (shapes_run Xa yv wv = false ->
   logistic_regression y X w iterations h = (Raise ValueError, h) /\
   logistic_regression_no_jit y X w iterations h = (Raise ValueError, h)).
Proof.
  intros HX Hy Hw Hk. split; intros Hs.
  - split; [apply logistic_loop_runs | apply logistic_loop_runs_no_jit];
      exists Xa, yv, wv; auto.
  - split.
    + unfold logistic_regression, range.
      destruct (Z.to_nat iterations) as [| n] eqn:En; [lia |].
      cbn [seq map logistic_loop].
      now rewrite (logistic_body_misfit h y X w Xa yv wv).
    + unfold logistic_regression_no_jit, range.
      destruct (Z.to_nat iterations) as [| n] eqn:En; [lia |].
      cbn [seq map logistic_loop_no_jit].
      now rewrite (logistic_body_misfit_no_jit h y X w Xa yv wv).
Qed.

Lemma inplace2_length (f : float -> float -> float) (w g w' : list float) :
  inplace2 f w g = Ok w' -> length w' = length w.
Proof.
  unfold inplace2. destruct (Nat.eqb_spec (length g) (length w)) as [E | E].
  - intros [= <-]. rewrite length_zip_with_l_eq; auto.
  - destruct g as [| c [| c' g]]; try discriminate.
    intros [= <-]. now rewrite length_map.
Qed.

Lemma gradient_body_length (h : heap) (X y w : loc) (s : float)
  (wv wv' : list float) :
  h !! w = Some (Vec wv) -> gradient_body h X y w s = Ok wv' ->
  length wv' = length wv.
Proof.
  intros Hw. unfold gradient_body, load_vec at 1. rewrite Hw. cbn [bind].
  destruct (load_mat h X) as [Xa |]; cbn [bind]; [| discriminate].
  destruct (np_dot Xa wv) as [Xw |]; cbn [bind]; [| discriminate].
  destruct (load_vec h y) as [yv |]; cbn [bind]; [| discriminate].
  destruct (broadcast2 PrimFloat.sub Xw yv) as [r |]; cbn [bind];
    [| discriminate].
  destruct (np_dot (T Xa) r) as [g |]; cbn [bind]; [| discriminate].
  apply inplace2_length.
Qed.

Lemma logistic_body_length (h : heap) (y X w : loc) (wv wv' : list float) :
  h !! w = Some (Vec wv) -> logistic_body h y X w = Ok wv' ->
  length wv' = length wv.
Proof.
  intros Hw. unfold logistic_body, load_vec at 1. rewrite Hw. cbn [bind].
  destruct (load_vec h y) as [yv |]; cbn [bind]; [| discriminate].
  destruct (load_mat h X) as [Xa |]; cbn [bind]; [| discriminate].
  destruct (np_dot Xa wv) as [Xw |]; cbn [bind]; [| discriminate].
  destruct (broadcast2 PrimFloat.mul (map PrimFloat.opp yv) Xw) as [m |];
    cbn [bind]; [| discriminate].
  destruct (broadcast2 PrimFloat.mul _ yv) as [u |]; cbn [bind];
    [| discriminate].
  destruct (np_dot_vm u Xa) as [g |]; cbn [bind]; [| discriminate].
  apply inplace2_length.
Qed.

Lemma logistic_body_length_no_jit (h : heap) (y X w : loc) (wv wv' : list float) :
  h !! w = Some (Vec wv) -> logistic_body_no_jit h y X w = Ok wv' ->
  length wv' = length wv.
Proof.
  intros Hw. unfold logistic_body_no_jit, load_vec at 1. rewrite Hw. cbn [bind].
  destruct (load_vec h y) as [yv |]; cbn [bind]; [| discriminate].
  destruct (load_mat h X) as [Xa |]; cbn [bind]; [| discriminate].
  destruct (np_dot_no_jit Xa wv) as [Xw |]; cbn [bind]; [| discriminate].
  destruct (broadcast2 PrimFloat.mul (map PrimFloat.opp yv) Xw) as [m |];
    cbn [bind]; [| discriminate].
  destruct (broadcast2 PrimFloat.mul _ yv) as [u |]; cbn [bind];
    [| discriminate].
  destruct (np_dot_vm_no_jit u Xa) as [g |]; cbn [bind]; [| discriminate].
  apply inplace2_length.
Qed.

Lemma gradient_loop_keeps_length (X y w : loc) (s : float) (ks : list Z)
  (h : heap) (wv : list float) :
  h !! w = Some (Vec wv) ->
  exists wv', snd (gradient_loop X y w s ks h) !! w = Some (Vec wv') /\
              length wv' = length wv.
Proof.
  revert h wv. induction ks as [| k ks IH]; intros h wv Hw; cbn [gradient_loop].
  - eauto.
  - destruct (gradient_body h X y w s) as [wv1 |] eqn:Hb; [| eauto].
    apply (gradient_body_length h X y w s wv wv1 Hw) in Hb.
    destruct (IH (<[w := Vec wv1]> h) wv1) as (wv' & Hl & Hlen);
      [apply lookup_insert_eq |].
    exists wv'. split; [exact Hl | congruence].
Qed.

Lemma logistic_loop_keeps_length (y X w : loc) (ks : list Z) (h : heap)
  (wv : list float) :
  h !! w = Some (Vec wv) ->
  exists wv', snd (logistic_loop y X w ks h) !! w = Some (Vec wv') /\
              length wv' = length wv.
Proof.
  revert h wv. induction ks as [| k ks IH]; intros h wv Hw; cbn [logistic_loop].
  - eauto.
  - destruct (logistic_body h y X w) as [wv1 |] eqn:Hb; [| eauto].
    apply (logistic_body_length h y X w wv wv1 Hw) in Hb.
    destruct (IH (<[w := Vec wv1]> h) wv1) as (wv' & Hl & Hlen);
      [apply lookup_insert_eq |].
    exists wv'. split; [exact Hl | congruence].
Qed.

Lemma logistic_loop_keeps_length_no_jit (y X w : loc) (ks : list Z) (h : heap)
  (wv : list float) :
  h !! w = Some (Vec wv) ->
  exists wv', snd (logistic_loop_no_jit y X w ks h) !! w = Some (Vec wv') /\
              length wv' = length wv.
Proof.
  revert h wv. induction ks as [| k ks IH]; intros h wv Hw; cbn [logistic_loop_no_jit].
  - eauto.
  - destruct (logistic_body_no_jit h y X w) as [wv1 |] eqn:Hb; [| eauto].
    apply (logistic_body_length_no_jit h y X w wv wv1 Hw) in Hb.
    destruct (IH (<[w := Vec wv1]> h) wv1) as (wv' & Hl & Hlen);
      [apply lookup_insert_eq |].
    exists wv'. split; [exact Hl | congruence].
Qed.

(** X13.  Whatever the other arguments and whether the call returns or
    raises, a solver leaves in [w] a vector of the length that [w] had
    when the call began. *)
Theorem solvers_keep_length_of_w (h : heap) (X y w : loc) (wv : list float)
  (step_size : float) (k : Z) :
  h !! w = Some (Vec wv) ->
  (exists wv', snd (gradient X y w step_size k h) !! w = Some (Vec wv') /\
               length wv' = length wv) /\
  (exists wv', snd (logistic_regression y X w k h) !! w = Some (Vec wv') /\
               length wv' = length wv) /\
  (exists wv', snd (logistic_regression_no_jit y X w k h) !! w = Some (Vec wv') /\
               length wv' = length wv).
Proof.
  intros Hw. split; [| split].
  - now apply gradient_loop_keeps_length.
  - now apply logistic_loop_keeps_length.
  - now apply logistic_loop_keeps_length_no_jit.
Qed.

(** ** Updates that vanish *)

Lemma is_zero_SF (z : float) :
  is_zero z = true <-> exists s, Prim2SF z = S754_zero s.
Proof.
  unfold is_zero. rewrite FloatAxioms.eqb_spec.
  replace (Prim2SF zero) with (S754_zero false) by reflexivity.
  destruct (Prim2SF z) as [[|] | [|] | | [|] m e]; cbn; split; intros H;
    try discriminate H; try reflexivity; eauto;
    destruct H as [s' H]; discriminate H.
Qed.

Lemma SF_zero (x : float) : Prim2SF x = S754_zero false -> x = 0%float.
Proof. intros H. apply Prim2SF_inj. now rewrite H. Qed.

(** Adding the product of a zero and a finite number to [0.0] gives
    [0.0]. *)
Lemma float_acc_zero_l (z a : float) :
  is_zero z = true -> is_finite a = true -> (0 + z * a)%float = 0%float.
Proof.
  intros Hz Ha. apply is_zero_SF in Hz as [s Hz]. apply SF_zero.
  rewrite FloatAxioms.add_spec, FloatAxioms.mul_spec, Prim2SF_zero, Hz.
  destruct (is_finite_SF a Ha) as [[sa ->] | (sa & m & e & ->)];
    cbn; now destruct (xorb s sa).
Qed.

Lemma float_acc_zero_r (a z : float) :
  is_finite a = true -> is_zero z = true -> (0 + a * z)%float = 0%float.
Proof.
  intros Ha Hz. apply is_zero_SF in Hz as [s Hz]. apply SF_zero.
  rewrite FloatAxioms.add_spec, FloatAxioms.mul_spec, Prim2SF_zero, Hz.
  destruct (is_finite_SF a Ha) as [[sa ->] | (sa & m & e & ->)];
    cbn; now destruct (xorb sa s).
Qed.

Lemma float_sub_self (x : float) : is_finite x = true -> (x - x)%float = 0%float.
Proof.
  intros Hx. apply SF_zero. rewrite FloatAxioms.sub_spec.
  destruct (is_finite_SF x Hx) as [[s ->] | (s & m & e & ->)].
  - now destruct s.
  - unfold SF64sub, SFsub. now rewrite Z.sub_diag.
Qed.

Lemma float_zero_mul_finite (y : float) :
  is_finite y = true -> is_zero (0 * y)%float = true.
Proof.
  intros Hy. apply is_zero_SF.
  rewrite FloatAxioms.mul_spec, Prim2SF_zero.
  destruct (is_finite_SF y Hy) as [[s ->] | (s & m & e & ->)]; cbn; eauto.
Qed.

Lemma float_pos_mul_zero (s : float) :
  (0 <? s)%float = true -> is_finite s = true -> (s * 0)%float = 0%float.
Proof.
  intros Hpos Hfin. apply SF_zero.
  rewrite FloatAxioms.ltb_spec, Prim2SF_zero in Hpos.
  rewrite FloatAxioms.mul_spec, Prim2SF_zero.
  destruct (is_finite_SF s Hfin) as [[b Hs] | (b & m & e & Hs)];
    rewrite Hs in *; [discriminate |].
  destruct b; [discriminate | reflexivity].
Qed.

Lemma float_sub_zero_r (w : float) : (w - 0)%float = w.
Proof.
  apply Prim2SF_inj. rewrite FloatAxioms.sub_spec, Prim2SF_zero.
  now destruct (Prim2SF w) as [[|] | s | | s m e].
Qed.

Lemma is_zero_nth (u : list float) (i : nat) :
  Forall (fun z => is_zero z = true) u -> is_zero (nth i u 0%float) = true.
Proof.
  intros H. revert i. induction H as [| z u Hz _ IH]; intros [| i];
    cbn [nth]; auto.
Qed.

Lemma fold_left_stays_zero (f : float -> nat -> float) (l : list nat) :
  (forall j, In j l -> f 0%float j = 0%float) -> fold_left f l 0%float = 0%float.
Proof.
  induction l as [| j l IH]; intros H; [reflexivity |].
  cbn [fold_left]. rewrite H by now left. apply IH. intros k Hk. apply H. now right.
Qed.

Lemma matvec_T_zero (Xa : ndarray2) (r : list float) :
  finite_entries Xa -> Forall (fun z => is_zero z = true) r ->
  matvec (T Xa) r = map (fun _ => 0%float) (seq 0 (shape1 Xa)).
Proof.
  intros HX Hr. unfold matvec. cbn [T shape0 shape1].
  apply map_ext_in. intros j Hj. apply in_seq in Hj.
  apply fold_left_stays_zero. intros i Hi. apply in_seq in Hi.
  rewrite item_T. apply float_acc_zero_r; [apply HX; lia | now apply is_zero_nth].
Qed.

Lemma vecmat_zero (u : list float) (Xa : ndarray2) :
  finite_entries Xa -> Forall (fun z => is_zero z = true) u ->
  vecmat u Xa = map (fun _ => 0%float) (seq 0 (shape1 Xa)).
Proof.
  intros HX Hu. unfold vecmat.
  apply map_ext_in. intros j Hj. apply in_seq in Hj.
  apply fold_left_stays_zero. intros i Hi. apply in_seq in Hi.
  apply float_acc_zero_l; [now apply is_zero_nth | apply HX; lia].
Qed.

Lemma zip_with_sub_zeros (wv : list float) (l : list nat) (c : float) :
  length l = length wv -> c = 0%float ->
  zip_with PrimFloat.sub wv (map (fun _ => c) l) = wv.
Proof.
  intros Hlen ->. revert l Hlen. induction wv as [| x wv IH]; intros [| j l] Hlen;
    try discriminate; [reflexivity |].
  cbn [map zip_with]. rewrite float_sub_zero_r. f_equal. apply IH.
  now injection Hlen.
Qed.

Lemma zip_with_sub_self (yv : list float) :
  Forall (fun x => is_finite x = true) yv ->
  Forall (fun z => is_zero z = true) (zip_with PrimFloat.sub yv yv).
Proof.
  intros H. induction H as [| x yv Hx _ IH]; cbn [zip_with]; constructor; auto.
  now rewrite float_sub_self.
Qed.

Lemma iter_fixed {A : Type} (f : A -> A) (x : A) (n : nat) :
  f x = x -> Nat.iter n f x = x.
Proof.
  intros H. induction n as [| n IH]; [reflexivity |].
  cbn [Nat.iter nat_rect]. unfold Nat.iter in IH. now rewrite IH.
Qed.

(** X14.  An exact solution is a fixed point of [gradient]: when the
    entries of [X] and [y] are finite, [X.dot(w)] equals [y] entry for
    entry and the step is positive and finite, the gradient is [0.0] in
    every entry and any number of iterations returns [w] with the store
    unchanged. *)
Theorem gradient_fixed_point (h : heap) (X y w : loc) (Xa : ndarray2)
  (yv wv : list float) (step_size : float) (max_iter : Z) :
  h !! X = Some (Mat Xa) -> h !! y = Some (Vec yv) -> h !! w = Some (Vec wv) ->
  shape1 Xa = length wv ->
  finite_entries Xa -> Forall (fun x => is_finite x = true) yv ->
  matvec Xa wv = yv ->
  (0 <? step_size)%float = true -> is_finite step_size = true ->
  gradient_at Xa yv wv = map (fun _ => 0%float) (seq 0 (shape1 Xa)) /\
  gradient X y w step_size max_iter h = (Ok w, h).
Proof.
  intros HX Hy Hw Hp HfX Hfy Hsol Hpos Hfin.
  assert (Hn : shape0 Xa = length yv) by (now rewrite <- Hsol, length_matvec).
  assert (Hg : gradient_at Xa yv wv = map (fun _ => 0%float) (seq 0 (shape1 Xa))).
  { unfold gradient_at. rewrite Hsol.
    apply matvec_T_zero; [assumption | now apply zip_with_sub_self]. }
  split; [exact Hg |].
  unfold gradient.
  rewrite gradient_loop_fits by (exists Xa, yv, wv; auto).
  f_equal. apply iter_fixed.
  unfold gradient_assign. rewrite HX, Hy, Hw.
  unfold gradient_formula. rewrite Hg, map_map.
  rewrite zip_with_sub_zeros.
  - now apply insert_id.
  - now rewrite length_seq.
  - now apply float_pos_mul_zero.
Qed.

Lemma saturated_factors (exp : float -> float) (m yv : list float) :
  Forall (fun t => exp t = 0%float) m ->
  Forall (fun x => is_finite x = true) yv ->
  Forall (fun z => is_zero z = true)
    (zip_with PrimFloat.mul
       (map (fun t => (1 / (1 + exp t) - 1)%float) m) yv).
Proof.
  intros Hexp. revert yv.
  induction Hexp as [| t m Ht _ IH]; intros yv Hfy; [constructor |].
  destruct Hfy as [| yi yv Hyi Hfy]; [constructor |].
  cbn [map zip_with]. constructor; [| now apply IH].
  rewrite Ht. change (1 / (1 + 0) - 1)%float with 0%float.
  now apply float_zero_mul_finite.
Qed.

(** X15.  Saturated predictions stop the logistic solver: when the entries
    of [X] and [y] are finite and [exp] returns [0.0] on every entry of
    [-y * X.dot(w)], the factor [1 / (1 + exp(..)) - 1] is [0.0], the
    update is [0.0] in every entry and any number of iterations returns
    [w] with the store unchanged.  For the undecorated function the
    condition is on NumPy's [exp] and [dot]: the first returns [0.0] on
    the entries that NumPy computes, and the second returns zeros for a
    vector of zeros. *)
Theorem logistic_regression_saturated (h : heap) (y X w : loc) (Xa : ndarray2)
  (yv wv : list float) (iterations : Z) :
  h !! X = Some (Mat Xa) -> h !! y = Some (Vec yv) -> h !! w = Some (Vec wv) ->
  shape1 Xa = length wv -> shape0 Xa = length yv ->
  finite_entries Xa -> Forall (fun x => is_finite x = true) yv ->
  Forall (fun t => np_exp t = 0%float)
         (zip_with PrimFloat.mul (map PrimFloat.opp yv) (matvec Xa wv)) ->
  logistic_formula Xa yv wv = wv /\
  logistic_regression y X w iterations h = (Ok w, h) /\
  (Forall (fun t => no_jit_exp t = 0%float)
          (zip_with PrimFloat.mul (map PrimFloat.opp yv) (matvec_no_jit Xa wv)) ->
   (forall u, Forall (fun z => is_zero z = true) u ->
              vecmat_no_jit u Xa = map (fun _ => 0%float) (seq 0 (shape1 Xa))) ->
   logistic_regression_no_jit y X w iterations h = (Ok w, h)).
Proof.
  intros HX Hy Hw Hp Hn HfX Hfy Hexp.
  assert (Hf : logistic_formula Xa yv wv = wv).
  { unfold logistic_formula.
    rewrite vecmat_zero by (try assumption; now apply saturated_factors).
    apply zip_with_sub_zeros; [now rewrite length_seq | reflexivity]. }
  assert (Hrun : logistic_regression y X w iterations h = (Ok w, h)).
  { unfold logistic_regression.
    rewrite logistic_loop_fits by (exists Xa, yv, wv; auto).
    f_equal. apply iter_fixed.
    unfold logistic_assign. rewrite HX, Hy, Hw, Hf. now apply insert_id. }
  split; [exact Hf |]. split; [exact Hrun |].
  intros Hexp' Hdot.
  assert (Hf' : logistic_formula_no_jit Xa yv wv = wv).
  { unfold logistic_formula_no_jit.
    rewrite Hdot by (now apply saturated_factors).
    apply zip_with_sub_zeros; [now rewrite length_seq | reflexivity]. }
  unfold logistic_regression_no_jit.
  rewrite logistic_loop_fits_no_jit by (exists Xa, yv, wv; auto).
  f_equal. apply iter_fixed.
  unfold logistic_assign_no_jit. rewrite HX, Hy, Hw, Hf'. now apply insert_id.
Qed.

(** ** The cells of the notebook *)

Lemma shapes_fit_gradient_iter (h : heap) (X y w : loc) (s : float) (n : nat) :
  shapes_fit h X y w -> shapes_fit (Nat.iter n (gradient_assign X y w s) h) X y w.
Proof.
  intros H. induction n as [| n IH]; [exact H |].
  cbn [Nat.iter nat_rect]. now apply gradient_assign_fits.
Qed.

Lemma shapes_fit_logistic_iter (h : heap) (y X w : loc) (n : nat) :
  shapes_fit h X y w -> shapes_fit (Nat.iter n (logistic_assign y X w) h) X y w.
Proof.
  intros H. induction n as [| n IH]; [exact H |].
  cbn [Nat.iter nat_rect]. now apply logistic_assign_fits.
Qed.

Lemma shapes_fit_logistic_iter_no_jit (h : heap) (y X w : loc) (n : nat) :
  shapes_fit h X y w -> shapes_fit (Nat.iter n (logistic_assign_no_jit y X w) h) X y w.
Proof.
  intros H. induction n as [| n IH]; [exact H |].
  cbn [Nat.iter nat_rect]. now apply logistic_assign_fits_no_jit.
Qed.

Lemma iter_add {A : Type} (f : A -> A) (x : A) (n m : nat) :
  Nat.iter n f (Nat.iter m f x) = Nat.iter (m + n) f x.
Proof.
  induction n as [| n IH].
  - now rewrite Nat.add_0_r.
  - rewrite Nat.add_succ_r. unfold Nat.iter in *. cbn [nat_rect].
    now rewrite IH.
Qed.

Lemma length_setitem_from (v : list float) (start : Z) (c : float) :
  length (setitem_from v start c) = length v.
Proof.
  unfold setitem_from. rewrite length_app, length_firstn, repeat_length. lia.
Qed.

Lemma setitem_from_half (v : list float) (c : float) :
  setitem_from v (Z.of_nat (length v) / 2) c
  = firstn (length v / 2) v ++ repeat c (length v - length v / 2).
Proof.
  unfold setitem_from.
  assert (H : 0 <= Z.of_nat (length v) / 2 <= Z.of_nat (length v)).
  { split; [apply Z.div_pos; lia |].
    apply Z.div_le_upper_bound; lia. }
  destruct (Z.ltb_spec (Z.of_nat (length v) / 2) 0) as [Hneg | _]; [lia |].
  replace (Z.to_nat (Z.min (Z.of_nat (length v) / 2) (Z.of_nat (length v))))
    with (length v / 2)%nat; [reflexivity |].
  rewrite Z.min_l by lia.
  change 2 with (Z.of_nat 2). rewrite <- Nat2Z.inj_div. now rewrite Nat2Z.id.
Qed.

(** X16.  The regression cells.  If [np.random.randn] returns as many
    values as it is asked for, the store that the first cell builds holds
    an [n_samples] x [n_features] matrix [X], a vector [y] of length
    [n_samples] whose second half (from index [n_samples // 2]) is zero,
    and a [w] of [n_features] zeros; on it both calls [gradient(X, y, w)]
    return, [X] and [y] are as before, and since the second call starts
    from the [w] that the first one left, [w] holds the iterate number
    2000 of the update from zeros, not the iterate number 1000. *)
Theorem regression_cells (n_samples n_features : nat) (g : rng_state) :
  (forall k g', length (fst (np_random_randn k g')) = k) ->
  let h0 := fst (setup_regression n_samples n_features g) in
  exists Xa yd,
    length yd = n_samples /\
    let yv := firstn (n_samples / 2) yd
              ++ repeat 0%float (n_samples - n_samples / 2) in
    h0 !! X_obj = Some (Mat Xa) /\
    shape0 Xa = n_samples /\ shape1 Xa = n_features /\
    h0 !! y_obj = Some (Vec yv) /\
    h0 !! w_obj = Some (Vec (np_zeros n_features)) /\
    run_gradient h0
    = (Ok w_obj,
       <[w_obj := Vec (Nat.iter 2000
                         (gradient_formula Xa yv default_step_size)
                         (np_zeros n_features))]> h0).
Proof.
  intros Hlen h0. subst h0. unfold setup_regression.
  destruct (np_random_randn (n_samples * n_features) g) as [Xd g1].
  pose proof (Hlen n_samples g1) as Hyd.
  destruct (np_random_randn n_samples g1) as [yd g2]. cbn [fst] in *.
  exists (mk_ndarray2 n_samples n_features n_features 1 Xd), yd.
  split; [exact Hyd |]. cbv zeta.
  assert (Hset : setitem_from yd (Z.of_nat n_samples / 2) 0
                 = firstn (n_samples / 2) yd
                   ++ repeat 0%float (n_samples - n_samples / 2))
    by (rewrite <- Hyd; apply setitem_from_half).
  rewrite Hset. clear Hset.
  set (Xa := mk_ndarray2 n_samples n_features n_features 1 Xd).
  set (yv := firstn (n_samples / 2) yd
             ++ repeat 0%float (n_samples - n_samples / 2)).
  set (h0 := <[w_obj := Vec (np_zeros n_features)]>
               (<[y_obj := Vec yv]> (<[X_obj := Mat Xa]> ∅))).
  assert (HX : h0 !! X_obj = Some (Mat Xa)) by reflexivity.
  assert (Hy : h0 !! y_obj = Some (Vec yv)) by reflexivity.
  assert (Hw : h0 !! w_obj = Some (Vec (np_zeros n_features))) by reflexivity.
  assert (Hfit : shapes_fit h0 X_obj y_obj w_obj).
  { exists Xa, yv, (np_zeros n_features). repeat split; try assumption.
    - unfold np_zeros. now rewrite repeat_length.
    - unfold yv. rewrite length_app, length_firstn, repeat_length. cbn. lia. }
  repeat split; try assumption.
  unfold run_gradient, gradient.
  rewrite gradient_loop_fits by assumption.
  rewrite gradient_loop_fits by (now apply shapes_fit_gradient_iter).
  rewrite iter_add, length_range.
  change (Z.to_nat default_max_iter + Z.to_nat default_max_iter)%nat
    with 2000%nat.
  apply (f_equal (pair (Ok w_obj))). now apply gradient_assign_iter.
Qed.

Lemma labels_are_signs (bits : list Z) :
  Forall (fun b => 0 <= b < 2) bits ->
  Forall (fun v => v = (-1)%float \/ v = 1%float)
         (map (fun b => float_of_int (b * 2 - 1)) bits).
Proof.
  intros H. induction H as [| b bits Hb _ IH]; cbn [map]; constructor; auto.
  assert (Hc : b = 0 \/ b = 1) by lia.
  destruct Hc as [-> | ->]; [left | right]; reflexivity.
Qed.

(** X17.  The classification cells.  If [np.random.randint(2, size=k)]
    returns [k] integers that are 0 or 1, then on a store with an
    [n_samples] x [n_features] matrix [X] the labels are [n_samples]
    values that are each [-1.0] or [1.0], [w] starts as [n_features]
    zeros, the three calls return, and because they share [w] it ends as
    what [2 * n_iterations] updates of the compiled function make of the
    result of [n_iterations] updates of the undecorated function from
    zeros. *)
Theorem classification_cells (n_samples n_features : nat) (n_iterations : Z)
  (h : heap) (g : rng_state) (Xa : ndarray2) :
  (forall k g', length (fst (np_random_randint 2 k g')) = k /\
                Forall (fun b => 0 <= b < 2) (fst (np_random_randint 2 k g'))) ->
  h !! X_obj = Some (Mat Xa) ->
  shape0 Xa = n_samples -> shape1 Xa = n_features ->
  let h1 := fst (setup_classification n_samples n_features h g) in
  exists yv,
    h1 !! labels_obj = Some (Vec yv) /\
    length yv = n_samples /\
    Forall (fun v => v = (-1)%float \/ v = 1%float) yv /\
    h1 !! w_logistic_obj = Some (Vec (np_zeros n_features)) /\
    run_logistic n_iterations h1
    = (Ok w_logistic_obj,
       <[w_logistic_obj :=
           Vec (Nat.iter (2 * Z.to_nat n_iterations)
                  (logistic_formula Xa yv)
                  (Nat.iter (Z.to_nat n_iterations)
                     (logistic_formula_no_jit Xa yv)
                     (np_zeros n_features)))]> h1).
Proof.
  intros Hgen HX Hn Hp h1. subst h1. unfold setup_classification.
  destruct (Hgen n_samples g) as [Hlen Hbits].
  destruct (np_random_randint 2 n_samples g) as [bits g1]. cbn [fst] in *.
  set (yv := map (fun b => float_of_int (b * 2 - 1)) bits).
  set (h1 := <[w_logistic_obj := Vec (np_zeros n_features)]>
               (<[labels_obj := Vec yv]> h)).
  exists yv.
  assert (HX1 : h1 !! X_obj = Some (Mat Xa))
    by (unfold h1; now rewrite !lookup_insert_ne by discriminate).
  assert (Hy : h1 !! labels_obj = Some (Vec yv))
    by (unfold h1; rewrite lookup_insert_ne by discriminate;
        apply lookup_insert_eq).
  assert (Hw : h1 !! w_logistic_obj = Some (Vec (np_zeros n_features)))
    by apply lookup_insert_eq.
  assert (Hyl : length yv = n_samples) by (unfold yv; now rewrite length_map).
  assert (Hfit : shapes_fit h1 X_obj labels_obj w_logistic_obj).
  { exists Xa, yv, (np_zeros n_features). repeat split; try assumption.
    - unfold np_zeros. now rewrite repeat_length.
    - congruence. }
  repeat split; try assumption; [now apply labels_are_signs |].
  unfold run_logistic, logistic_regression_no_jit, logistic_regression.
  rewrite logistic_loop_fits_no_jit by assumption.
  rewrite logistic_loop_fits by (now apply shapes_fit_logistic_iter_no_jit).
  rewrite logistic_loop_fits
    by (now apply shapes_fit_logistic_iter, shapes_fit_logistic_iter_no_jit).
  rewrite iter_add, length_range.
  replace (Z.to_nat n_iterations + Z.to_nat n_iterations)%nat
    with (2 * Z.to_nat n_iterations)%nat by lia.
  apply (f_equal (pair (Ok w_logistic_obj))).
  rewrite (logistic_assign_iter_no_jit h1 labels_obj X_obj w_logistic_obj
             Xa yv (np_zeros n_features)) by (try assumption; discriminate).
  rewrite (logistic_assign_iter _ labels_obj X_obj w_logistic_obj Xa yv
             (Nat.iter (Z.to_nat n_iterations) (logistic_formula_no_jit Xa yv)
                (np_zeros n_features))).
  - apply insert_insert_eq.
  - now rewrite lookup_insert_ne by discriminate.
  - now rewrite lookup_insert_ne by discriminate.
  - apply lookup_insert_eq.
  - discriminate.
Qed.

End Numba.

(** * The claims on concrete inputs *)

(** [gradient] on [heap_small], two iterations with step 1/8. *)
Lemma gradient_runs_every_update_witness :
  gradient 1 2 3 0.125 2 heap_small
  = (Ok 3%positive, Nat.iter 2 (gradient_assign 1 2 3 0.125) heap_small).
Proof.
  exact (proj1 (gradient_runs_every_update heap_small 1 2 3
                  (mk_ndarray2 3 2 2 1 [1; 0; 0; 1; 1; 1]%float)
                  [1; 2; 3]%float [0; 0]%float 0.125 2
                  eq_refl eq_refl eq_refl eq_refl eq_refl)).
Defined.

(** [logistic_regression] on [heap_labels], two iterations. *)
Lemma logistic_regression_runs_every_update_witness :
  logistic_regression exp_sample 2 1 3 2 heap_labels
  = (Ok 3%positive, Nat.iter 2 (logistic_assign exp_sample 2 1 3) heap_labels).
Proof.
  exact (proj1 (logistic_regression_runs_every_update exp_sample heap_labels 2 1 3
                  (mk_ndarray2 3 2 2 1 [1; 0; 0; 1; 1; 1]%float)
                  [1; -1; 1]%float [0; 0]%float 2
                  eq_refl eq_refl eq_refl eq_refl eq_refl)).
Defined.

(** The reduction on the 3 x 3 array. *)
Lemma go_slow_sums_tanh_above_diagonal_witness :
  go_slow tanh_sample arange9
  = Ok (fsum (tanh_terms tanh_sample arange9)) /\
  go_fast tanh_sample arange9
  = Some (fsum (jit_tanh_terms tanh_sample arange9)).
Proof.
  assert (Hcov : covers arange9)
    by (intros i j Hi Hj; cbn in *; lia).
  pose proof (proj1 (go_slow_sums_tanh_above_diagonal tanh_sample tanh_sample
                       arange9 ltac:(cbn; lia) ltac:(cbn; lia))) as [Hs Hf].
  exact (conj Hs (Hf Hcov)).
Defined.

(** On the 3 x 2 array the subscript [(1, 2)] is outside the array:
    [go_slow] stops there, and [go_fast] reads the position 4 of the
    buffer, the entry [a[2, 0]]; neither returns the sum of the claim. *)
Lemma go_slow_tall_counterexample :
  (2 <= shape0 arange6_tall)%nat /\
  go_slow tanh_sample arange6_tall = Raise IndexError /\
  go_fast tanh_sample arange6_tall
  = Some (0 + tanh_sample 1 + tanh_sample 4)%float /\
  go_slow tanh_sample arange6_tall
  <> Ok (fsum (tanh_terms tanh_sample arange6_tall)).
Proof.
  split; [cbn; lia |]. split; [reflexivity |]. split; [reflexivity |].
  discriminate.
Qed.

(** Four samples from the sample generator. *)
Lemma monte_carlo_pi_estimate_witness :
  (1 <= 4 < 2 ^ 63) /\
  fst (monte_carlo_pi norm_sample Z lcg_rand 4 42)
  = Ok (4 * float_of_int (inside_count norm_sample
                            (draws Z lcg_rand 4 42%Z)) / float_of_int 4)%float.
Proof.
  assert (H : 1 <= 4 < 2 ^ 63) by (split; [lia | reflexivity]).
  split; [exact H |].
  exact (f_equal fst (proj1 (monte_carlo_pi_estimate norm_sample Z lcg_rand 4 42 H))).
Defined.

(** The reduction on an array with one row returns 0. *)
Lemma go_slow_few_rows_returns_zero_witness :
  (shape0 arange3_row < 2)%nat /\
  go_slow tanh_sample arange3_row = Ok 0%float /\
  go_fast tanh_sample arange3_row = Some 0%float.
Proof.
  assert (H : (shape0 arange3_row < 2)%nat) by (cbn; lia).
  split; [exact H |].
  exact (go_slow_few_rows_returns_zero tanh_sample tanh_sample arange3_row H).
Defined.

(** The same array: the reduction does not fail. *)
Lemma go_slow_one_row_counterexample :
  (shape0 arange3_row < 2)%nat /\
  go_slow tanh_sample arange3_row <> Raise IndexError /\
  go_slow tanh_sample arange3_row = Ok 0%float /\
  go_fast tanh_sample arange3_row = Some 0%float.
Proof.
  split; [cbn; lia |]. split; [discriminate |]. split; reflexivity.
Qed.

(** A negative sample count: no draw, no error, and [-0.0] returned. *)
Lemma monte_carlo_pi_errors_witness :
  (- 2 ^ 63 <= -3 < 2 ^ 63) /\
  monte_carlo_pi norm_sample Z lcg_rand (-3) 42 = (Ok neg_zero, 42).
Proof.
  assert (H : - 2 ^ 63 <= -3 < 2 ^ 63) by (split; [discriminate | reflexivity]).
  split; [exact H |].
  refine (proj2 (proj2 (monte_carlo_pi_errors norm_sample Z lcg_rand (-3) 42 H)) _).
  reflexivity.
Defined.

Lemma monte_carlo_pi_negative_counterexample :
  -1 <= 0 /\
  monte_carlo_pi norm_sample Z lcg_rand (-1) 42 = (Ok neg_zero, 42) /\
  fst (monte_carlo_pi norm_sample Z lcg_rand (-1) 42) <> Raise ZeroDivisionError.
Proof.
  split; [lia |]. split; [vm_compute; reflexivity |].
  vm_compute. discriminate.
Qed.

(** A zero step on [heap_small]: the gradient at [w = [0, 0]] is
    [[-4, -5]]. *)
Lemma gradient_zero_step_keeps_w_witness :
  gradient 1 2 3 0 5 heap_small = (Ok 3%positive, heap_small).
Proof.
  refine (gradient_zero_step_keeps_w heap_small 1 2 3
            (mk_ndarray2 3 2 2 1 [1; 0; 0; 1; 1; 1]%float)
            [1; 2; 3]%float [0; 0]%float 5
            eq_refl eq_refl eq_refl eq_refl eq_refl _ _).
  - repeat constructor.
  - repeat constructor; apply float_neq; reflexivity.
Defined.

(** A zero step with finite inputs whose product overflows: [w] becomes
    NaN. *)
Lemma gradient_zero_step_counterexample :
  heap_overflow !! 3%positive = Some (Vec [0x1p600%float]) /\
  gradient 1 2 3 0 1 heap_overflow
  = (Ok 3%positive, <[3%positive := Vec [nan]]> heap_overflow) /\
  snd (gradient 1 2 3 0 1 heap_overflow) !! 3%positive = Some (Vec [nan]).
Proof. repeat split. Qed.

(** A zero step on [w = [-0.0]] with a negative gradient: the entry
    becomes [0.0]. *)
Remark gradient_zero_step_negative_zero :
  gradient 1 2 3 0 1 heap_neg_zero
  = (Ok 3%positive, <[3%positive := Vec [0%float]]> heap_neg_zero).
Proof. reflexivity. Qed.

(** [gradient] and [logistic_regression] on the three buffers of
    [memory_small]. *)
Lemma solvers_write_only_w_witness :
  read1 (snd (gradient_views X_small y_small w_small 0.125 2 memory_small))
    y_small
  = [1; 2; 3]%float /\
  read1 (snd (gradient_views X_small y_small w_small 0.125 2 memory_small))
    w_small
  = Nat.iter 2
      (gradient_formula (read2 memory_small X_small)
         (read1 memory_small y_small) 0.125)
      (read1 memory_small w_small) /\
  read1 (snd (logistic_regression_views exp_sample y_small X_small w_small 2
                memory_small)) y_small
  = [1; 2; 3]%float.
Proof.
  pose proof (solvers_write_only_w exp_sample memory_small X_small y_small
                w_small 0.125 2 eq_refl eq_refl) as H.
  cbv zeta in H.
  destruct H as [(_ & Hy & _ & _ & Hw) (_ & Hy' & _)].
  split; [exact Hy |]. split; [| exact Hy'].
  exact (proj2 (Hw eq_refl eq_refl eq_refl ltac:(cbn; lia) eq_refl eq_refl)).
Defined.

(** One array passed both as [y] and as [w]: the call changes [y]. *)
Lemma solvers_alias_counterexample :
  heap_alias !! 2%positive = Some (Vec [1%float]) /\
  gradient 1 2 2 0.5 1 heap_alias
  = (Ok 2%positive, <[2%positive := Vec [0%float]]> heap_alias) /\
  snd (gradient 1 2 2 0.5 1 heap_alias) !! 2%positive = Some (Vec [0%float]).
Proof. repeat split. Qed.

(** A row of [X] passed as [w]: two array objects, one buffer, and the
    call changes [X]. *)
Remark solvers_row_view_example :
  shares_memory (base1 w_row) (cells1 w_row) (base2 X_row) (cells2 X_row)
  = true /\
  item (read2 memory_row X_row) 0 0 = 2%float /\
  item (read2 (snd (gradient_views X_row y_row w_row 0.5 1 memory_row)) X_row)
    0 0
  = (-1)%float.
Proof. repeat split. Qed.



(** The subscripts on the 3 x 3 array. *)
Lemma go_slow_in_bounds_iff_wide_witness :
  (2 <= shape0 arange9)%nat /\
  ((exists v, go_slow tanh_sample arange9 = Ok v)
   <-> (shape0 arange9 <= shape1 arange9)%nat).
Proof.
  assert (H : (2 <= shape0 arange9)%nat) by (cbn; lia).
  split; [exact H |].
  exact (proj1 (proj2 (go_slow_in_bounds_iff_wide tanh_sample tanh_sample
                         arange9 H))).
Defined.

(** * The further properties on concrete inputs *)

(** The sample generators return as many values as they are asked for,
    and the sample integers are below [high]. *)
Lemma length_lcg_rand (k : nat) (g : Z) : length (fst (lcg_rand k g)) = k.
Proof.
  revert g. induction k as [| k IH]; intros g; [reflexivity |].
  cbn [lcg_rand]. specialize (IH (lcg_next g)).
  destruct (lcg_rand k (lcg_next g)) as [v g2]. cbn [fst length] in *.
  now rewrite IH.
Qed.

Lemma lcg_randint_spec (high : Z) (k : nat) (g : Z) :
  0 < high ->
  length (fst (lcg_randint high k g)) = k /\
  Forall (fun b => 0 <= b < high) (fst (lcg_randint high k g)).
Proof.
  intros Hh. revert g. induction k as [| k IH]; intros g.
  - split; [reflexivity | constructor].
  - cbn [lcg_randint]. specialize (IH (lcg_next g)).
    destruct (lcg_randint high k (lcg_next g)) as [v g2]. cbn [fst length] in *.
    destruct IH as [IH1 IH2]. split; [now rewrite IH1 |].
    constructor; [apply Z.mod_pos_bound; exact Hh | exact IH2].
Qed.

(** The 3 x 3 array and an array that differs from it everywhere but
    just above the diagonal. *)
Lemma go_slow_reads_superdiagonal_witness :
  go_slow tanh_sample arange9
  = go_slow tanh_sample (mk_ndarray2 3 3 3 1 [7; 1; 7; 7; 7; 5; 7; 7; 7]%float).
Proof.
  apply (go_slow_reads_superdiagonal tanh_sample arange9
           (mk_ndarray2 3 3 3 1 [7; 1; 7; 7; 7; 5; 7; 7; 7]%float)
           eq_refl eq_refl).
  intros [| [| i]] H _; [reflexivity | reflexivity | cbn in H; lia].
Defined.


(** The transpose of the 3 x 2 array is 2 x 3. *)
Lemma go_slow_transposed_witness :
  go_slow tanh_sample (T arange6_tall)
  = Ok (fsum (map (fun i => tanh_sample (item arange6_tall (S i) i)) (seq 0 1))).
Proof.
  apply (go_slow_transposed tanh_sample arange6_tall). cbn. lia.
Defined.

(** Two samples, then three more. *)
Lemma monte_carlo_pi_successive_calls_witness :
  let g1 := snd (monte_carlo_pi norm_sample Z lcg_rand 2 42) in
  snd (monte_carlo_pi norm_sample Z lcg_rand 3 g1)
  = snd (monte_carlo_pi norm_sample Z lcg_rand (2 + 3) 42) /\
  draws Z lcg_rand (Z.to_nat (2 + 3)) 42
  = draws Z lcg_rand (Z.to_nat 2) 42 ++ draws Z lcg_rand (Z.to_nat 3) g1 /\
  inside_count norm_sample (draws Z lcg_rand (Z.to_nat (2 + 3)) 42)
  = inside_count norm_sample (draws Z lcg_rand (Z.to_nat 2) 42)
    + inside_count norm_sample (draws Z lcg_rand (Z.to_nat 3) g1).
Proof.
  apply (monte_carlo_pi_successive_calls norm_sample Z lcg_rand 2 3 42); lia.
Defined.

(** One sample, which falls inside the circle. *)
Lemma monte_carlo_pi_extremes_witness :
  fst (monte_carlo_pi norm_sample Z lcg_rand 1 42) = Ok 4%float.
Proof.
  refine (proj1 (monte_carlo_pi_extremes norm_sample Z lcg_rand 1 42 _) _).
  - split; [lia | reflexivity].
  - vm_compute. repeat constructor.
Defined.

(** A negative iteration count on [heap_small]. *)
Lemma solvers_without_iterations_witness :
  logistic_regression_no_jit exp_sample dot_mv_sample dot_vm_sample
    2 1 3 (-1) heap_small
  = (Ok 3%positive, heap_small) /\
  gradient 1 2 3 0.125 (-1) heap_small = (Ok 3%positive, heap_small) /\
  logistic_regression exp_sample 2 1 3 (-1) heap_small
  = (Ok 3%positive, heap_small).
Proof.
  pose proof (solvers_without_iterations exp_sample exp_sample dot_mv_sample
                dot_vm_sample 1 2 3 0.125 (-1) heap_small ltac:(lia))
    as [Hn Hj].
  split; [exact Hn |].
  exact (Hj (mk_ndarray2 3 2 2 1 [1; 0; 0; 1; 1; 1]%float)
            [1; 2; 3]%float [0; 0]%float eq_refl eq_refl eq_refl).
Defined.

(** Three iterations on [heap_small] are one iteration and then two. *)
Lemma gradient_resumes_witness :
  gradient 1 2 3 0.125 (1 + 2) heap_small
  = match gradient 1 2 3 0.125 1 heap_small with
    | (Ok _, h1) => gradient 1 2 3 0.125 2 h1
    | (Raise e, h1) => (Raise e, h1)
    end.
Proof.
  apply (gradient_resumes 1 2 3 0.125 1 2 heap_small); lia.
Defined.

(** The same on [heap_labels]. *)
Lemma logistic_regression_resumes_witness :
  logistic_regression exp_sample 2 1 3 (1 + 2) heap_labels
  = match logistic_regression exp_sample 2 1 3 1 heap_labels with
    | (Ok _, h1) => logistic_regression exp_sample 2 1 3 2 h1
    | (Raise e, h1) => (Raise e, h1)
    end.
Proof.
  apply (proj1 (logistic_regression_resumes exp_sample exp_sample dot_mv_sample
                  dot_vm_sample 2 1 3 1 2 heap_labels
                  ltac:(lia) ltac:(lia))).
Defined.

(** On [heap_small] the call [gradient(X, y, w)] returns, and the call
    [gradient(X, w, y)], with the vectors exchanged, stops. *)
Lemma gradient_shape_errors_witness :
  fst (gradient 1 2 3 0.125 2 heap_small) = Ok 3%positive /\
  gradient 1 3 2 0.125 2 heap_small = (Raise ValueError, heap_small).
Proof.
  split.
  - apply (proj1 (gradient_shape_errors heap_small 1 2 3
                    (mk_ndarray2 3 2 2 1 [1; 0; 0; 1; 1; 1]%float)
                    [1; 2; 3]%float [0; 0]%float 0.125 2
                    eq_refl eq_refl eq_refl ltac:(lia))).
    reflexivity.
  - apply (proj2 (gradient_shape_errors heap_small 1 3 2
                    (mk_ndarray2 3 2 2 1 [1; 0; 0; 1; 1; 1]%float)
                    [0; 0]%float [1; 2; 3]%float 0.125 2
                    eq_refl eq_refl eq_refl ltac:(lia))).
    reflexivity.
Defined.

(** The same for [logistic_regression] on [heap_labels]. *)
Lemma logistic_regression_shape_errors_witness :
  fst (logistic_regression exp_sample 2 1 3 2 heap_labels) = Ok 3%positive /\
  logistic_regression exp_sample 3 1 2 2 heap_labels
  = (Raise ValueError, heap_labels).
Proof.
  split.
  - apply (proj1 (logistic_regression_shape_errors exp_sample exp_sample
                    dot_mv_sample dot_vm_sample heap_labels 2 1 3
                    (mk_ndarray2 3 2 2 1 [1; 0; 0; 1; 1; 1]%float)
                    [1; -1; 1]%float [0; 0]%float 2
                    eq_refl eq_refl eq_refl ltac:(lia))).
    reflexivity.
  - apply (proj2 (logistic_regression_shape_errors exp_sample exp_sample
                    dot_mv_sample dot_vm_sample heap_labels 3 1 2
                    (mk_ndarray2 3 2 2 1 [1; 0; 0; 1; 1; 1]%float)
                    [0; 0]%float [1; -1; 1]%float 2
                    eq_refl eq_refl eq_refl ltac:(lia))).
    reflexivity.
Defined.

(** [w] has two entries before and after two iterations on
    [heap_small]. *)
Lemma solvers_keep_length_of_w_witness :
  exists wv', snd (gradient 1 2 3 0.125 2 heap_small) !! 3%positive
              = Some (Vec wv') /\
              length wv' = 2%nat.
Proof.
  apply (proj1 (solvers_keep_length_of_w exp_sample exp_sample dot_mv_sample
                  dot_vm_sample heap_small 1 2 3
                  [0; 0]%float 0.125 2 eq_refl)).
Defined.

(** On [heap_solved] the residual is zero and [gradient] leaves the
    store as it is. *)
Lemma gradient_fixed_point_witness :
  gradient 1 2 3 0.125 5 heap_solved = (Ok 3%positive, heap_solved).
Proof.
  refine (proj2 (gradient_fixed_point heap_solved 1 2 3
                   (mk_ndarray2 2 2 2 1 [1; 0; 0; 1]%float)
                   [1; 2]%float [1; 2]%float 0.125 5
                   eq_refl eq_refl eq_refl eq_refl _ _ eq_refl eq_refl eq_refl)).
  - intros [| [| i]] [| [| j]] Hi Hj; try reflexivity; cbn in Hi, Hj; lia.
  - repeat constructor.
Defined.

(** On [heap_margin] the exponential of [-1000] is zero and
    [logistic_regression] leaves the store as it is. *)
Lemma logistic_regression_saturated_witness :
  logistic_regression exp_underflow_sample 2 1 3 5 heap_margin
  = (Ok 3%positive, heap_margin).
Proof.
  refine (proj1 (proj2 (logistic_regression_saturated exp_underflow_sample
                          exp_underflow_sample dot_mv_sample dot_vm_sample
                          heap_margin 2 1 3
                          (mk_ndarray2 1 1 1 1 [1000%float])
                          [1%float] [1%float] 5
                          eq_refl eq_refl eq_refl eq_refl eq_refl _ _ _))).
  - intros [| i] [| j] Hi Hj; try reflexivity; cbn in Hi, Hj; lia.
  - repeat constructor.
  - vm_compute. repeat constructor.
Defined.

(** The regression cells with four samples and two features. *)
Lemma regression_cells_witness :
  fst (run_gradient (fst (setup_regression Z lcg_rand 4 2 42)))
  = Ok 3%positive.
Proof.
  pose proof (regression_cells Z lcg_rand 4 2 42 length_lcg_rand) as H.
  cbv zeta in H.
  destruct H as (Xa & yd & _ & _ & _ & _ & _ & _ & H).
  rewrite H. reflexivity.
Defined.

(** The classification cells on [heap_small], with three samples and two
    features. *)
Lemma classification_cells_witness :
  fst (run_logistic exp_sample exp_sample dot_mv_sample dot_vm_sample 2
         (fst (setup_classification Z lcg_randint 3 2 heap_small 42)))
  = Ok 5%positive.
Proof.
  pose proof (classification_cells exp_sample exp_sample dot_mv_sample
                dot_vm_sample Z lcg_randint 3 2 2 heap_small 42
                (mk_ndarray2 3 2 2 1 [1; 0; 0; 1; 1; 1]%float)
                (fun k g' => lcg_randint_spec 2 k g' eq_refl)
                eq_refl eq_refl eq_refl) as H.
  cbv zeta in H.
  destruct H as (yv & _ & _ & _ & _ & H).
  rewrite H. reflexivity.
Defined.
